(** * registry.ts: the typed value codec and the cached key tree

    A shallow embedding of [src/registry.ts].  JavaScript strings are lists
    of UTF-16 code units ([list N]), byte arrays are [list byte], JavaScript
    exceptions are the [Throw] case of the result type [res], and the
    objects the module mutates (key nodes, memoized promises, spawned
    processes) live in an explicit store threaded through every operation.

    Modelling boundary.  A [number] payload is an integral value ([Z]) or
    NaN; names inherited from [Object.prototype] are not looked up in the
    plain objects used as maps; typed arrays are little-endian, as on every
    platform Node.js supports; the callbacks of a promise that has settled
    run at the call of [then], within the same event. *)

From Stdlib Require Import ZArith NArith List String Ascii Bool Lia.
From Stdlib.Strings Require Import Byte.
From stdpp Require Import base option list gmap.

Local Open Scope N_scope.

(** ** JavaScript strings *)

Abbreviation jsstring := (list N).
Abbreviation byte := Byte.byte.

(** A string literal of the source as a list of code units. *)
Definition js (s : string) : jsstring :=
  map N_of_ascii (list_ascii_of_string s).

(** The double quote, which a literal cannot hold. *)
Definition dquote : N := 34.
Definition bslash : N := 92.
Definition comma : N := 44.

(** Exceptions the module can raise or receive. *)
Inductive exn : Type :=
| TypeError
| RangeError
| SyntaxError
| Error (message : jsstring)
| RegError (message : jsstring) (code : Z).

Inductive res (A : Type) : Type :=
| Ret (a : A)
| Throw (e : exn).
Arguments Ret {A} a.
Arguments Throw {A} e.

#[global] Instance res_ret : MRet res := fun A a => Ret a.
#[global] Instance res_bind : MBind res := fun A B f m =>
  match m with Ret a => f a | Throw e => Throw e end.
#[global] Instance res_fmap : FMap res := fun A B f m =>
  match m with Ret a => Ret (f a) | Throw e => Throw e end.

(** [String.prototype.startsWith] *)
Fixpoint startsWith (s p : jsstring) : bool :=
  match p, s with
  | [], _ => true
  | c :: p', d :: s' => (c =? d) && startsWith s' p'
  | _ :: _, [] => false
  end.

(** [String.prototype.endsWith] *)
Definition endsWith (s p : jsstring) : bool :=
  startsWith (rev s) (rev p).

(** [String.prototype.indexOf(c, from)] for a one-character needle; [-1]
    when absent. *)
Fixpoint indexOf_from (c : N) (s : jsstring) (i : nat) : Z :=
  match s with
  | [] => (-1)%Z
  | d :: s' => if d =? c then Z.of_nat i else indexOf_from c s' (S i)
  end.

Definition indexOf (s : jsstring) (c : N) (from : nat) : Z :=
  indexOf_from c (drop from s) from.

(** [String.prototype.substring(a, b)]: both ends are clamped to
    [0 .. length] and swapped when [a > b]. *)
Definition clamp (s : jsstring) (i : Z) : nat :=
  Nat.min (Z.to_nat i) (length s).

Definition substring (s : jsstring) (a b : Z) : jsstring :=
  let a' := clamp s a in
  let b' := clamp s b in
  take (Nat.max a' b' - Nat.min a' b') (drop (Nat.min a' b') s).

(** [s.substring(a)] *)
Definition substring_from (s : jsstring) (a : Z) : jsstring :=
  drop (clamp s a) s.

(** [String.prototype.split(sep)] for a non-empty separator.  [skip] counts
    the code units of a separator still to be passed over. *)
Fixpoint split_go (sep : jsstring) (skip : nat) (s cur : jsstring)
  : list jsstring :=
  match s with
  | [] => [cur]
  | c :: s' =>
      match skip with
      | S k => split_go sep k s' cur
      | O =>
          if startsWith s sep
          then cur :: split_go sep (length sep - 1) s' []
          else split_go sep 0 s' (cur ++ [c])
      end
  end.

Definition split (s sep : jsstring) : list jsstring :=
  split_go sep 0 s [].

(** [Array.prototype.join(sep)] on strings. *)
Fixpoint join (sep : jsstring) (l : list jsstring) : jsstring :=
  match l with
  | [] => []
  | [x] => x
  | x :: l' => x ++ sep ++ join sep l'
  end.

(** White space and line terminators: what [\s] matches and [trim]
    strips. *)
Definition is_line_terminator (c : N) : bool :=
  (c =? 10) || (c =? 13) || (c =? 0x2028) || (c =? 0x2029).

Definition is_space (c : N) : bool :=
  (c =? 9) || (c =? 11) || (c =? 12) || (c =? 32) || (c =? 0xA0)
  || (c =? 0x1680) || ((0x2000 <=? c) && (c <=? 0x200A))
  || (c =? 0x202F) || (c =? 0x205F) || (c =? 0x3000) || (c =? 0xFEFF)
  || is_line_terminator c.

Fixpoint trimStart (s : jsstring) : jsstring :=
  match s with
  | c :: s' => if is_space c then trimStart s' else s
  | [] => []
  end.

Definition trim (s : jsstring) : jsstring :=
  rev (trimStart (rev (trimStart s))).

(** ** Numbers as text *)

Definition digit_char (d : N) : N :=
  if d <? 10 then 48 + d else 87 + d.

Fixpoint to_radix (fuel : nat) (radix n : N) (acc : jsstring) : jsstring :=
  match fuel with
  | O => acc
  | S f =>
      if n =? 0 then acc
      else to_radix f radix (n / radix) (digit_char (n mod radix) :: acc)
  end.

(** [n.toString(radix)] on a natural number. *)
Definition N_toString (radix n : N) : jsstring :=
  if n =? 0 then js "0"
  else to_radix (S (N.to_nat (N.log2 n))) radix n [].

(** [Number.prototype.toString(radix)] and [BigInt.prototype.toString]
    on an integer. *)
Definition Z_toString (radix : N) (z : Z) : jsstring :=
  match z with
  | Zneg p => js "-" ++ N_toString radix (Npos p)
  | _ => N_toString radix (Z.to_N z)
  end.

(** [s.padStart(2, '0')] *)
Definition padStart2 (s : jsstring) : jsstring :=
  match s with
  | [] => js "00"
  | [c] => [48; c]
  | _ => s
  end.

Definition hex_digit_value (c : N) : option N :=
  if (48 <=? c) && (c <=? 57) then Some (c - 48)
  else if (97 <=? c) && (c <=? 102) then Some (c - 87)
  else if (65 <=? c) && (c <=? 70) then Some (c - 55)
  else None.

(** The digits [parseInt] reads: the longest prefix of hexadecimal
    digits, [None] when it is empty (NaN). *)
Fixpoint hex_prefix (s : jsstring) (acc : option N) : option N :=
  match s with
  | c :: s' =>
      match hex_digit_value c with
      | Some d => hex_prefix s' (Some (16 * default 0 acc + d))
      | None => acc
      end
  | [] => acc
  end.

(** [parseInt(s, 16)]: leading white space, a sign, an optional [0x]
    prefix, then hexadecimal digits; [None] stands for NaN. *)
Definition parseInt16 (s : jsstring) : option Z :=
  let s1 := trimStart s in
  let '(neg, s2) :=
    match s1 with
    | 45 :: r => (true, r)
    | 43 :: r => (false, r)
    | _ => (false, s1)
    end in
  let s3 :=
    match s2 with
    | 48 :: 120 :: r => r
    | 48 :: 88 :: r => r
    | _ => s2
    end in
  match hex_prefix s3 None with
  | Some n => Some (if neg : bool then (- Z.of_N n)%Z else Z.of_N n)
  | None => None
  end.

(** ** Bytes, typed arrays and data views *)

Definition byte_of_N (n : N) : byte :=
  default Byte.x00 (Byte.of_N (n mod 256)).

(** Storing a number in a [Uint8Array] element: NaN becomes 0, an
    integer is reduced modulo 256. *)
Definition to_uint8 (v : option Z) : byte :=
  match v with
  | Some z => byte_of_N (Z.to_N (z mod 256))
  | None => Byte.x00
  end.

(** The little-endian bytes of the low [n] bytes of [v]. *)
Fixpoint le_bytes (n : nat) (v : N) : list byte :=
  match n with
  | O => []
  | S k => byte_of_N v :: le_bytes k (v / 256)
  end.

Fixpoint le_value (bs : list byte) : N :=
  match bs with
  | [] => 0
  | b :: r => Byte.to_N b + 256 * le_value r
  end.

(** [new Uint8Array(n)] *)
Definition new_Uint8Array (n : nat) : list byte := replicate n Byte.x00.

(** Successive element writes [a[at_] = x0; a[at_ + 1] = x1; ...]; a
    write past the end of a typed array is ignored. *)
Fixpoint overwrite {A : Type} (a : list A) (at_ : nat) (xs : list A) : list A :=
  match xs with
  | [] => a
  | x :: r => overwrite (<[at_ := x]> a) (S at_) r
  end.

(** A [DataView] on [buf] starting at byte [off]: the write of a [w]-byte
    integer at [pos], least significant byte first when [littleEndian],
    raising [RangeError] outside the view. *)
Definition dv_set (w : nat) (buf : list byte) (off pos : nat) (v : N)
    (littleEndian : bool) : res (list byte) :=
  if (off + pos + w <=? length buf)%nat
  then Ret (overwrite buf (off + pos)
              (if littleEndian then le_bytes w v else rev (le_bytes w v)))
  else Throw RangeError.

Definition dv_get (w : nat) (buf : list byte) (off pos : nat)
    (littleEndian : bool) : res N :=
  if (off + pos + w <=? length buf)%nat
  then let bs := take w (drop (off + pos) buf) in
       Ret (le_value (if littleEndian then bs else rev bs))
  else Throw RangeError.

(** [ToUint32], [ToBigUint64] and the like on an integer. *)
Definition wrap (bits : N) (z : Z) : N := Z.to_N (z mod 2 ^ Z.of_N bits).

(** The bytes behind a [Uint16Array], as [new Uint8Array(a.buffer)] shows
    them. *)
Definition uint16_bytes (a : list N) : list byte :=
  flat_map (le_bytes 2) a.

(** [hex_to_bytes]: the string cut in pieces of two code units, each read
    by [parseInt(_, 16)]. *)
Fixpoint pairs_of (fuel : nat) (s : jsstring) : list jsstring :=
  match fuel with
  | O => []
  | S f =>
      match s with
      | [] => []
      | _ => take 2 s :: pairs_of f (drop 2 s)
      end
  end.

Definition hex_to_bytes (s : jsstring) : list byte :=
  map (fun i => to_uint8 (parseInt16 i)) (pairs_of (length s) s).

Definition bytes_to_hex (value : list byte) : jsstring :=
  join [comma] (map (fun i => padStart2 (N_toString 16 (Byte.to_N i))) value).

(** [string_to_bytes]: writes the code units of [value] and a terminating
    zero through a view at [offset]; returns the buffer and the offset
    after the terminator. *)
Fixpoint string_to_bytes_loop (buf : list byte) (offset i : nat)
    (value : jsstring) : res (list byte) :=
  match value with
  | [] => Ret buf
  | c :: rest =>
      buf' ← dv_set 2 buf offset (i * 2) (c mod 65536) true;
      string_to_bytes_loop buf' offset (S i) rest
  end.

Definition string_to_bytes (buf : list byte) (offset : nat)
    (value : jsstring) : res (list byte * nat) :=
  if (length buf <? offset)%nat then Throw RangeError
  else
    buf1 ← string_to_bytes_loop buf offset 0 value;
    buf2 ← dv_set 2 buf1 offset (length value * 2) 0 true;
    Ret (buf2, (offset + (length value + 1) * 2)%nat).

(** [TextDecoder('utf-16le').decode]: byte pairs become code units, an
    unpaired surrogate or a trailing odd byte becomes U+FFFD, and a
    leading byte order mark is dropped. *)
Fixpoint utf16le_units (bs : list byte) : list N * bool :=
  match bs with
  | b0 :: b1 :: r =>
      let '(us, odd) := utf16le_units r in
      (Byte.to_N b0 + 256 * Byte.to_N b1 :: us, odd)
  | [_] => ([], true)
  | [] => ([], false)
  end.

Definition is_lead_surrogate (u : N) : bool := (0xD800 <=? u) && (u <=? 0xDBFF).
Definition is_trail_surrogate (u : N) : bool := (0xDC00 <=? u) && (u <=? 0xDFFF).

Fixpoint utf16_decode (us : list N) (lead : option N) (odd : bool)
  : jsstring :=
  match us with
  | [] =>
      match lead with
      | Some _ => [0xFFFD]
      | None => if odd then [0xFFFD] else []
      end
  | u :: r =>
      match lead with
      | Some l =>
          if is_trail_surrogate u then l :: u :: utf16_decode r None odd
          else if is_lead_surrogate u then 0xFFFD :: utf16_decode r (Some u) odd
          else 0xFFFD :: u :: utf16_decode r None odd
      | None =>
          if is_lead_surrogate u then utf16_decode r (Some u) odd
          else if is_trail_surrogate u then 0xFFFD :: utf16_decode r None odd
          else u :: utf16_decode r None odd
      end
  end.

Definition TextDecoder_utf16le (buffer : list byte) : jsstring :=
  let '(us, odd) := utf16le_units buffer in
  match utf16_decode us None odd with
  | 0xFEFF :: s => s
  | s => s
  end.

(** [bytes_to_string] *)
Definition bytes_to_string (buffer : list byte) : jsstring :=
  let s := TextDecoder_utf16le buffer in
  if endsWith s [0] then take (length s - 1) s else s.

(** ** The typed values *)

(** A JavaScript [number] at an integral value, or NaN. *)
Inductive number : Type :=
| NaN
| Num (z : Z).

Definition number_of (v : option Z) : number :=
  match v with Some z => Num z | None => NaN end.

(** [ToUint32] *)
Definition ToUint32 (v : number) : N :=
  match v with Num z => wrap 32 z | NaN => 0 end.

Definition number_toString (radix : N) (v : number) : jsstring :=
  match v with Num z => Z_toString radix z | NaN => js "NaN" end.

(** The classes implementing [Data]; the constructor is the class. *)
Inductive Data : Type :=
| NONE (value : list byte)
| BINARY (value : list byte)
| LINK (value : list byte)
| RESOURCE_LIST (value : list byte)
| FULL_RESOURCE_DESCRIPTOR (value : list byte)
| RESOURCE_REQUIREMENTS_LIST (value : list byte)
| SZ (value : jsstring)
| EXPAND_SZ (value : jsstring)
| DWORD (value : number)
| DWORD_BIG_ENDIAN (value : number)
| MULTI_SZ (value : list jsstring)
| QWORD (value : Z).

(** Element writes [a[at_ + j] = s.charCodeAt(j)] into a [Uint16Array]. *)
Definition fill16 (a : list N) (at_ : nat) (s : jsstring) : list N :=
  overwrite a at_ (map (fun c => c mod 65536) s).

(** The [raw] getter of each class. *)
Definition raw (d : Data) : res (list byte) :=
  match d with
  | NONE v | BINARY v | LINK v | RESOURCE_LIST v
  | FULL_RESOURCE_DESCRIPTOR v | RESOURCE_REQUIREMENTS_LIST v => Ret v
  | SZ s | EXPAND_SZ s =>
      let len := length s in
      let a := replicate (len + 1) 0 in
      let a := fill16 a 0 s in
      let a := <[len := 0]> a in
      Ret (uint16_bytes a)
  | DWORD n => dv_set 4 (new_Uint8Array 4) 0 0 (ToUint32 n) true
  | DWORD_BIG_ENDIAN n => dv_set 4 (new_Uint8Array 4) 0 0 (ToUint32 n) false
  | MULTI_SZ l =>
      let len := fold_left (fun acc i => (acc + length i + 1)%nat) l 0%nat in
      let a := replicate (len + 1) 0 in
      let '(a, _) :=
        fold_left (fun '(a, acc) i =>
                     let a := fill16 a acc i in
                     let a := <[(acc + length i)%nat := 0]> a in
                     (a, (acc + length i + 1)%nat)) l (a, 0%nat) in
      Ret (uint16_bytes a)
  | QWORD n => dv_set 8 (new_Uint8Array 8) 0 0 (wrap 64 n) true
  end.

(** ** [data_to_regstring] *)

Definition quoted (s : jsstring) : jsstring := [dquote] ++ s ++ [dquote].

Definition data_to_regstring (value : Data) (strict : bool) : res jsstring :=
  match value with
  | NONE v => Ret (js "hex(0):" ++ bytes_to_hex v)
  | LINK v => Ret (js "hex(6):" ++ bytes_to_hex v)
  | RESOURCE_LIST v => Ret (js "hex(8):" ++ bytes_to_hex v)
  | FULL_RESOURCE_DESCRIPTOR v => Ret (js "hex(9):" ++ bytes_to_hex v)
  | RESOURCE_REQUIREMENTS_LIST v => Ret (js "hex(a):" ++ bytes_to_hex v)
  | BINARY v => Ret (js "hex:" ++ bytes_to_hex v)
  | EXPAND_SZ d =>
      if strict then
        let bytes := new_Uint8Array ((length d + 1) * 2) in
        '(bytes, _) ← string_to_bytes bytes 0 d;
        Ret (js "hex(2):" ++ bytes_to_hex bytes)
      else Ret (quoted d)
  | SZ d => Ret (quoted d)
  | DWORD_BIG_ENDIAN n =>
      if strict then
        bytes ← dv_set 4 (new_Uint8Array 4) 0 0 (ToUint32 n) true;
        Ret (js "hex(5): " ++ bytes_to_hex bytes)
      else Ret (js "dword:" ++ number_toString 16 n)
  | DWORD n => Ret (js "dword:" ++ number_toString 16 n)
  | QWORD n =>
      if strict then
        bytes ← dv_set 8 (new_Uint8Array 8) 0 0 (wrap 64 n) true;
        Ret (js "hex(11):" ++ bytes_to_hex bytes)
      else Ret (js "qword:" ++ Z_toString 16 n)
  | MULTI_SZ d =>
      if strict then
        let len := fold_left (fun acc i => (acc + length i + 1)%nat) d 1%nat in
        let bytes := new_Uint8Array (len * 2) in
        '(bytes, end_) ←
          fold_left (fun st i => '(b, acc) ← st; string_to_bytes b acc i)
                    d (Ret (bytes, 0%nat));
        let bytes := <[end_ := Byte.x00]> bytes in
        let bytes := <[S end_ := Byte.x00]> bytes in
        Ret (js "hex(7):" ++ bytes_to_hex bytes)
      else Ret (js "[" ++ join [comma] (map quoted d) ++ js "]")
  end.

(** The strict rendering as the specification words it: every variant as
    [hex(<tag>):] over the bytes of its [raw] encoding, [BINARY] untagged. *)
Definition spec_strict_tag (v : Data) : jsstring :=
  match v with
  | NONE _ => js "hex(0):"
  | SZ _ => js "hex(1):"
  | EXPAND_SZ _ => js "hex(2):"
  | BINARY _ => js "hex:"
  | DWORD _ => js "hex(4):"
  | DWORD_BIG_ENDIAN _ => js "hex(5):"
  | LINK _ => js "hex(6):"
  | MULTI_SZ _ => js "hex(7):"
  | RESOURCE_LIST _ => js "hex(8):"
  | FULL_RESOURCE_DESCRIPTOR _ => js "hex(9):"
  | RESOURCE_REQUIREMENTS_LIST _ => js "hex(a):"
  | QWORD _ => js "hex(11):"
  end.

Definition spec_strict_format (v : Data) : res jsstring :=
  bytes ← raw v; Ret (spec_strict_tag v ++ bytes_to_hex bytes).

(** ** Regular expressions

    The backtracking matcher of ECMAScript, for the constructs the four
    patterns of the module use: characters, classes, sequence, ordered
    alternation, greedy quantifiers, capturing groups, and the two
    assertions [^] and [$] (no flag is set on any of the patterns). *)

Inductive regex : Type :=
| REmp
| RChr (c : N)
| RSet (p : N -> bool)
| RSeq (a b : regex)
| RAlt (a b : regex)
| RQuant (min : nat) (max : option nat) (a : regex)
| RGrp (i : nat) (a : regex)
| RBol
| REol.

Definition RCat (l : list regex) : regex := foldr RSeq REmp l.
Definition RStr (s : jsstring) : regex := RCat (map RChr s).
Definition ROr (l : list regex) : regex :=
  match l with
  | [] => REmp
  | a :: l' => fold_left RAlt l' a
  end.
Definition RStar (a : regex) : regex := RQuant 0 None a.
Definition RPlus (a : regex) : regex := RQuant 1 None a.
Definition ROpt (a : regex) : regex := RQuant 0 (Some 1%nat) a.
Definition RRep (n : nat) (a : regex) : regex := RQuant n (Some n) a.

(** The capturing groups inside a pattern: a quantifier clears them at the
    start of every iteration. *)
Fixpoint groups (r : regex) : list nat :=
  match r with
  | RSeq a b | RAlt a b => groups a ++ groups b
  | RQuant _ _ a => groups a
  | RGrp i a => i :: groups a
  | _ => []
  end.

Abbreviation captures := (gmap nat jsstring).

Definition clear_groups (gs : list nat) (c : captures) : captures :=
  foldr delete c gs.

Abbreviation Continuation X := (nat -> jsstring -> captures -> option X).
Abbreviation Matcher X := (nat -> jsstring -> captures -> Continuation X -> option X).

(** The matcher of a quantifier over the matcher [m] of its body
    (RepeatMatcher in the language specification): an iteration that
    matches the empty string once [min] is reached fails; the captures
    [gs] of the body are cleared when an iteration starts.  [fuel] bounds
    the iterations; [rmatch] gives enough. *)
Fixpoint RepeatMatcher {X : Type} (m : Matcher X) (gs : list nat) (k : Continuation X)
    (fuel min : nat) (max : option nat) (i : nat) (s : jsstring) (c : captures)
    {struct fuel} : option X :=
  match fuel with
  | O => None
  | S fuel' =>
      match max with
      | Some O => k i s c
      | _ =>
          let d := fun i' s' c' =>
            if (Nat.eqb min 0 && Nat.eqb i' i)%bool then None
            else RepeatMatcher m gs k fuel' (Nat.pred min) (Nat.pred <$> max) i' s' c' in
          let c0 := clear_groups gs c in
          match min with
          | S _ => m i s c0 d
          | O =>
              match m i s c0 d with
              | Some z => Some z
              | None => k i s c
              end
          end
      end
  end.

(** [rmatch r i s c k]: match [r] at index [i], where [s] is the input
    from [i] on and [c] the captures so far, then continue with [k]. *)
Fixpoint rmatch {X : Type} (r : regex) (i : nat) (s : jsstring) (c : captures)
    (k : Continuation X) {struct r} : option X :=
  match r with
  | REmp => k i s c
  | RChr a =>
      match s with
      | x :: s' => if x =? a then k (S i) s' c else None
      | [] => None
      end
  | RSet p =>
      match s with
      | x :: s' => if p x then k (S i) s' c else None
      | [] => None
      end
  | RSeq a b => rmatch a i s c (fun i' s' c' => rmatch b i' s' c' k)
  | RAlt a b =>
      match rmatch a i s c k with
      | Some z => Some z
      | None => rmatch b i s c k
      end
  | RQuant min max a =>
      RepeatMatcher (rmatch a) (groups a) k (min + length s + 1)%nat min max i s c
  | RGrp n a =>
      rmatch a i s c (fun i' s' c' => k i' s' (<[n := take (i' - i) s]> c'))
  | RBol => if Nat.eqb i 0 then k i s c else None
  | REol => match s with [] => k i s c | _ => None end
  end.

(** The result of [RegExp.prototype.exec]: where the match starts and
    ends, and the captures ([m[n]] is [m_caps !! n], undefined when
    absent). *)
Record RegExpMatch : Type := mkMatch {
  m_index : nat;
  m_end : nat;
  m_caps : captures;
}.

Fixpoint exec_from (r : regex) (i : nat) (s : jsstring) : option RegExpMatch :=
  match rmatch r i s ∅ (fun e _ c => Some (mkMatch i e c)) with
  | Some m => Some m
  | None =>
      match s with
      | [] => None
      | _ :: s' => exec_from r (S i) s'
      end
  end.

Definition exec (r : regex) (s : jsstring) : option RegExpMatch :=
  exec_from r 0 s.

Definition test (r : regex) (s : jsstring) : bool :=
  match exec r s with Some _ => true | None => false end.

(** Truthiness of a capture: defined and not empty. *)
Definition truthy (m : option jsstring) : bool :=
  match m with
  | Some (_ :: _) => true
  | _ => false
  end.

Definition in_range (lo hi : string) (c : N) : bool :=
  match js lo, js hi with
  | [l], [h] => (l <=? c) && (c <=? h)
  | _, _ => false
  end.

Definition hex_class (c : N) : bool :=
  in_range "0" "9" c || in_range "a" "f" c || in_range "A" "F" c.

(** The class [[0-0a-fA-F]] of the tag in [regstring_to_data]. *)
Definition tag_class (c : N) : bool :=
  in_range "0" "0" c || in_range "a" "f" c || in_range "A" "F" c.

Definition word_space_class (c : N) : bool :=
  in_range "a" "z" c || in_range "A" "Z" c || in_range "0" "9" c
  || (c =? 95) || is_space c.

Definition dot (c : N) : bool := negb (is_line_terminator c).
Definition not_space (c : N) : bool := negb (is_space c).

(** [KEY_PATTERN]: any number of groups made of a backslash and one or
    more word characters or white space.  The pattern has no anchor. *)
Definition KEY_PATTERN : regex :=
  RStar (RGrp 1 (RCat [RChr bslash; RPlus (RSet word_space_class)])).

(** [PATH_PATTERN]: from the start, one of the five long hive names
    (group 1), any characters, a backslash, any characters (group 2), up
    to the end. *)
Definition PATH_PATTERN : regex :=
  RCat [ RBol;
         RGrp 1 (ROr [ RStr (js "HKEY_LOCAL_MACHINE"); RStr (js "HKEY_CURRENT_USER");
                       RStr (js "HKEY_CLASSES_ROOT"); RStr (js "HKEY_USERS");
                       RStr (js "HKEY_CURRENT_CONFIG") ]);
         RStar (RSet dot); RChr bslash; RGrp 2 (RStar (RSet dot)); REol ].

(** [ITEM_PATTERN]: from the start, any characters (group 1), one white
    space, one of seven [REG_] type names (group 2), white space, and a
    payload that starts with a character that is not white space (group
    3), up to the end. *)
Definition ITEM_PATTERN : regex :=
  RCat [ RBol; RGrp 1 (RStar (RSet dot)); RSet is_space;
         RGrp 2 (ROr [ RStr (js "REG_SZ"); RStr (js "REG_MULTI_SZ");
                       RStr (js "REG_EXPAND_SZ"); RStr (js "REG_DWORD");
                       RStr (js "REG_QWORD"); RStr (js "REG_BINARY");
                       RStr (js "REG_NONE") ]);
         RPlus (RSet is_space);
         RGrp 3 (RCat [RSet not_space; RStar (RSet dot)]); REol ].

(** The pattern of [regstring_to_data]:
    a quoted string, [dword:] and eight digits, or [hex], an optional
    parenthesised tag, and comma-separated byte pairs. *)
Definition REGSTRING_PATTERN : regex :=
  ROr [ RCat [RChr dquote; RGrp 1 (RStar (RSet dot)); RChr dquote];
        RCat [RGrp 2 (RStr (js "dword")); RStr (js ":");
              RGrp 3 (RRep 8 (RSet hex_class))];
        RCat [RStr (js "hex");
              ROpt (RGrp 4 (RCat [RStr (js "("); RPlus (RSet tag_class);
                                  RStr (js ")")]));
              RStr (js ":");
              RGrp 5 (RCat [RStar (RCat [RRep 2 (RSet hex_class); RChr comma]);
                            RRep 2 (RSet hex_class)])] ].

(** ** [regstring_to_data]; [None] is [undefined]. *)
Definition regstring_to_data (value : jsstring) : res (option Data) :=
  match exec REGSTRING_PATTERN value with
  | None => Ret None
  | Some m =>
      let m_ n := m_caps m !! n in
      if truthy (m_ 1%nat) then Ret (Some (SZ (default [] (m_ 1%nat))))
      else if truthy (m_ 2%nat) then
        Ret (Some (DWORD (number_of
                            (parseInt16 (default (js "undefined") (m_ 3%nat))))))
      else
        match m_ 5%nat with
        | None => Throw TypeError
        | Some m5 =>
            let data := map (fun v => to_uint8 (parseInt16 v)) (split m5 [comma]) in
            if negb (truthy (m_ 4%nat)) then Ret (Some (BINARY data))
            else
              match parseInt16 (default (js "undefined") (m_ 4%nat)) with
              | Some 0%Z => Ret (Some (NONE data))
              | Some 1%Z => Ret (Some (SZ (bytes_to_string data)))
              | Some 2%Z => Ret (Some (EXPAND_SZ (bytes_to_string data)))
              | Some 3%Z => Ret (Some (BINARY data))
              | Some 4%Z =>
                  v ← dv_get 4 data 0 0 true; Ret (Some (DWORD (Num (Z.of_N v))))
              | Some 5%Z =>
                  v ← dv_get 4 data 0 0 false;
                  Ret (Some (DWORD_BIG_ENDIAN (Num (Z.of_N v))))
              | Some 6%Z => Ret (Some (LINK data))
              | Some 7%Z => Ret (Some (MULTI_SZ (split (bytes_to_string data) [0])))
              | Some 8%Z => Ret (Some (RESOURCE_LIST data))
              | Some 9%Z => Ret (Some (FULL_RESOURCE_DESCRIPTOR data))
              | Some 10%Z => Ret (Some (RESOURCE_REQUIREMENTS_LIST data))
              | Some 11%Z => v ← dv_get 8 data 0 0 true; Ret (Some (QWORD (Z.of_N v)))
              | _ => Ret (Some (NONE data))
              end
        end
  end.

(** ** The type table and the [parse] functions *)

Inductive Type_ : Type :=
| T_NONE | T_SZ | T_EXPAND_SZ | T_BINARY | T_DWORD | T_DWORD_BIG_ENDIAN
| T_LINK | T_MULTI_SZ | T_RESOURCE_LIST | T_FULL_RESOURCE_DESCRIPTOR
| T_RESOURCE_REQUIREMENTS_LIST | T_QWORD.

Definition type_name (t : Type_) : jsstring :=
  match t with
  | T_NONE => js "NONE"
  | T_SZ => js "SZ"
  | T_EXPAND_SZ => js "EXPAND_SZ"
  | T_BINARY => js "BINARY"
  | T_DWORD => js "DWORD"
  | T_DWORD_BIG_ENDIAN => js "DWORD_BIG_ENDIAN"
  | T_LINK => js "LINK"
  | T_MULTI_SZ => js "MULTI_SZ"
  | T_RESOURCE_LIST => js "RESOURCE_LIST"
  | T_FULL_RESOURCE_DESCRIPTOR => js "FULL_RESOURCE_DESCRIPTOR"
  | T_RESOURCE_REQUIREMENTS_LIST => js "RESOURCE_REQUIREMENTS_LIST"
  | T_QWORD => js "QWORD"
  end.

Definition all_types : list Type_ :=
  [ T_NONE; T_SZ; T_EXPAND_SZ; T_BINARY; T_DWORD; T_DWORD_BIG_ENDIAN; T_LINK;
    T_MULTI_SZ; T_RESOURCE_LIST; T_FULL_RESOURCE_DESCRIPTOR;
    T_RESOURCE_REQUIREMENTS_LIST; T_QWORD ].

(** [TYPES[name]] *)
Definition TYPES (name : jsstring) : option Type_ :=
  List.find (fun t => bool_decide (type_name t = name)) all_types.

Definition string_to_type (type : jsstring) : option Type_ :=
  TYPES (if startsWith type (js "REG_") then substring_from type 4 else type).

(** The class of a value, and its name ([value.constructor.name]). *)
Definition constructor (d : Data) : Type_ :=
  match d with
  | NONE _ => T_NONE
  | SZ _ => T_SZ
  | EXPAND_SZ _ => T_EXPAND_SZ
  | BINARY _ => T_BINARY
  | DWORD _ => T_DWORD
  | DWORD_BIG_ENDIAN _ => T_DWORD_BIG_ENDIAN
  | LINK _ => T_LINK
  | MULTI_SZ _ => T_MULTI_SZ
  | RESOURCE_LIST _ => T_RESOURCE_LIST
  | FULL_RESOURCE_DESCRIPTOR _ => T_FULL_RESOURCE_DESCRIPTOR
  | RESOURCE_REQUIREMENTS_LIST _ => T_RESOURCE_REQUIREMENTS_LIST
  | QWORD _ => T_QWORD
  end.

(** [BigInt(s)]: white space is trimmed; the empty string is zero; a
    signed decimal or an unsigned [0x], [0o] or [0b] literal is read; any
    other text raises [SyntaxError]. *)
Fixpoint digits_value (radix : N) (s : jsstring) (acc : N) : option N :=
  match s with
  | [] => Some acc
  | c :: r =>
      match hex_digit_value c with
      | Some d => if d <? radix then digits_value radix r (radix * acc + d) else None
      | None => None
      end
  end.

Definition all_digits (radix : N) (s : jsstring) : option N :=
  match s with
  | [] => None
  | _ => digits_value radix s 0
  end.

Definition StringToBigInt (s : jsstring) : option Z :=
  match trim s with
  | [] => Some 0%Z
  | 48 :: 120 :: r | 48 :: 88 :: r => Z.of_N <$> all_digits 16 r
  | 48 :: 111 :: r | 48 :: 79 :: r => Z.of_N <$> all_digits 8 r
  | 48 :: 98 :: r | 48 :: 66 :: r => Z.of_N <$> all_digits 2 r
  | 45 :: r => (fun n => (- Z.of_N n)%Z) <$> all_digits 10 r
  | 43 :: r => Z.of_N <$> all_digits 10 r
  | t => Z.of_N <$> all_digits 10 t
  end.

Definition BigInt (s : jsstring) : res Z :=
  match StringToBigInt s with
  | Some z => Ret z
  | None => Throw SyntaxError
  end.

(** The text of a payload inside a template literal. *)
Definition value_toString (d : Data) : jsstring :=
  match d with
  | NONE v | BINARY v | LINK v | RESOURCE_LIST v
  | FULL_RESOURCE_DESCRIPTOR v | RESOURCE_REQUIREMENTS_LIST v =>
      join [comma] (map (fun b => N_toString 10 (Byte.to_N b)) v)
  | SZ s | EXPAND_SZ s => s
  | DWORD n | DWORD_BIG_ENDIAN n => number_toString 10 n
  | MULTI_SZ l => join [comma] l
  | QWORD n => Z_toString 10 n
  end.

Definition HIVES_SHORT : list jsstring :=
  [js "HKLM"; js "HKU"; js "HKCU"; js "HKCR"; js "HKCC"].
Definition HIVES_LONG : list jsstring :=
  [js "HKEY_LOCAL_MACHINE"; js "HKEY_USERS"; js "HKEY_CURRENT_USER";
   js "HKEY_CLASSES_ROOT"; js "HKEY_CURRENT_CONFIG"].

(** [Array.prototype.indexOf] *)
Fixpoint array_indexOf (l : list jsstring) (x : jsstring) (i : nat) : option nat :=
  match l with
  | [] => None
  | y :: l' => if bool_decide (y = x) then Some i else array_indexOf l' x (S i)
  end.

(** ** The key tree and its store *)

Abbreviation addr := nat.

(** A [KeyImp] object.  [found] is [undefined] or [true] in the source
    and only ever tested for truth: [false] stands for [undefined].
    [_items] names the memoized promise. *)
Record KeyImp : Type := mkKeyImp {
  name : jsstring;
  parent : option addr;
  _keys : gmap jsstring addr;
  found : bool;
  _items : option nat;
}.

Definition new_KeyImp (name : jsstring) (parent : option addr) : KeyImp :=
  mkKeyImp name parent ∅ false None.

#[global] Instance KeyImp_inhabited : Inhabited KeyImp :=
  populate (new_KeyImp [] None).

Definition set_keys (f : gmap jsstring addr -> gmap jsstring addr) (n : KeyImp)
  : KeyImp := mkKeyImp (name n) (parent n) (f (_keys n)) (found n) (_items n).
Definition set_found (n : KeyImp) : KeyImp :=
  mkKeyImp (name n) (parent n) (_keys n) true (_items n).
Definition set_items (p : nat) (n : KeyImp) : KeyImp :=
  mkKeyImp (name n) (parent n) (_keys n) (found n) (Some p).

(** The state of a promise. *)
Inductive promise (A : Type) : Type :=
| Pending
| Fulfilled (a : A)
| Rejected (e : exn).
Arguments Pending {A}.
Arguments Fulfilled {A} a.
Arguments Rejected {A} e.

(** What an operation's promise resolves to. *)
Inductive value : Type :=
| VBool (b : bool)
| VKey (k : addr)
| VUndefined.

(** The callbacks the module attaches to a memoized promise with [then];
    [r] names the promise of the operation that attached it. *)
Inductive reaction : Type :=
| OnClear
| OnDeleteValue (key : jsstring) (r : nat)
| OnSetValue (key : jsstring) (v : Data) (r : nat)
| OnExists (r : nat).

(** What happens when the process an operation spawned closes. *)
Inductive continuation : Type :=
| KReread (this : addr) (p : nat)
| KBool (r : nat)
| KDestroy (this : addr) (r : nat)
| KCreate (this : addr) (r : nat)
| KDeleteValue (this : addr) (key : jsstring) (r : nat)
| KSetValue (this : addr) (key : jsstring) (v : Data) (r : nat)
| KImport (view : option jsstring) (dirty : option (list addr)) (r : nat).

Record Process : Type := mkProcess {
  p_exec : jsstring;
  p_args : list jsstring;
  p_then : continuation;
  p_closed : bool;
}.

Abbreviation Items := (gmap jsstring Data).

Record state : Type := mkState {
  nodes : list KeyImp;
  hosts32 : gmap jsstring addr;
  hosts64 : gmap jsstring addr;
  items : list (promise Items * list reaction);
  results : list (promise value);
  procs : list Process;
}.

Definition initial : state := mkState [] ∅ ∅ [] [] [].

Definition with_nodes (f : list KeyImp -> list KeyImp) (st : state) : state :=
  mkState (f (nodes st)) (hosts32 st) (hosts64 st) (items st) (results st) (procs st).
Definition with_items
    (f : list (promise Items * list reaction) -> list (promise Items * list reaction))
    (st : state) : state :=
  mkState (nodes st) (hosts32 st) (hosts64 st) (f (items st)) (results st) (procs st).
Definition with_results (f : list (promise value) -> list (promise value))
    (st : state) : state :=
  mkState (nodes st) (hosts32 st) (hosts64 st) (items st) (f (results st)) (procs st).
Definition with_procs (f : list Process -> list Process) (st : state) : state :=
  mkState (nodes st) (hosts32 st) (hosts64 st) (items st) (results st) (f (procs st)).

(** A new promise for an operation's result. *)
Definition new_result (st : state) : state * nat :=
  (with_results (fun rs => rs ++ [Pending]) st, length (results st)).

Definition resolve (r : nat) (v : promise value) (st : state) : state :=
  with_results (fun rs => <[r := v]> rs) st.

(** The host: [process.platform], [process.env.windir], [path.join], and
    the conversion of a string to a number (unary [+]). *)
Record Env : Type := mkEnv {
  platform : jsstring;
  windir : option jsstring;
  path_join : list jsstring -> jsstring;
  ToNumber : jsstring -> number;
}.

Section Registry.

Variable env : Env.

Definition regExec : jsstring :=
  if bool_decide (platform env = js "win32")
  then path_join env [default [] (windir env); js "system32"; js "reg.exe"]
  else js "REG".

(** The static [parse] of each class. *)
Definition parse (t : Type_) (s : jsstring) : res Data :=
  match t with
  | T_NONE => Ret (NONE (hex_to_bytes s))
  | T_BINARY => Ret (BINARY (hex_to_bytes s))
  | T_LINK => Ret (LINK (hex_to_bytes s))
  | T_RESOURCE_LIST => Ret (RESOURCE_LIST (hex_to_bytes s))
  | T_FULL_RESOURCE_DESCRIPTOR => Ret (FULL_RESOURCE_DESCRIPTOR (hex_to_bytes s))
  | T_RESOURCE_REQUIREMENTS_LIST => Ret (RESOURCE_REQUIREMENTS_LIST (hex_to_bytes s))
  | T_SZ => Ret (SZ s)
  | T_EXPAND_SZ => Ret (EXPAND_SZ s)
  | T_DWORD => Ret (DWORD (ToNumber env s))
  | T_DWORD_BIG_ENDIAN => Ret (DWORD_BIG_ENDIAN (ToNumber env s))
  | T_MULTI_SZ => Ret (MULTI_SZ (split s (js "\0")))
  | T_QWORD => QWORD <$> BigInt s
  end.

Definition argName (name : jsstring) : list jsstring :=
  match name with
  | [] => [js "/ve"]
  | _ => [js "/v"; name]
  end.

Definition argData (v : Data) : list jsstring :=
  [js "/t"; js "REG_" ++ type_name (constructor v)]
  ++ (match v with MULTI_SZ _ => [js "/s"; js ","] | _ => [] end)
  ++ [js "/d"; quoted (value_toString v)].

(** [getRootAndPath]: the loop climbs while the node has a parent. *)
Fixpoint climb (fuel : nat) (ns : list KeyImp) (p : addr) (key : jsstring)
  : addr * jsstring :=
  match fuel with
  | O => (p, key)
  | S f =>
      match parent (ns !!! p) with
      | Some pp => climb f ns pp (name (ns !!! p) ++ [bslash] ++ key)
      | None => (p, key)
      end
  end.

Definition getRootAndPath (ns : list KeyImp) (this : addr) : addr * jsstring :=
  let n := ns !!! this in
  match parent n with
  | None => (this, name n)
  | Some p =>
      let '(p, key) := climb (length ns) ns p (name n) in
      match name (ns !!! p) with
      | [] => (p, key)
      | h => (p, js "\\" ++ h ++ [bslash] ++ key)
      end
  end.

(** [hosts32[root.name] === root ? '32' : '64'] *)
Definition view_of (st : state) (root : addr) : jsstring :=
  if bool_decide (hosts32 st !! name (nodes st !!! root) = Some root)
  then js "32" else js "64".

Definition getView (st : state) (this : addr) (root : option addr) : jsstring :=
  view_of st (default (getRootAndPath (nodes st) this).1 root).

Definition path (st : state) (this : addr) : jsstring :=
  (getRootAndPath (nodes st) this).2.

Definition spawn (exec : jsstring) (args : list jsstring) (k : continuation)
    (st : state) : state :=
  with_procs (fun ps => ps ++ [mkProcess exec args k false]) st.

(** [runCommand]: the process is spawned at once; [k] is what the caller
    chains on the promise it returns. *)
Definition runCommand (st : state) (this : addr) (command : jsstring)
    (args : list jsstring) (k : continuation) : state :=
  let '(root, fullpath) := getRootAndPath (nodes st) this in
  let view := view_of st root in
  let args := match view with [] => args | _ => args ++ [js "/reg:" ++ view] end in
  spawn regExec (command :: quoted fullpath :: args) k st.

(** [add_found_key] *)
Definition add_found_key (ns : list KeyImp) (this : addr) (key : jsstring)
  : list KeyImp :=
  match key with
  | [] => ns
  | _ =>
      if bool_decide (key = name (ns !!! this)) then ns
      else
        match _keys (ns !!! this) !! key with
        | Some c => alter set_found c ns
        | None =>
            let c := length ns in
            alter set_found c
              (alter (set_keys (<[key := c]>)) this
                 (ns ++ [new_KeyImp key (Some this)]))
        end
  end.

(** The loop that ends the callback of [reread]: it marks nodes upward
    while the node is not marked and has a parent. *)
Fixpoint mark_found (fuel : nat) (ns : list KeyImp) (p : addr) : list KeyImp :=
  match fuel with
  | O => ns
  | S f =>
      if found (ns !!! p) then ns
      else
        match parent (ns !!! p) with
        | Some pp => mark_found f (alter set_found p ns) pp
        | None => ns
        end
  end.

Definition cap (m : RegExpMatch) (n : nat) : jsstring :=
  default [] (m_caps m !! n).

(** One turn of the loop over the lines of the output.  The nodes are
    mutated in place, so they survive an exception of a [parse]. *)
Definition reread_line (this : addr)
    (acc : list KeyImp * res (Items * nat)) (i : jsstring)
  : list KeyImp * res (Items * nat) :=
  match acc with
  | (ns, Throw e) => (ns, Throw e)
  | (ns, Ret (its, lineNumber)) =>
      match trim i with
      | [] => (ns, Ret (its, lineNumber))
      | line =>
          match (if Nat.eqb lineNumber 0 then None else exec ITEM_PATTERN line) with
          | Some m =>
              match string_to_type (trim (cap m 2)) with
              | Some type =>
                  match parse type (cap m 3) with
                  | Ret d => (ns, Ret (<[trim (cap m 1) := d]> its, S lineNumber))
                  | Throw e => (ns, Throw e)
                  end
              | None => (ns, Ret (its, S lineNumber))
              end
          | None =>
              match exec PATH_PATTERN line with
              | Some m => (add_found_key ns this (cap m 2), Ret (its, S lineNumber))
              | None => (ns, Ret (its, S lineNumber))
              end
          end
      end
  end.

(** The callback of [reread] on the output of a successful query. *)
Definition reread_done (this : addr) (stdout : jsstring) (ns : list KeyImp)
  : list KeyImp * res Items :=
  let '(ns, r) :=
    fold_left (reread_line this) (split stdout [10]) (ns, Ret (∅, 0%nat)) in
  match r with
  | Ret (its, _) => (mark_found (length ns) ns this, Ret its)
  | Throw e => (ns, Throw e)
  end.

(** Reactions of a memoized promise. *)
Definition on_fulfilled (rx : reaction) (x : Items) (st : state) : Items * state :=
  match rx with
  | OnClear => (∅, st)
  | OnDeleteValue key r => (delete key x, resolve r (Fulfilled (VBool true)) st)
  | OnSetValue key v r => (<[key := v]> x, resolve r (Fulfilled (VBool true)) st)
  | OnExists r => (x, resolve r (Fulfilled (VBool true)) st)
  end.

Definition on_rejected (rx : reaction) (e : exn) (st : state) : state :=
  match rx with
  | OnClear => st
  | OnDeleteValue _ r | OnSetValue _ _ r => resolve r (Rejected e) st
  | OnExists r => resolve r (Fulfilled (VBool false)) st
  end.

(** [p.then(rx)]: queued while [p] is pending, run when it has settled. *)
Definition then_ (p : nat) (rx : reaction) (st : state) : state :=
  match items st !! p with
  | Some (Pending, rs) => with_items (<[p := (Pending, rs ++ [rx])]>) st
  | Some (Fulfilled x, rs) =>
      let '(x', st') := on_fulfilled rx x st in
      with_items (<[p := (Fulfilled x', rs)]>) st'
  | Some (Rejected e, _) => on_rejected rx e st
  | None => st
  end.

(** The memoized promise [p] settles and its reactions run in order. *)
Definition settle (p : nat) (o : res Items) (st : state) : state :=
  match items st !! p with
  | Some (Pending, rs) =>
      match o with
      | Ret x =>
          let '(x', st') :=
            fold_left (fun '(x, st) rx => on_fulfilled rx x st) rs (x, st) in
          with_items (<[p := (Fulfilled x', [])]>) st'
      | Throw e =>
          with_items (<[p := (Rejected e, [])]>)
            (fold_left (fun st rx => on_rejected rx e st) rs st)
      end
  | _ => st
  end.

(** ** The methods of [KeyImp] *)

Definition reread (st : state) (this : addr) : state * nat :=
  let p := length (items st) in
  let st := runCommand st this (js "QUERY") [] (KReread this p) in
  let st := with_items (fun l => l ++ [(Pending, [])]) st in
  (with_nodes (alter (set_items p) this) st, p).

Definition read (st : state) (this : addr) : state * nat :=
  match _items (nodes st !!! this) with
  | Some p => (st, p)
  | None => reread st this
  end.

Fixpoint subkey_loop (ns : list KeyImp) (p : addr) (segs : list jsstring)
  : list KeyImp * addr :=
  match segs with
  | [] => (ns, p)
  | i :: rest =>
      match _keys (ns !!! p) !! i with
      | Some c => subkey_loop ns c rest
      | None =>
          let c := length ns in
          subkey_loop
            (alter (set_keys (<[i := c]>)) p (ns ++ [new_KeyImp i (Some p)]))
            c rest
      end
  end.

Definition subkey (st : state) (this : addr) (key : jsstring) : state * addr :=
  let '(ns, p) := subkey_loop (nodes st) this (split key [bslash]) in
  (with_nodes (fun _ => ns) st, p).

Definition exists_ (st : state) (this : addr) : state * nat :=
  let '(st, r) := new_result st in
  let n := nodes st !!! this in
  if found n then (resolve r (Fulfilled (VBool true)) st, r)
  else if match parent n with
          | Some p => found (nodes st !!! p)
          | None => false
          end
       then (resolve r (Fulfilled (VBool false)) st, r)
       else let '(st, p) := read st this in (then_ p (OnExists r) st, r).

Definition clear (st : state) (this : addr) : state * nat :=
  let st := match _items (nodes st !!! this) with
            | Some p => then_ p OnClear st
            | None => st
            end in
  let '(st, r) := new_result st in
  (runCommand st this (js "DELETE") [js "/f"; js "/va"] (KBool r), r).

Definition destroy (st : state) (this : addr) : state * nat :=
  let '(st, r) := new_result st in
  (runCommand st this (js "DELETE") [js "/f"] (KDestroy this r), r).

Definition create (st : state) (this : addr) : state * nat :=
  let '(st, r) := new_result st in
  (runCommand st this (js "ADD") [js "/f"] (KCreate this r), r).

Definition deleteValue (st : state) (this : addr) (key : jsstring) : state * nat :=
  let '(st, r) := new_result st in
  (runCommand st this (js "DELETE") (argName key ++ [js "/f"])
     (KDeleteValue this key r), r).

Definition setValue (st : state) (this : addr) (key : jsstring) (v : Data)
  : state * nat :=
  let '(st, r) := new_result st in
  (runCommand st this (js "ADD") (argName key ++ argData v ++ [js "/f"])
     (KSetValue this key v r), r).

Definition setValueString (st : state) (this : addr) (key : jsstring)
    (type : Type_) (v : jsstring) : state * nat :=
  match parse type v with
  | Ret d => setValue st this key d
  | Throw e => let '(st, r) := new_result st in (resolve r (Rejected e) st, r)
  end.

Definition export_ (st : state) (this : addr) (file : jsstring) : state * nat :=
  let '(st, r) := new_result st in
  (runCommand st this (js "EXPORT") [file; js "/y"] (KBool r), r).

(** ** [getRawKey] *)

(** The optional host prefix: two backslashes, the host, a backslash. *)
Definition split_host (key : jsstring) : jsstring * jsstring :=
  if startsWith key (js "\\") then
    let i := indexOf key bslash 2 in
    (substring key 2 i, substring_from key (i + 1))
  else ([], key).

(** The hive, long or short; a short name is replaced by the long one. *)
Definition find_hive (key : jsstring) : res (nat * jsstring) :=
  let i := indexOf key bslash 0 in
  let i := if (i =? -1)%Z then Z.of_nat (length key) else i in
  match array_indexOf HIVES_LONG (substring key 0 i) 0 with
  | Some h => Ret (h, key)
  | None =>
      match array_indexOf HIVES_SHORT (substring key 0 i) 0 with
      | Some h => Ret (h, default [] (HIVES_LONG !! h) ++ substring_from key i)
      | None => Throw (Error (js "illegal hive specified."))
      end
  end.

(** [hosts[host]], created when absent, in the partition chosen. *)
Definition host_root (st : state) (is32 : bool) (host : jsstring) : state * addr :=
  match (if is32 then hosts32 st else hosts64 st) !! host with
  | Some p => (st, p)
  | None =>
      let p := length (nodes st) in
      (mkState (nodes st ++ [new_KeyImp host None])
         (if is32 then <[host := p]> (hosts32 st) else hosts32 st)
         (if is32 then hosts64 st else <[host := p]> (hosts64 st))
         (items st) (results st) (procs st), p)
  end.

Definition view_is_illegal (view : option jsstring) : bool :=
  match view with
  | Some ((_ :: _) as v) =>
      negb (bool_decide (v = js "32")) && negb (bool_decide (v = js "64"))
  | _ => false
  end.

Definition getRawKey (st : state) (key : jsstring) (view : option jsstring)
  : res (state * addr) :=
  let '(host, key) := split_host key in
  '(hive_index, key) ← find_hive key;
  if (match host with [] => false | _ => true end) && (2 <=? hive_index)%nat
  then Throw (Error (js "For remote access the root key must be HKLM or HKU"))
  else if negb (test KEY_PATTERN key)
  then Throw (Error (js "illegal key specified."))
  else if view_is_illegal view
  then Throw (Error (js "illegal view specified (use 32 or 64)"))
  else
    let '(st, p) := host_root st (bool_decide (view = Some (js "32"))) host in
    Ret (subkey st p key).

(** ** [importreg] *)

Definition importreg (st : state) (file : jsstring) (view : option jsstring)
    (dirty : option (list addr)) : state * nat :=
  let '(st, r) := new_result st in
  let args := [js "IMPORT"; file]
              ++ match view with
                 | Some ((_ :: _) as v) => [js "/reg:" ++ v]
                 | _ => []
                 end in
  (spawn regExec args (KImport view dirty r) st, r).

(** [parents.add(parent)] on a [Set], which keeps insertion order. *)
Definition set_add (p : addr) (parents : list addr) : list addr :=
  if bool_decide (p ∈ parents) then parents else parents ++ [p].

(** The loop over [dirty]; reading [_keys] of an absent parent raises
    [TypeError] and leaves the nodes as mutated so far. *)
Fixpoint detach_dirty (ns : list KeyImp) (dirty : list addr) (parents : list addr)
  : list KeyImp * res (list addr) :=
  match dirty with
  | [] => (ns, Ret parents)
  | i :: rest =>
      match parent (ns !!! i) with
      | Some p =>
          detach_dirty (alter (set_keys (delete (name (ns !!! i)))) p ns) rest
            (set_add p parents)
      | None => (ns, Throw TypeError)
      end
  end.

Definition import_done (view : option jsstring) (dirty : option (list addr))
    (r : nat) (st : state) : state :=
  match dirty with
  | Some ds =>
      let '(ns, ps) := detach_dirty (nodes st) ds [] in
      let st := with_nodes (fun _ => ns) st in
      match ps with
      | Ret parents =>
          let st := fold_left (fun st p => (reread st p).1) parents st in
          resolve r (Fulfilled (VBool true)) st
      | Throw e => resolve r (Rejected e) st
      end
  | None =>
      let st :=
        if bool_decide (view = Some (js "32"))
        then mkState (nodes st) ∅ (hosts64 st) (items st) (results st) (procs st)
        else mkState (nodes st) (hosts32 st) ∅ (items st) (results st) (procs st) in
      resolve r (Fulfilled (VBool true)) st
  end.

(** ** Processes closing *)

(** The [close] handler of [Process]: a launch error or a non-zero exit
    code rejects with a [RegError], anything else resolves. *)
Definition Process_close (p : Process) (error : option jsstring)
    (code : option Z) (stdout stderr : jsstring) : res jsstring :=
  match error with
  | Some message => Throw (RegError message (-1))
  | None =>
      match code with
      | Some c =>
          if (c =? 0)%Z then Ret stdout
          else Throw (RegError
                        (p_exec p ++ js " " ++ join (js " ") (p_args p)
                         ++ js " command exited with code " ++ Z_toString 10 c
                         ++ js ":" ++ [10] ++ trim stdout ++ [10] ++ trim stderr) c)
      | None => Ret stdout
      end
  end.

Definition close_process (p : Process) : Process :=
  mkProcess (p_exec p) (p_args p) (p_then p) true.

Definition is_ret {A : Type} (o : res A) : bool :=
  match o with Ret _ => true | Throw _ => false end.

(** The two callbacks of the [then] each operation chains on its
    process. *)
Definition continue (k : continuation) (o : res jsstring) (st : state) : state :=
  match k with
  | KReread this p =>
      match o with
      | Ret stdout =>
          let '(ns, r) := reread_done this stdout (nodes st) in
          settle p r (with_nodes (fun _ => ns) st)
      | Throw e => settle p (Throw e) st
      end
  | KBool r => resolve r (Fulfilled (VBool (is_ret o))) st
  | KDestroy this r =>
      match o with
      | Ret _ =>
          let detach ns :=
            match parent (ns !!! this) with
            | Some p => alter (set_keys (delete (name (ns !!! this)))) p ns
            | None => ns
            end in
          resolve r (Fulfilled (VBool true)) (with_nodes detach st)
      | Throw _ => resolve r (Fulfilled (VBool false)) st
      end
  | KCreate this r =>
      resolve r (Fulfilled (if is_ret o then VKey this else VUndefined)) st
  | KDeleteValue this key r =>
      match o with
      | Ret _ =>
          match _items (nodes st !!! this) with
          | Some p => then_ p (OnDeleteValue key r) st
          | None => resolve r (Fulfilled (VBool true)) st
          end
      | Throw _ => resolve r (Fulfilled (VBool false)) st
      end
  | KSetValue this key v r =>
      match o with
      | Ret _ =>
          match _items (nodes st !!! this) with
          | Some p => then_ p (OnSetValue key v r) st
          | None => resolve r (Fulfilled (VBool true)) st
          end
      | Throw _ => resolve r (Fulfilled (VBool false)) st
      end
  | KImport view dirty r =>
      match o with
      | Ret _ => import_done view dirty r st
      | Throw _ => resolve r (Fulfilled (VBool false)) st
      end
  end.

(** Process [i] closes. *)
Definition close (st : state) (i : nat) (error : option jsstring)
    (code : option Z) (stdout stderr : jsstring) : state :=
  match procs st !! i with
  | Some p =>
      if p_closed p then st
      else continue (p_then p) (Process_close p error code stdout stderr)
             (with_procs (alter close_process i) st)
  | None => st
  end.

(** ** Runs of the module: calls of its interface and closing processes *)

Inductive event : Type :=
| EgetRawKey (key : jsstring) (view : option jsstring)
| Esubkey (this : addr) (key : jsstring)
| Eread (this : addr)
| Ereread (this : addr)
| Eexists (this : addr)
| Eclear (this : addr)
| Edestroy (this : addr)
| Ecreate (this : addr)
| EdeleteValue (this : addr) (key : jsstring)
| EsetValue (this : addr) (key : jsstring) (v : Data)
| EsetValueString (this : addr) (key : jsstring) (type : Type_) (v : jsstring)
| Eexport (this : addr) (file : jsstring)
| Eimportreg (file : jsstring) (view : option jsstring) (dirty : option (list addr))
| Eclose (i : nat) (error : option jsstring) (code : option Z)
         (stdout stderr : jsstring).

Definition step (st : state) (e : event) : state :=
  match e with
  | EgetRawKey key view =>
      match getRawKey st key view with
      | Ret (st', _) => st'
      | Throw _ => st
      end
  | Esubkey this key => (subkey st this key).1
  | Eread this => (read st this).1
  | Ereread this => (reread st this).1
  | Eexists this => (exists_ st this).1
  | Eclear this => (clear st this).1
  | Edestroy this => (destroy st this).1
  | Ecreate this => (create st this).1
  | EdeleteValue this key => (deleteValue st this key).1
  | EsetValue this key v => (setValue st this key v).1
  | EsetValueString this key type v => (setValueString st this key type v).1
  | Eexport this file => (export_ st this file).1
  | Eimportreg file view dirty => (importreg st file view dirty).1
  | Eclose i error code stdout stderr => close st i error code stdout stderr
  end.

Definition run (st : state) (es : list event) : state := fold_left step es st.

End Registry.

(** ** Properties of the store *)

Local Open Scope nat_scope.

(** [ancestor ns b a]: [b] is reached from [a] by following [parent]. *)
Inductive ancestor (ns : list KeyImp) : addr -> addr -> Prop :=
| ancestor_parent a n p :
    ns !! a = Some n -> parent n = Some p -> ancestor ns p a
| ancestor_up a n p b :
    ns !! a = Some n -> parent n = Some p -> ancestor ns b p -> ancestor ns b a.

(** The existence flag of node [a] is [true]. *)
Definition confirmed (ns : list KeyImp) (a : addr) : Prop :=
  exists n, ns !! a = Some n /\ found n = true.

Definition is_root (ns : list KeyImp) (a : addr) : Prop :=
  exists n, ns !! a = Some n /\ parent n = None.

Definition has_parent (ns : list KeyImp) (a : addr) : Prop :=
  exists n, ns !! a = Some n /\ is_Some (parent n).

(** [c] is the entry under [k] in the child mapping of [q]. *)
Definition attached (ns : list KeyImp) (q : addr) (k : jsstring) (c : addr)
  : Prop :=
  exists n, ns !! q = Some n /\ _keys n !! k = Some c.

(** Parents are older than their children, and a child entry points to a
    node that carries the entry's name and points back. *)
Definition tree_ok (ns : list KeyImp) : Prop :=
  (forall a n p, ns !! a = Some n -> parent n = Some p -> p < a)
  /\ (forall a n k c, ns !! a = Some n -> _keys n !! k = Some c ->
        exists cn, ns !! c = Some cn /\ parent cn = Some a /\ name cn = k).

Definition roots_unfound (ns : list KeyImp) : Prop :=
  forall a n, ns !! a = Some n -> parent n = None -> found n = false.

(** A confirmed node's parent is confirmed, unless that parent is a root
    or is one of the nodes [but] exempts (the node whose query is being
    processed). *)
Definition upward_but (but : addr -> Prop) (ns : list KeyImp) : Prop :=
  forall a n p pn,
    ns !! a = Some n -> found n = true -> parent n = Some p ->
    ns !! p = Some pn -> is_Some (parent pn) ->
    found pn = true \/ but p.

Definition upward (ns : list KeyImp) : Prop := upward_but (fun _ => False) ns.

(** The two partitions hold roots, named by their host, and share none. *)
Definition hosts_ok (st : state) : Prop :=
  (forall h r, hosts32 st !! h = Some r \/ hosts64 st !! h = Some r ->
     exists n, nodes st !! r = Some n /\ parent n = None /\ name n = h)
  /\ (forall h h' r, hosts32 st !! h = Some r -> hosts64 st !! h' = Some r -> False).

(** The node a pending query belongs to exists. *)
Definition procs_ok (st : state) : Prop :=
  forall i p this q,
    procs st !! i = Some p -> p_then p = KReread this q ->
    this < length (nodes st).

(** The promise that the process of an operation settles when it closes. *)
Definition result_of (k : continuation) : option nat :=
  match k with
  | KReread _ _ => None
  | KBool r | KDestroy _ r | KCreate _ r | KDeleteValue _ _ r
  | KSetValue _ _ _ r | KImport _ _ r => Some r
  end.

(** The promise of every operation that was started exists. *)
Definition results_ok (st : state) : Prop :=
  forall i p r, procs st !! i = Some p -> result_of (p_then p) = Some r ->
                r < length (results st).

Definition store_ok (st : state) : Prop :=
  tree_ok (nodes st) /\ roots_unfound (nodes st) /\ hosts_ok st /\ procs_ok st.

(** [ns'] keeps every node of [ns] with its name, its parent, and its
    existence flag if set. *)
Definition extends (ns ns' : list KeyImp) : Prop :=
  forall a n, ns !! a = Some n ->
    exists n', ns' !! a = Some n' /\ name n' = name n /\ parent n' = parent n
               /\ (found n = true -> found n' = true).

(** An event names nodes that exist. *)
Definition event_ok (st : state) (e : event) : Prop :=
  match e with
  | Esubkey this _ | Eread this | Ereread this | Eexists this | Eclear this
  | Edestroy this | Ecreate this | EdeleteValue this _ | EsetValue this _ _
  | EsetValueString this _ _ _ | Eexport this _ => this < length (nodes st)
  | _ => True
  end.

(** The event is the successful end of a query whose callback raises an
    exception while it reads the output. *)
Definition callback_throws (env : Env) (st : state) (e : event) : bool :=
  match e with
  | Eclose i error code stdout stderr =>
      match procs st !! i with
      | Some p =>
          negb (p_closed p)
          && match p_then p, Process_close p error code stdout stderr with
             | KReread this _, Ret out =>
                 negb (is_ret (reread_done env this out (nodes st)).2)
             | _, _ => false
             end
      | None => false
      end
  | _ => false
  end.

(** The states the module reaches from its initial state by events that
    satisfy [ok]. *)
Inductive reaches (env : Env) (ok : state -> event -> Prop) : state -> Prop :=
| reaches_initial : reaches env ok initial
| reaches_step st e :
    reaches env ok st -> ok st e -> reaches env ok (step env st e).

Definition reachable (env : Env) : state -> Prop := reaches env event_ok.

(** Reachable without any callback of [reread] raising an exception. *)
Definition reachable_quiet (env : Env) : state -> Prop :=
  reaches env (fun st e => event_ok st e /\ callback_throws env st e = false).

(** The claim of the specification on existence: every ancestor of a
    confirmed node, the root included, is confirmed. *)
Definition spec_existence_upward (ns : list KeyImp) : Prop :=
  forall a b, confirmed ns a -> ancestor ns b a -> confirmed ns b.

(** ** Auxiliary notions of the proofs *)

(** The UTF-16LE bytes of a string. *)
Definition utf16le (s : jsstring) : list byte :=
  flat_map (fun c => le_bytes 2 (c mod 65536)%N) s.

(** The elements a string leaves in a [Uint16Array]. *)
Definition units (s : jsstring) : list N := map (fun c => (c mod 65536)%N) s.

(** The sum the two [reduce] calls compute. *)
Definition total (l : list jsstring) : nat :=
  fold_left (fun acc i => acc + length i + 1) l 0.

(** Two continuations that agree further on in the input from [i]. *)
Definition onward {X : Type} (i : nat) (s : jsstring) (k1 k2 : Continuation X)
  : Prop :=
  forall i' s' c', length s' <= length s -> i' + length s' = i + length s ->
                   k1 i' s' c' = k2 i' s' c'.

(** A matcher that calls its continuation further on in the input only. *)
Definition matcher_local {X : Type} (m : Matcher X) : Prop :=
  forall i s c k1 k2, onward i s k1 k2 -> m i s c k1 = m i s c k2.

(** The capture of the tag (group 4), when set, starts with the
    parenthesis. *)
Definition paren_tag (c : captures) : Prop :=
  forall t, c !! 4 = Some t -> exists r, t = 40%N :: r.

(** Every result a matcher gives from captures that satisfy [paren_tag],
    through continuations that are given such captures, satisfies [R]. *)
Definition paren_matcher {X : Type} (R : X -> Prop) (m : Matcher X) : Prop :=
  forall i s c k,
    paren_tag c ->
    (forall i' s' c', paren_tag c' -> forall z, k i' s' c' = Some z -> R z) ->
    forall z, m i s c k = Some z -> R z.

Definition keeps_paren (r : regex) : Prop :=
  forall (X : Type) (R : X -> Prop), paren_matcher R (@rmatch X r).

(** A node update that keeps the name and the parent, adds no child
    entry and never clears the existence flag. *)
Definition keeps (f : KeyImp -> KeyImp) : Prop :=
  forall n, name (f n) = name n /\ parent (f n) = parent n
            /\ (found n = true -> found (f n) = true)
            /\ (forall k c, _keys (f n) !! k = Some c -> _keys n !! k = Some c).

(** A node update that moreover leaves the flag as it is. *)
Definition neutral (f : KeyImp -> KeyImp) : Prop :=
  keeps f /\ forall n, found (f n) = found n.

(** The three properties every operation maintains on the nodes. *)
Definition good (P : addr -> Prop) (ns : list KeyImp) : Prop :=
  tree_ok ns /\ roots_unfound ns /\ upward_but P ns.

(** The invariant of the store, with the exemption [P] on the flags. *)
Definition inv (P : addr -> Prop) (st : state) : Prop :=
  good P (nodes st) /\ hosts_ok st /\ procs_ok st.

(** The part of the store that items and results do not touch. *)
Definition same_tree (st st' : state) : Prop :=
  nodes st' = nodes st /\ hosts32 st' = hosts32 st /\ hosts64 st' = hosts64 st
  /\ procs st' = procs st.

(** An operation keeps the invariant and only extends the nodes. *)
Definition preserved (P : addr -> Prop) (st st' : state) : Prop :=
  inv P st' /\ extends (nodes st) (nodes st').

(** [detached ns ds a k]: a listed node has parent [a] and name [k]. *)
Definition detached (ns : list KeyImp) (ds : list addr) (a : addr) (k : jsstring)
  : Prop :=
  exists d, d ∈ ds /\ parent (ns !!! d) = Some a /\ name (ns !!! d) = k.

(** Two node lists that differ in child entries only. *)
Definition like (ns0 ns : list KeyImp) : Prop :=
  length ns = length ns0
  /\ forall a, name (ns !!! a) = name (ns0 !!! a)
               /\ parent (ns !!! a) = parent (ns0 !!! a)
               /\ found (ns !!! a) = found (ns0 !!! a)
               /\ _items (ns !!! a) = _items (ns0 !!! a).

(** In [st'], [pr] is a running QUERY of node [q] whose promise is
    pending and memoized in [q]. *)
Definition rereading (st' : state) (q : addr) (pr : Process) : Prop :=
  exists pid,
    p_then pr = KReread q pid /\ p_args pr !! 0 = Some (js "QUERY")
    /\ p_closed pr = false /\ items st' !! pid = Some (Pending, [])
    /\ _items (nodes st' !!! q) = Some pid.

(** Decoding the strict rendering of a value. *)
Definition strict_roundtrip (v : Data) : res (option Data) :=
  s ← data_to_regstring v true; regstring_to_data s.

(** A host for the examples. *)
Definition example_env : Env :=
  mkEnv (js "win32") (Some (js "C:\Windows")) (join [bslash])
        (fun s => number_of (StringToBigInt s)).

(** The output of a query of [HKLM\Software\Test]: the echo of the key,
    one value, and one child key. *)
Definition sample_output : jsstring :=
  js "HKEY_LOCAL_MACHINE\Software\Test" ++ [10%N]
  ++ js "    Flag    REG_DWORD    0x1" ++ [10%N] ++ [10%N]
  ++ js "HKEY_LOCAL_MACHINE\Software\Test\Sub" ++ [10%N].

(** The key is resolved (nodes 0 to 3: the local root, the hive,
    [Software], [Test]), read, and the query succeeds. *)
Definition sample_state : state :=
  step example_env
    (step example_env
       (step example_env initial (EgetRawKey (js "HKLM\Software\Test") None))
       (Eread 3))
    (Eclose 0 None (Some 0%Z) sample_output []).

(** An output on which the callback of [reread] raises: after the
    child key, a string value whose text holds [REG_QWORD]; the item
    pattern, greedy, takes it for a [REG_QWORD] of payload [below], and
    [BigInt] rejects it. *)
Definition throwing_output : jsstring :=
  js "HKEY_LOCAL_MACHINE\Software\Test" ++ [10%N]
  ++ js "HKEY_LOCAL_MACHINE\Software\Test\Sub" ++ [10%N]
  ++ js "    Note    REG_SZ    see REG_QWORD below" ++ [10%N].

Definition throwing_state : state :=
  step example_env
    (step example_env
       (step example_env initial (EgetRawKey (js "HKLM\Software\Test") None))
       (Eread 3))
    (Eclose 0 None (Some 0%Z) throwing_output []).

(** Two sibling keys are resolved (nodes 2 and 3 under the hive, node 1),
    and an [importreg] that lists both is running. *)
Definition import_state : state :=
  step example_env
    (step example_env
       (step example_env initial (EgetRawKey (js "HKLM\A") None))
       (EgetRawKey (js "HKLM\B") None))
    (Eimportreg (js "file.reg") None (Some [2; 3])).

(** A key is resolved (node 2) and its [destroy] is running. *)
Definition destroy_state : state :=
  step example_env
    (step example_env initial (EgetRawKey (js "HKLM\A") None))
    (Edestroy 2).

(** ** Notions of the further properties *)

(** [chain ns r segs q]: the names on the way from below [r] down to [q]. *)
Inductive chain (ns : list KeyImp) (r : addr) : list jsstring -> addr -> Prop :=
| chain_root : chain ns r [] r
| chain_step segs q' q n :
    chain ns r segs q' -> ns !! q = Some n -> parent n = Some q' ->
    chain ns r (segs ++ [name n]) q.

(** The prefix [getRootAndPath] writes for a root named [host], which is
    the prefix [getRawKey] reads a host from: two backslashes, the host,
    a backslash; nothing for the local machine. *)
Definition host_prefix (host : jsstring) : jsstring :=
  match host with
  | [] => []
  | _ => js "\\" ++ host ++ [bslash]
  end.

(** A string whose code units are those of the Basic Multilingual Plane
    outside the surrogates. *)
Definition plain (s : jsstring) : Prop :=
  Forall (fun c => (c < 65536)%N /\ is_lead_surrogate c = false
                   /\ is_trail_surrogate c = false) s.

(** The two hexadecimal digits [bytes_to_hex] writes for a byte. *)
Definition hex2 (b : byte) : jsstring := padStart2 (N_toString 16 (Byte.to_N b)).

(** The parts of the pattern of [regstring_to_data] after [hex]: the
    group of the tag, and the group of the payload up to the end. *)
Definition tag_group : regex :=
  RGrp 4 (RCat [RStr (js "("); RPlus (RSet tag_class); RStr (js ")")]).

Definition payload_tail : regex :=
  RSeq (RGrp 5 (RCat [RStar (RCat [RRep 2 (RSet hex_class); RChr comma]);
                      RRep 2 (RSet hex_class)])) REmp.

(** The node reached from [p] through the child entries named by [segs],
    if they are all there. *)
Fixpoint descend (ns : list KeyImp) (p : addr) (segs : list jsstring) : option addr :=
  match segs with
  | [] => Some p
  | i :: rest =>
      match _keys (ns !!! p) !! i with
      | Some c => descend ns c rest
      | None => None
      end
  end.

(** [ns'] has the nodes of [ns] and new children of [this] only: no
    child entry of [ns] is missing in [ns'], and each new node is a
    confirmed child of [this], entered in [this] under its name. *)
Definition grows_under (this : addr) (ns ns' : list KeyImp) : Prop :=
  length ns <= length ns'
  /\ (forall a k c, _keys (ns !!! a) !! k = Some c -> _keys (ns' !!! a) !! k = Some c)
  /\ (forall a, length ns <= a < length ns' ->
        parent (ns' !!! a) = Some this /\ found (ns' !!! a) = true
        /\ _keys (ns' !!! this) !! name (ns' !!! a) = Some a).

(** Stores of the further examples: the key of [sample_state] resolved; the same with a read running;
    with a [setValue] running after the read has succeeded; with a
    [setValue] that has succeeded while the read is still running; and
    with the key resolved in the view [32] and a wholesale [importreg] in
    that view running. *)
Definition resolved_state : state :=
  step example_env initial (EgetRawKey (js "HKLM\Software\Test") None).

Definition reading_state : state := step example_env resolved_state (Eread 3).

Definition write_state : state :=
  step example_env
    (step example_env reading_state (Eclose 0 None (Some 0%Z) sample_output []))
    (EsetValue 3 (js "k") (DWORD (Num 1))).

Definition pending_write_state : state :=
  step example_env
    (step example_env reading_state (EsetValue 3 (js "k") (DWORD (Num 1))))
    (Eclose 1 None (Some 0%Z) [] []).

Definition wholesale_state : state :=
  step example_env
    (step example_env initial (EgetRawKey (js "HKLM\Software\Test") (Some (js "32"))))
    (Eimportreg (js "file.reg") (Some (js "32")) None).

(** The store of the sample query with one more child of node 3, node 5,
    which the query did not list. *)
Definition unlisted_state : state :=
  step example_env sample_state (Esubkey 3 (js "Other")).

(** The store of the sample query with a [destroy] of node 3 running. *)
Definition destroying_state : state := step example_env sample_state (Edestroy 3).


(** * Proofs *)
(** ** The matcher: the fuel of a quantifier *)

Lemma RepeatMatcher_local {X} (m : Matcher X) gs fuel :
  matcher_local m ->
  forall min max i s c k1 k2, onward i s k1 k2 ->
    RepeatMatcher m gs k1 fuel min max i s c = RepeatMatcher m gs k2 fuel min max i s c.
Proof.
  intros Hm. induction fuel as [|fuel IH]; intros min max i s c k1 k2 Hk; [reflexivity|].
  cbn [RepeatMatcher].
  assert (Hk0 : k1 i s c = k2 i s c) by (apply Hk; lia).
  assert (Hd : forall mx, onward i s
            (fun i' s' c' => if (Nat.eqb min 0 && Nat.eqb i' i)%bool then None
                             else RepeatMatcher m gs k1 fuel (Nat.pred min) mx i' s' c')
            (fun i' s' c' => if (Nat.eqb min 0 && Nat.eqb i' i)%bool then None
                             else RepeatMatcher m gs k2 fuel (Nat.pred min) mx i' s' c')).
  { intros mx i' s' c' Hl Hi. destruct (_ && _)%bool; [reflexivity|]. apply IH.
    intros i2 s2 c2 Hl2 Hi2. apply Hk; lia. }
  destruct max as [[|mx]|]; [exact Hk0| |].
  - rewrite (Hm i s (clear_groups gs c) _ _ (Hd _)). destruct min; [|reflexivity].
    by rewrite Hk0.
  - rewrite (Hm i s (clear_groups gs c) _ _ (Hd _)). destruct min; [|reflexivity].
    by rewrite Hk0.
Qed.

Lemma rmatch_local {X} (r : regex) : matcher_local (@rmatch X r).
Proof.
  induction r as [|a|p|a IHa b IHb|a IHa b IHb|min max a IHa|n a IHa| |];
    intros i s c k1 k2 Hk; cbn [rmatch].
  - apply Hk; lia.
  - destruct s as [|x s']; [reflexivity|]. destruct (x =? a)%N; [|reflexivity].
    apply Hk; simpl; lia.
  - destruct s as [|x s']; [reflexivity|]. destruct (p x); [|reflexivity].
    apply Hk; simpl; lia.
  - apply IHa. intros i' s' c' Hl Hi. apply IHb. intros i2 s2 c2 Hl2 Hi2. apply Hk; lia.
  - rewrite (IHa i s c k1 k2 Hk). by rewrite (IHb i s c k1 k2 Hk).
  - by apply RepeatMatcher_local.
  - apply IHa. intros i' s' c' Hl Hi. apply Hk; lia.
  - destruct (Nat.eqb i 0); [|reflexivity]. apply Hk; lia.
  - destruct s; [|reflexivity]. apply Hk; lia.
Qed.

Lemma RepeatMatcher_S {X} (m : Matcher X) gs k fuel min max i s c :
  RepeatMatcher m gs k (S fuel) min max i s c
  = match max with
    | Some O => k i s c
    | _ =>
        let d := fun i' s' c' =>
          if (Nat.eqb min 0 && Nat.eqb i' i)%bool then None
          else RepeatMatcher m gs k fuel (Nat.pred min) (Nat.pred <$> max) i' s' c' in
        let c0 := clear_groups gs c in
        match min with
        | S _ => m i s c0 d
        | O => match m i s c0 d with Some z => Some z | None => k i s c end
        end
    end.
Proof. reflexivity. Qed.

Lemma RepeatMatcher_fuel {X} (m : Matcher X) gs k :
  matcher_local m ->
  forall fuel min max i s c,
    min + length s + 1 <= fuel ->
    RepeatMatcher m gs k (S fuel) min max i s c = RepeatMatcher m gs k fuel min max i s c.
Proof.
  intros Hm. induction fuel as [|fuel IH]; intros min max i s c Hf; [lia|].
  rewrite (RepeatMatcher_S m gs k (S fuel) min max i s c),
          (RepeatMatcher_S m gs k fuel min max i s c).
  assert (Hd : forall mx, onward i s
            (fun i' s' c' => if (Nat.eqb min 0 && Nat.eqb i' i)%bool then None
                             else RepeatMatcher m gs k (S fuel) (Nat.pred min) mx i' s' c')
            (fun i' s' c' => if (Nat.eqb min 0 && Nat.eqb i' i)%bool then None
                             else RepeatMatcher m gs k fuel (Nat.pred min) mx i' s' c')).
  { intros mx i' s' c' Hl Hi.
    destruct (Nat.eqb min 0 && Nat.eqb i' i)%bool eqn:He; [reflexivity|].
    apply IH. apply andb_false_iff in He as [He|He].
    - apply Nat.eqb_neq in He. lia.
    - apply Nat.eqb_neq in He. lia. }
  destruct max as [[|mx]|]; [reflexivity| |]; cbv zeta;
    by rewrite (Hm i s (clear_groups gs c) _ _ (Hd _)).
Qed.

(** Whatever fuel is added to what [rmatch] gives a quantifier, the
    result is the same: the bound is never what makes a match fail. *)
Lemma quantifier_fuel_enough {X} min max a extra i s c (k : Continuation X) :
  RepeatMatcher (rmatch a) (groups a) k (extra + (min + length s + 1)) min max i s c
  = rmatch (RQuant min max a) i s c k.
Proof.
  cbn [rmatch]. induction extra as [|extra IH]; [reflexivity|].
  rewrite <- IH. apply RepeatMatcher_fuel; [apply rmatch_local | lia].
Qed.

(** ** The decoder: the capture of the tag *)

Lemma paren_tag_empty : paren_tag ∅.
Proof. intros t H. by rewrite lookup_empty in H. Qed.

Lemma paren_tag_delete n c : paren_tag c -> paren_tag (delete n c).
Proof. intros H t Ht. apply lookup_delete_Some in Ht as [_ Ht]. by apply H. Qed.

Lemma paren_tag_clear gs c : paren_tag c -> paren_tag (clear_groups gs c).
Proof. intros H. induction gs as [|g gs IH]; [exact H|]. by apply paren_tag_delete. Qed.

Lemma paren_tag_insert n t c : n <> 4 -> paren_tag c -> paren_tag (<[n := t]> c).
Proof. intros Hn H t' Ht. rewrite lookup_insert_ne in Ht by exact Hn. by apply H. Qed.

Lemma keeps_paren_emp : keeps_paren REmp.
Proof. intros X R i s c k Hc Hk z Hz. by eapply Hk. Qed.

Lemma keeps_paren_chr a : keeps_paren (RChr a).
Proof.
  intros X R i s c k Hc Hk z. cbn [rmatch]. destruct s as [|x s']; [discriminate|].
  destruct (x =? a)%N; [|discriminate]. by apply Hk.
Qed.

Lemma keeps_paren_set p : keeps_paren (RSet p).
Proof.
  intros X R i s c k Hc Hk z. cbn [rmatch]. destruct s as [|x s']; [discriminate|].
  destruct (p x); [|discriminate]. by apply Hk.
Qed.

Lemma keeps_paren_seq a b : keeps_paren a -> keeps_paren b -> keeps_paren (RSeq a b).
Proof.
  intros Ha Hb X R i s c k Hc Hk z. cbn [rmatch]. apply (Ha X R); [exact Hc|].
  intros i' s' c' Hc'. by apply (Hb X R).
Qed.

Lemma keeps_paren_alt a b : keeps_paren a -> keeps_paren b -> keeps_paren (RAlt a b).
Proof.
  intros Ha Hb X R i s c k Hc Hk z. cbn [rmatch].
  destruct (rmatch a i s c k) as [z'|] eqn:Hz.
  - intros [= <-]. by eapply (Ha X R).
  - by apply (Hb X R).
Qed.

Lemma RepeatMatcher_paren {X : Type} (R : X -> Prop) (m : Matcher X) gs fuel :
  paren_matcher R m ->
  forall min max i s c k,
    paren_tag c ->
    (forall i' s' c', paren_tag c' -> forall z, k i' s' c' = Some z -> R z) ->
    forall z, RepeatMatcher m gs k fuel min max i s c = Some z -> R z.
Proof.
  intros Hm. induction fuel as [|fuel IH]; intros min max i s c k Hc Hk z; [discriminate|].
  rewrite RepeatMatcher_S.
  assert (Hd : forall mx i' s' c', paren_tag c' -> forall z,
             (if (Nat.eqb min 0 && Nat.eqb i' i)%bool then None
              else RepeatMatcher m gs k fuel (Nat.pred min) mx i' s' c') = Some z -> R z).
  { intros mx i' s' c' Hc' z'. destruct (_ && _)%bool; [discriminate|]. by apply IH. }
  pose proof (paren_tag_clear gs c Hc) as Hc0.
  destruct max as [[|mx]|]; [by apply Hk| |]; cbv zeta.
  - destruct min as [|min].
    + destruct (m i s _ _) as [z'|] eqn:Hz; [|by apply Hk].
      intros [= <-]. eapply (Hm i s _ _ Hc0 (Hd _)). exact Hz.
    + apply (Hm i s _ _ Hc0 (Hd _)).
  - destruct min as [|min].
    + destruct (m i s _ _) as [z'|] eqn:Hz; [|by apply Hk].
      intros [= <-]. eapply (Hm i s _ _ Hc0 (Hd _)). exact Hz.
    + apply (Hm i s _ _ Hc0 (Hd _)).
Qed.

Lemma keeps_paren_quant min max a : keeps_paren a -> keeps_paren (RQuant min max a).
Proof.
  intros Ha X R i s c k Hc Hk z. cbn [rmatch]. by apply RepeatMatcher_paren; [apply Ha| |].
Qed.

Lemma keeps_paren_grp n a : n <> 4 -> keeps_paren a -> keeps_paren (RGrp n a).
Proof.
  intros Hn Ha X R i s c k Hc Hk z. cbn [rmatch]. apply (Ha X R); [exact Hc|].
  intros i' s' c' Hc'. apply Hk. by apply paren_tag_insert.
Qed.

Lemma keeps_paren_str s : keeps_paren (RStr s).
Proof.
  induction s as [|a s IH]; [apply keeps_paren_emp|].
  apply keeps_paren_seq; [apply keeps_paren_chr | exact IH].
Qed.

(** The group of the tag: its pattern starts with the parenthesis, which
    the capture keeps. *)
Lemma keeps_paren_tag b : keeps_paren b -> keeps_paren (RGrp 4 (RSeq (RStr (js "(")) b)).
Proof.
  intros Hb X R i s c k Hc Hk z.
  change (RStr (js "(")) with (RSeq (RChr 40) REmp). cbn [rmatch].
  destruct s as [|x s1]; [discriminate|].
  destruct (x =? 40)%N eqn:Hx; [|discriminate]. apply N.eqb_eq in Hx as ->.
  set (k' := fun i' s' c' => k i' s' (<[4 := take (i' - i) (40%N :: s1)]> c')).
  rewrite (rmatch_local b (S i) s1 c k'
             (fun i' s' c' => if S i <=? i' then k' i' s' c' else None)).
  - apply (Hb X R); [exact Hc|]. intros i' s' c' _ z'.
    destruct (S i <=? i') eqn:Hle; [|discriminate]. apply Nat.leb_le in Hle.
    subst k'. cbv beta. apply Hk. intros t Ht. rewrite lookup_insert_eq in Ht.
    injection Ht as <-. destruct (i' - i) as [|n] eqn:Hn; [lia|]. by eexists.
  - intros i' s' c' Hl Hi. destruct (S i <=? i') eqn:Hle; [reflexivity|].
    apply Nat.leb_gt in Hle. lia.
Qed.

Ltac keeps_paren :=
  repeat first
    [ apply keeps_paren_emp | apply keeps_paren_chr | apply keeps_paren_set
    | apply keeps_paren_str
    | apply keeps_paren_seq | apply keeps_paren_alt | apply keeps_paren_quant
    | apply keeps_paren_tag | apply keeps_paren_grp; [discriminate|] ].

Lemma keeps_paren_REGSTRING_PATTERN : keeps_paren REGSTRING_PATTERN.
Proof.
  unfold REGSTRING_PATTERN, ROr, RCat, RStar, RPlus, ROpt, RRep.
  cbn [fold_left foldr]. keeps_paren.
Qed.

Lemma exec_from_paren r i s m :
  keeps_paren r -> exec_from r i s = Some m -> paren_tag (m_caps m).
Proof.
  intros Hr. revert i. induction s as [|x s IH]; intros i; cbn [exec_from].
  - destruct (rmatch r i [] ∅ _) as [m'|] eqn:Hm; [|discriminate]. intros [= <-].
    eapply (Hr _ (fun m => paren_tag (m_caps m))); [apply paren_tag_empty| |exact Hm].
    by intros i' s' c' Hc' z [= <-].
  - destruct (rmatch r i (x :: s) ∅ _) as [m'|] eqn:Hm; [|apply IH]. intros [= <-].
    eapply (Hr _ (fun m => paren_tag (m_caps m))); [apply paren_tag_empty| |exact Hm].
    by intros i' s' c' Hc' z [= <-].
Qed.

Lemma parseInt16_paren t : parseInt16 (40%N :: t) = None.
Proof. reflexivity. Qed.

(** The dispatch on the tag is dead code: whatever the text, the value
    [regstring_to_data] returns is a [SZ], a [DWORD], a [BINARY] or a
    [NONE]. *)
Lemma regstring_to_data_variants value d :
  regstring_to_data value = Ret (Some d) ->
  constructor d = T_SZ \/ constructor d = T_DWORD \/ constructor d = T_BINARY
  \/ constructor d = T_NONE.
Proof.
  unfold regstring_to_data. destruct (exec REGSTRING_PATTERN value) as [m|] eqn:Hm;
    [|discriminate].
  pose proof (exec_from_paren _ _ _ _ keeps_paren_REGSTRING_PATTERN Hm) as Hp.
  destruct (truthy (m_caps m !! 1)); [intros [= <-]; auto|].
  destruct (truthy (m_caps m !! 2)); [intros [= <-]; auto|].
  destruct (m_caps m !! 5) as [m5|]; [|discriminate].
  destruct (m_caps m !! 4) as [m4|] eqn:H4; cbn [truthy negb from_option id];
    [|intros [= <-]; auto].
  destruct (Hp m4 H4) as (t & ->). cbn [truthy negb from_option id]. rewrite parseInt16_paren.
  intros [= <-]. auto.
Qed.

(** ** The codec: strict rendering against the raw encoding *)

Lemma overwrite_app {A : Type} (xs pre mid post : list A) :
  length mid = length xs ->
  overwrite (pre ++ mid ++ post) (length pre) xs = pre ++ xs ++ post.
Proof.
  revert pre mid. induction xs as [|x r IH]; intros pre mid Hlen.
  - destruct mid; [reflexivity | discriminate].
  - destruct mid as [|m mid']; [discriminate|]. simpl in *.
    rewrite insert_app_r_alt by lia. rewrite Nat.sub_diag. simpl.
    replace (S (length pre)) with (length (pre ++ [x])) by (rewrite length_app; simpl; lia).
    replace (pre ++ x :: mid' ++ post) with ((pre ++ [x]) ++ mid' ++ post)
      by (rewrite <- app_assoc; reflexivity).
    rewrite IH by lia. rewrite <- app_assoc. reflexivity.
Qed.

Lemma length_le_bytes w v : length (le_bytes w v) = w.
Proof. revert v. induction w; intros; simpl; [reflexivity | f_equal; apply IHw]. Qed.

Lemma dv_set_app w pre mid post off pos v le :
  length pre = off + pos -> length mid = w ->
  dv_set w (pre ++ mid ++ post) off pos v le
  = Ret (pre ++ (if le then le_bytes w v else rev (le_bytes w v)) ++ post).
Proof.
  intros Hpre Hmid. unfold dv_set.
  rewrite !length_app.
  destruct (Nat.leb_spec (off + pos + w) (length pre + (length mid + length post))); [|lia].
  rewrite <- Hpre. rewrite overwrite_app; [reflexivity|].
  destruct le; rewrite ?length_rev, length_le_bytes; assumption.
Qed.

Lemma length_utf16le s : length (utf16le s) = 2 * length s.
Proof.
  unfold utf16le. induction s as [|c s IH]; [reflexivity|].
  cbn [flat_map]. rewrite length_app, length_le_bytes, IH. simpl. lia.
Qed.

Lemma string_to_bytes_loop_app value pre mid post off i :
  length pre = off + i * 2 -> length mid = 2 * length value ->
  string_to_bytes_loop (pre ++ mid ++ post) off i value
  = Ret (pre ++ utf16le value ++ post).
Proof.
  revert pre mid i. induction value as [|c rest IH]; intros pre mid i Hpre Hmid.
  - destruct mid; [reflexivity | discriminate].
  - destruct mid as [|m0 [|m1 mid']]; [simpl in Hmid; lia .. |].
    cbn [string_to_bytes_loop].
    replace (pre ++ (m0 :: m1 :: mid') ++ post) with (pre ++ [m0; m1] ++ (mid' ++ post))
      by reflexivity.
    rewrite dv_set_app by (try assumption; reflexivity).
    cbn [mbind res_bind].
    replace (pre ++ le_bytes 2 (c mod 65536)%N ++ mid' ++ post)
      with ((pre ++ le_bytes 2 (c mod 65536)%N) ++ mid' ++ post)
      by (rewrite <- app_assoc; reflexivity).
    rewrite IH.
    + unfold utf16le. simpl. rewrite <- !app_assoc. reflexivity.
    + rewrite length_app, length_le_bytes. lia.
    + simpl in Hmid. lia.
Qed.

Lemma string_to_bytes_app value pre mid post :
  length mid = 2 * (length value + 1) ->
  string_to_bytes (pre ++ mid ++ post) (length pre) value
  = Ret (pre ++ (utf16le value ++ [Byte.x00; Byte.x00]) ++ post,
         length pre + (length value + 1) * 2).
Proof.
  intros Hmid. unfold string_to_bytes.
  rewrite !length_app.
  destruct (Nat.ltb_spec (length pre + (length mid + length post)) (length pre)); [lia|].
  assert (Hsplit : mid = take (2 * length value) mid ++ drop (2 * length value) mid)
    by (symmetry; apply take_drop).
  set (m1 := take (2 * length value) mid) in *.
  set (m2 := drop (2 * length value) mid) in *.
  assert (Hm1 : length m1 = 2 * length value) by (subst m1; rewrite length_take; lia).
  assert (Hm2 : length m2 = 2) by (subst m2; rewrite length_drop; lia).
  rewrite Hsplit, <- app_assoc.
  rewrite (string_to_bytes_loop_app value pre m1 (m2 ++ post) (length pre) 0) by lia.
  cbn [mbind res_bind].
  replace (pre ++ utf16le value ++ m2 ++ post)
    with ((pre ++ utf16le value) ++ m2 ++ post) by (rewrite <- app_assoc; reflexivity).
  rewrite dv_set_app by (rewrite ?length_app, ?length_utf16le; lia).
  cbn [mbind res_bind]. rewrite <- !app_assoc. reflexivity.
Qed.

Lemma uint16_bytes_units s : uint16_bytes (units s) = utf16le s.
Proof.
  unfold uint16_bytes, units, utf16le.
  induction s as [|c s IH]; [reflexivity|]. cbn [map flat_map]. rewrite IH. reflexivity.
Qed.

Lemma uint16_bytes_app a b : uint16_bytes (a ++ b) = uint16_bytes a ++ uint16_bytes b.
Proof. unfold uint16_bytes. apply flat_map_app. Qed.

Lemma split_length {A : Type} (l : list A) a b :
  length l = a + b -> exists l1 l2, l = l1 ++ l2 /\ length l1 = a /\ length l2 = b.
Proof.
  intros H. exists (take a l), (drop a l).
  rewrite take_drop, length_take, length_drop. repeat split; lia.
Qed.

Lemma insert_at_end {A : Type} (pre : list A) x y post :
  <[length pre := x]> (pre ++ y :: post) = pre ++ x :: post.
Proof. rewrite insert_app_r_alt by lia. rewrite Nat.sub_diag. reflexivity. Qed.

Lemma fold_total l k :
  fold_left (fun acc (i : jsstring) => acc + length i + 1) l k = k + total l.
Proof.
  unfold total. revert k. induction l as [|i l IH]; intros k; cbn [fold_left]; [lia|].
  rewrite IH, (IH (0 + length i + 1)). lia.
Qed.

Lemma total_cons i l : total (i :: l) = length i + 1 + total l.
Proof. unfold total at 1. cbn [fold_left]. rewrite fold_total. lia. Qed.

Lemma fill16_terminated i pre m1 z rest :
  length m1 = length i ->
  <[length pre + length i := 0%N]> (fill16 (pre ++ m1 ++ z :: rest) (length pre) i)
  = pre ++ units i ++ 0%N :: rest.
Proof.
  intros Hm1. unfold fill16. fold (units i).
  rewrite overwrite_app by (unfold units; rewrite length_map; exact Hm1).
  replace (length pre + length i) with (length (pre ++ units i))
    by (unfold units; rewrite length_app, length_map; reflexivity).
  rewrite app_assoc, insert_at_end, <- app_assoc. reflexivity.
Qed.

Lemma raw_multi_fold l pre mid post :
  length mid = total l ->
  fold_left (fun '(a, acc) (i : jsstring) =>
               let a := fill16 a acc i in
               let a := <[acc + length i := 0%N]> a in
               (a, acc + length i + 1)) l (pre ++ mid ++ post, length pre)
  = (pre ++ concat (map (fun i => units i ++ [0%N]) l) ++ post,
     length pre + total l).
Proof.
  revert pre mid. induction l as [|i l IH]; intros pre mid Hmid.
  - destruct mid; [|discriminate]. simpl. f_equal. unfold total. simpl. lia.
  - rewrite total_cons in Hmid.
    destruct (split_length mid (length i + 1) (total l)) as (mi & mid' & -> & Hmi & Hmid'); [lia|].
    destruct (split_length mi (length i) 1) as (m1 & mz & -> & Hm1 & Hmz); [lia|].
    destruct mz as [|z [|? ?]]; try discriminate.
    cbn [fold_left].
    replace (pre ++ ((m1 ++ [z]) ++ mid') ++ post)
      with (pre ++ m1 ++ z :: (mid' ++ post))
      by (rewrite <- !app_assoc; reflexivity).
    rewrite fill16_terminated by exact Hm1.
    replace (length pre + length i + 1) with (length (pre ++ units i ++ [0%N]))
      by (unfold units; rewrite !length_app, length_map; simpl; lia).
    replace (pre ++ units i ++ 0%N :: mid' ++ post)
      with ((pre ++ units i ++ [0%N]) ++ mid' ++ post)
      by (rewrite <- !app_assoc; reflexivity).
    rewrite IH by exact Hmid'.
    rewrite total_cons. cbn [map concat].
    f_equal.
    + rewrite <- !app_assoc. reflexivity.
    + unfold units. rewrite !length_app, length_map. simpl. lia.
Qed.

Lemma strict_multi_fold l pre mid post :
  length mid = 2 * total l ->
  fold_left (fun st (i : jsstring) => '(b, acc) ← st; string_to_bytes b acc i) l
            (Ret (pre ++ mid ++ post, length pre))
  = Ret (pre ++ concat (map (fun i => utf16le i ++ [Byte.x00; Byte.x00]) l) ++ post,
         length pre + 2 * total l).
Proof.
  revert pre mid. induction l as [|i l IH]; intros pre mid Hmid.
  - destruct mid; [|discriminate]. simpl. do 2 f_equal. unfold total. simpl. lia.
  - rewrite total_cons in Hmid.
    destruct (split_length mid (2 * (length i + 1)) (2 * total l))
      as (mi & mid' & -> & Hmi & Hmid'); [lia|].
    cbn [fold_left mbind res_bind]. rewrite <- app_assoc.
    rewrite string_to_bytes_app by exact Hmi.
    replace (length pre + (length i + 1) * 2)
      with (length (pre ++ utf16le i ++ [Byte.x00; Byte.x00]))
      by (rewrite !length_app, length_utf16le; simpl; lia).
    replace (pre ++ (utf16le i ++ [Byte.x00; Byte.x00]) ++ mid' ++ post)
      with ((pre ++ utf16le i ++ [Byte.x00; Byte.x00]) ++ mid' ++ post)
      by (rewrite <- !app_assoc; reflexivity).
    rewrite IH by exact Hmid'.
    rewrite total_cons. cbn [map concat].
    rewrite !length_app, length_utf16le. simpl.
    do 2 f_equal; [|lia]. rewrite <- !app_assoc. reflexivity.
Qed.

Lemma uint16_bytes_multi l :
  uint16_bytes (concat (map (fun i => units i ++ [0%N]) l))
  = concat (map (fun i => utf16le i ++ [Byte.x00; Byte.x00]) l).
Proof.
  induction l as [|i l IH]; [reflexivity|].
  cbn [map concat]. rewrite !uint16_bytes_app, uint16_bytes_units, IH.
  reflexivity.
Qed.

Lemma strict_expand_sz d :
  data_to_regstring (EXPAND_SZ d) true = spec_strict_format (EXPAND_SZ d).
Proof.
  unfold data_to_regstring, spec_strict_format, raw, new_Uint8Array.
  pose proof (string_to_bytes_app d [] (replicate ((length d + 1) * 2) Byte.x00) [])
    as H. rewrite app_nil_r in H. cbn [app length] in H.
  rewrite H by (rewrite length_replicate; lia). clear H.
  cbn [mbind res_bind]. unfold fill16.
  replace (replicate (length d + 1) 0%N) with ([] ++ replicate (length d) 0%N ++ [0%N])
    by (rewrite replicate_add; reflexivity).
  change 0 with (length (@nil N)) at 1.
  rewrite overwrite_app by (rewrite length_replicate, length_map; reflexivity).
  cbn [app].
  replace (length d) with (length (map (fun c => (c mod 65536)%N) d)) at 1
    by apply length_map.
  rewrite insert_at_end. fold (units d).
  rewrite uint16_bytes_app, uint16_bytes_units, app_nil_r. reflexivity.
Qed.

Lemma strict_multi_sz d :
  data_to_regstring (MULTI_SZ d) true = spec_strict_format (MULTI_SZ d).
Proof.
  unfold data_to_regstring, spec_strict_format, raw, new_Uint8Array.
  rewrite !fold_total.
  pose proof (strict_multi_fold d [] (replicate (2 * total d) Byte.x00)
                [Byte.x00; Byte.x00]) as H.
  cbn [app length] in H.
  replace (replicate ((1 + total d) * 2) Byte.x00)
    with (replicate (2 * total d) Byte.x00 ++ [Byte.x00; Byte.x00])
    by (replace ((1 + total d) * 2) with (2 * total d + 2) by lia;
        rewrite replicate_add; reflexivity).
  rewrite H by (rewrite length_replicate; reflexivity). clear H.
  cbn [mbind res_bind].
  pose proof (raw_multi_fold d [] (replicate (total d) 0%N) [0%N]) as H.
  cbn [app length] in H.
  replace (replicate (0 + total d + 1) 0%N) with (replicate (total d) 0%N ++ [0%N])
    by (replace (0 + total d + 1) with (total d + 1) by lia;
        rewrite replicate_add; reflexivity).
  rewrite H by (rewrite length_replicate; reflexivity). clear H.
  cbn [mbind res_bind].
  rewrite uint16_bytes_app, uint16_bytes_multi.
  set (body := concat _).
  assert (Hlen : 0 + 2 * total d = length body).
  { subst body. clear. induction d as [|i d IH]; [reflexivity|].
    rewrite total_cons. cbn [map concat]. rewrite !length_app, length_utf16le.
    simpl in *. lia. }
  rewrite Hlen.
  rewrite insert_at_end.
  replace (S (length body)) with (length (body ++ [Byte.x00]))
    by (rewrite length_app; simpl; lia).
  replace (body ++ [Byte.x00; Byte.x00]) with ((body ++ [Byte.x00]) ++ [Byte.x00])
    by (rewrite <- app_assoc; reflexivity).
  rewrite insert_at_end. rewrite <- app_assoc. reflexivity.
Qed.

(** ** Node lists: extension *)

Lemma extends_refl ns : extends ns ns.
Proof. intros a n H. exists n. auto. Qed.

Lemma extends_trans ns1 ns2 ns3 :
  extends ns1 ns2 -> extends ns2 ns3 -> extends ns1 ns3.
Proof.
  intros H12 H23 a n Ha.
  destruct (H12 a n Ha) as (n2 & Ha2 & Hn & Hp & Hf).
  destruct (H23 a n2 Ha2) as (n3 & Ha3 & Hn3 & Hp3 & Hf3).
  exists n3. repeat split; try congruence. auto.
Qed.

Lemma extends_length ns ns' : extends ns ns' -> length ns <= length ns'.
Proof.
  intros H. destruct (Nat.le_gt_cases (length ns) (length ns')) as [|Hlt]; [assumption|].
  destruct (lookup_lt_is_Some_2 ns (length ns')) as [n Hn]; [lia|].
  destruct (H _ _ Hn) as (n' & Hn' & _). apply lookup_lt_Some in Hn'. lia.
Qed.

Lemma extends_app ns x : extends ns (ns ++ [x]).
Proof. intros a n H. exists n. split; [by apply lookup_app_l_Some | auto]. Qed.

Lemma extends_alter ns a f :
  (forall n, name (f n) = name n /\ parent (f n) = parent n
             /\ (found n = true -> found (f n) = true)) ->
  extends ns (alter f a ns).
Proof.
  intros Hf b n Hb. destruct (decide (a = b)) as [->|Hne].
  - exists (f n). rewrite list_lookup_alter_eq, Hb. destruct (Hf n) as (? & ? & ?). auto.
  - exists n. rewrite list_lookup_alter_ne by assumption. auto.
Qed.

Lemma extends_keeps ns a f : keeps f -> extends ns (alter f a ns).
Proof. intros Hf. apply extends_alter. intros n. destruct (Hf n) as (? & ? & ? & _). auto. Qed.

Lemma keeps_set_found : keeps set_found.
Proof. intros n. simpl. auto. Qed.

Lemma neutral_set_items p : neutral (set_items p).
Proof. split; intros n; simpl; auto. Qed.

Lemma neutral_set_keys_delete k : neutral (set_keys (delete k)).
Proof.
  split; intros n; simpl; repeat split; auto.
  intros k' c H. apply lookup_delete_Some in H. tauto.
Qed.

Lemma extends_confirmed ns ns' a : extends ns ns' -> confirmed ns a -> confirmed ns' a.
Proof.
  intros H (n & Hn & Hf). destruct (H _ _ Hn) as (n' & ? & _ & _ & Hf').
  exists n'. auto.
Qed.

(** ** Node lists: the tree *)

Lemma tree_ok_alter ns a f : keeps f -> tree_ok ns -> tree_ok (alter f a ns).
Proof.
  intros Hf [Hp Hk]. split.
  - intros b n p Hb Hpar. destruct (decide (a = b)) as [->|Hne].
    + rewrite list_lookup_alter_eq in Hb. destruct (ns !! b) as [m|] eqn:Hm; [|discriminate].
      simpl in Hb. injection Hb as <-. destruct (Hf m) as (_ & Hpm & _).
      rewrite Hpm in Hpar. eauto.
    + rewrite list_lookup_alter_ne in Hb by assumption. eauto.
  - intros b n k c Hb Hkc.
    assert (exists m, ns !! b = Some m /\ _keys m !! k = Some c) as (m & Hm & Hmk).
    { destruct (decide (a = b)) as [->|Hne].
      - rewrite list_lookup_alter_eq in Hb. destruct (ns !! b) as [m|] eqn:Hm; [|discriminate].
        simpl in Hb. injection Hb as <-. destruct (Hf m) as (_ & _ & _ & Hsub). eauto.
      - rewrite list_lookup_alter_ne in Hb by assumption. eauto. }
    destruct (Hk _ _ _ _ Hm Hmk) as (cn & Hc & Hcp & Hcn).
    destruct (decide (a = c)) as [->|Hne].
    + exists (f cn). rewrite list_lookup_alter_eq, Hc. destruct (Hf cn) as (-> & -> & _). auto.
    + exists cn. rewrite list_lookup_alter_ne by assumption. auto.
Qed.

Lemma tree_ok_add_root ns h : tree_ok ns -> tree_ok (ns ++ [new_KeyImp h None]).
Proof.
  intros [Hp Hk]. split.
  - intros a n p Ha Hpar. apply lookup_app_Some in Ha as [Ha|[_ Ha]]; [eauto|].
    apply list_lookup_singleton_Some in Ha as [_ <-]. discriminate.
  - intros a n k c Ha Hkc. apply lookup_app_Some in Ha as [Ha|[_ Ha]].
    + destruct (Hk _ _ _ _ Ha Hkc) as (cn & Hc & ?). exists cn.
      split; [by apply lookup_app_l_Some | assumption].
    + apply list_lookup_singleton_Some in Ha as [_ <-]. simpl in Hkc.
      rewrite lookup_empty in Hkc. discriminate.
Qed.

Lemma tree_ok_add_child ns p k :
  tree_ok ns -> p < length ns ->
  tree_ok (alter (set_keys (<[k := length ns]>)) p (ns ++ [new_KeyImp k (Some p)])).
Proof.
  intros [Hp Hk] Hlt. split.
  - intros a n q Ha Hpar.
    destruct (decide (p = a)) as [->|Hne].
    + rewrite list_lookup_alter_eq, lookup_app_l in Ha by assumption.
      destruct (ns !! a) as [m|] eqn:Hm; [|discriminate]. simpl in Ha. injection Ha as <-.
      simpl in Hpar. eauto.
    + rewrite list_lookup_alter_ne in Ha by assumption.
      apply lookup_app_Some in Ha as [Ha|[Hge Ha]]; [eauto|].
      apply list_lookup_singleton_Some in Ha as [Hz <-]. simpl in Hpar.
      injection Hpar as <-. lia.
  - intros a n k' c Ha Hkc.
    assert (Hnew : (alter (set_keys (<[k := length ns]>)) p (ns ++ [new_KeyImp k (Some p)]))
                     !! length ns = Some (new_KeyImp k (Some p))).
    { rewrite list_lookup_alter_ne by lia. rewrite lookup_app_r by lia.
      rewrite Nat.sub_diag. reflexivity. }
    destruct (decide (p = a)) as [->|Hne].
    + rewrite list_lookup_alter_eq, lookup_app_l in Ha by assumption.
      destruct (ns !! a) as [m|] eqn:Hm; [|discriminate]. simpl in Ha. injection Ha as <-.
      simpl in Hkc. destruct (decide (k = k')) as [->|Hkk].
      * rewrite lookup_insert_eq in Hkc. injection Hkc as <-.
        exists (new_KeyImp k' (Some a)). auto.
      * rewrite lookup_insert_ne in Hkc by assumption.
        destruct (Hk _ _ _ _ Hm Hkc) as (cn & Hc & Hcp & Hcn).
        assert (c <> a) by (pose proof (Hp _ _ _ Hc Hcp); lia).
        exists cn. rewrite list_lookup_alter_ne by congruence.
        split; [by apply lookup_app_l_Some | auto].
    + rewrite list_lookup_alter_ne in Ha by assumption.
      apply lookup_app_Some in Ha as [Ha|[Hge Ha]].
      * destruct (Hk _ _ _ _ Ha Hkc) as (cn & Hc & Hcp & Hcn).
        destruct (decide (p = c)) as [->|Hpc].
        -- exists (set_keys (<[k := length ns]>) cn).
           rewrite list_lookup_alter_eq, lookup_app_l by assumption. rewrite Hc. auto.
        -- exists cn. rewrite list_lookup_alter_ne by assumption.
           split; [by apply lookup_app_l_Some | auto].
      * apply list_lookup_singleton_Some in Ha as [_ <-]. simpl in Hkc.
        rewrite lookup_empty in Hkc. discriminate.
Qed.

(** ** Node lists: the existence flag *)

Lemma lookup_total_parent (ns : list KeyImp) a p :
  parent (ns !!! a) = Some p -> ns !! a = Some (ns !!! a).
Proof.
  intros H. destruct (ns !! a) as [n|] eqn:Hn.
  - by rewrite (list_lookup_total_correct _ _ _ Hn).
  - rewrite list_lookup_total_alt, Hn in H. discriminate.
Qed.

Lemma lookup_total_found (ns : list KeyImp) a :
  found (ns !!! a) = true -> ns !! a = Some (ns !!! a).
Proof.
  intros H. destruct (ns !! a) as [n|] eqn:Hn.
  - by rewrite (list_lookup_total_correct _ _ _ Hn).
  - rewrite list_lookup_total_alt, Hn in H. discriminate.
Qed.

Lemma lookup_total_keys (ns : list KeyImp) a k c :
  _keys (ns !!! a) !! k = Some c -> ns !! a = Some (ns !!! a).
Proof.
  intros H. destruct (ns !! a) as [n|] eqn:Hn.
  - by rewrite (list_lookup_total_correct _ _ _ Hn).
  - rewrite list_lookup_total_alt, Hn in H. simpl in H.
    rewrite lookup_empty in H. discriminate.
Qed.

Lemma lookup_alter_Some {A : Type} (ns : list A) f a b n :
  alter f a ns !! b = Some n ->
  exists m, ns !! b = Some m /\ n = (if decide (a = b) then f m else m).
Proof.
  intros H. destruct (decide (a = b)) as [->|Hne].
  - rewrite list_lookup_alter_eq in H. destruct (ns !! b) as [m|]; [|discriminate].
    injection H as <-. eauto.
  - rewrite list_lookup_alter_ne in H by assumption. eauto.
Qed.

Lemma roots_unfound_app ns x :
  (parent x = None -> found x = false) ->
  roots_unfound ns -> roots_unfound (ns ++ [x]).
Proof.
  intros Hx H a n Ha Hp. apply lookup_app_Some in Ha as [Ha|[_ Ha]]; [eauto|].
  apply list_lookup_singleton_Some in Ha as [_ <-]. auto.
Qed.

Lemma roots_unfound_alter ns a f :
  (forall n, ns !! a = Some n ->
             parent (f n) = parent n /\ (parent n = None -> found (f n) = found n)) ->
  roots_unfound ns -> roots_unfound (alter f a ns).
Proof.
  intros Hf H b n Hb Hp. apply lookup_alter_Some in Hb as (m & Hm & ->).
  destruct (decide (a = b)) as [->|_]; [|eauto].
  destruct (Hf m Hm) as [Hpar Hfo]. rewrite Hpar in Hp. rewrite Hfo by assumption. eauto.
Qed.

Lemma roots_unfound_found ns c :
  is_Some (parent (ns !!! c)) ->
  roots_unfound ns -> roots_unfound (alter set_found c ns).
Proof.
  intros [p Hp]. apply roots_unfound_alter. intros n Hn.
  rewrite (list_lookup_total_correct _ _ _ Hn) in Hp. split; [reflexivity|]. congruence.
Qed.

Lemma upward_app b ns x :
  tree_ok ns -> found x = false -> upward_but b ns -> upward_but b (ns ++ [x]).
Proof.
  intros [Hp _] Hx H a n p pn Ha Hf Hpar Hpn Hpp.
  apply lookup_app_Some in Ha as [Ha|[_ Ha]].
  - pose proof (Hp _ _ _ Ha Hpar) as Hlt. pose proof (lookup_lt_Some _ _ _ Ha).
    rewrite lookup_app_l in Hpn by lia. eauto.
  - apply list_lookup_singleton_Some in Ha as [_ <-]. congruence.
Qed.

Lemma upward_alter b ns a f :
  (forall n, parent (f n) = parent n /\ found (f n) = found n) ->
  upward_but b ns -> upward_but b (alter f a ns).
Proof.
  intros Hf H c n p pn Hc Hfo Hpar Hpn Hpp.
  apply lookup_alter_Some in Hc as (m & Hm & ->).
  apply lookup_alter_Some in Hpn as (pm & Hpm & ->).
  assert (Hfm : found m = true).
  { destruct (decide (a = c)); [|assumption]. destruct (Hf m) as [_ <-]. assumption. }
  assert (Hparm : parent m = Some p).
  { destruct (decide (a = c)); [|assumption]. destruct (Hf m) as [<- _]. assumption. }
  assert (Hpm' : is_Some (parent pm)).
  { destruct (decide (a = p)); [|assumption]. destruct (Hf pm) as [<- _]. assumption. }
  destruct (H _ _ _ _ Hm Hfm Hparm Hpm Hpm') as [Hfound|?]; [left|by right].
  destruct (decide (a = p)); [|assumption]. destruct (Hf pm) as [_ ->]. assumption.
Qed.

(** Marking a child of an exempted node. *)
Lemma upward_found_child (P : addr -> Prop) this ns c :
  parent (ns !!! c) = Some this -> P this ->
  upward_but P ns -> upward_but P (alter set_found c ns).
Proof.
  intros Hc HP H a n p pn Ha Hfo Hpar Hpn Hpp.
  apply lookup_alter_Some in Ha as (m & Hm & ->).
  apply lookup_alter_Some in Hpn as (pm & Hpm & ->).
  destruct (decide (c = p)) as [->|Hcp]; [by left|].
  destruct (decide (c = a)) as [->|Hca].
  - right. rewrite (list_lookup_total_correct _ _ _ Hm) in Hc. simpl in Hpar. congruence.
  - eauto.
Qed.

(** One turn of the closing loop of [reread]. *)
Lemma upward_mark_step (P Q : addr -> Prop) ns p pp :
  parent (ns !!! p) = Some pp ->
  (forall q, P q -> q = p \/ Q q) ->
  upward_but P ns -> upward_but (fun q => q = pp \/ Q q) (alter set_found p ns).
Proof.
  intros Hp HPQ H a n q qn Ha Hfo Hpar Hq Hqp.
  apply lookup_alter_Some in Ha as (m & Hm & ->).
  apply lookup_alter_Some in Hq as (qm & Hqm & ->).
  destruct (decide (p = q)) as [->|Hpq]; [by left|].
  destruct (decide (p = a)) as [->|Hpa].
  - right. left. rewrite (list_lookup_total_correct _ _ _ Hm) in Hp. simpl in Hpar. congruence.
  - destruct (H _ _ _ _ Hm Hfo Hpar Hqm Hqp) as [?|HPq]; [by left|].
    destruct (HPQ _ HPq) as [?|?]; [congruence | right; by right].
Qed.

Lemma upward_but_found (P Q : addr -> Prop) ns p :
  found (ns !!! p) = true \/ parent (ns !!! p) = None ->
  (forall q, P q -> q = p \/ Q q) ->
  upward_but P ns -> upward_but Q ns.
Proof.
  intros Hp HPQ H a n q qn Ha Hfo Hpar Hq Hqp.
  destruct (H _ _ _ _ Ha Hfo Hpar Hq Hqp) as [?|HPq]; [by left|].
  destruct (HPQ _ HPq) as [->|?]; [|by right].
  rewrite (list_lookup_total_correct _ _ _ Hq) in Hp.
  destruct Hp as [?|Hnone]; [by left|]. rewrite Hnone in Hqp. by destruct Hqp.
Qed.

Lemma upward_but_mono (P Q : addr -> Prop) ns :
  (forall q, P q -> Q q) -> upward_but P ns -> upward_but Q ns.
Proof.
  intros HPQ H a n q qn Ha Hfo Hpar Hq Hqp.
  destruct (H _ _ _ _ Ha Hfo Hpar Hq Hqp) as [?|?]; [by left | right; auto].
Qed.

Lemma good_alter_neutral P ns a f : neutral f -> good P ns -> good P (alter f a ns).
Proof.
  intros [Hk Hf] (Ht & Hr & Hu). split; [|split].
  - by apply tree_ok_alter.
  - apply roots_unfound_alter; [|assumption]. intros n _.
    destruct (Hk n) as (_ & ? & _). split; [assumption|]. intros _. apply Hf.
  - apply upward_alter; [|assumption]. intros n. destruct (Hk n) as (_ & ? & _). auto.
Qed.

Lemma good_add_child P ns p k :
  p < length ns -> good P ns ->
  good P (alter (set_keys (<[k := length ns]>)) p (ns ++ [new_KeyImp k (Some p)])).
Proof.
  intros Hlt (Ht & Hr & Hu). split; [|split].
  - by apply tree_ok_add_child.
  - apply roots_unfound_alter; [intros n _; simpl; auto|].
    apply roots_unfound_app; [discriminate | assumption].
  - apply upward_alter; [intros n; simpl; auto|]. by apply upward_app.
Qed.

Lemma good_add_root P ns h : good P ns -> good P (ns ++ [new_KeyImp h None]).
Proof.
  intros (Ht & Hr & Hu). split; [|split].
  - by apply tree_ok_add_root.
  - apply roots_unfound_app; [reflexivity | assumption].
  - by apply upward_app.
Qed.

Lemma good_found_child (P : addr -> Prop) ns c this :
  parent (ns !!! c) = Some this -> P this ->
  good P ns -> good P (alter set_found c ns).
Proof.
  intros Hc HP (Ht & Hr & Hu). split; [|split].
  - apply tree_ok_alter; [apply keeps_set_found | assumption].
  - apply roots_unfound_found; [rewrite Hc; eauto | assumption].
  - by eapply upward_found_child.
Qed.

Lemma extends_add_child ns p k :
  extends ns (alter (set_keys (<[k := length ns]>)) p (ns ++ [new_KeyImp k (Some p)])).
Proof.
  eapply extends_trans; [apply extends_app|]. apply extends_alter. intros n. simpl. auto.
Qed.

Lemma add_found_key_good (P : addr -> Prop) this key ns :
  this < length ns -> P this -> good P ns ->
  good P (add_found_key ns this key) /\ extends ns (add_found_key ns this key).
Proof.
  intros Hlt HP Hg. unfold add_found_key.
  destruct key as [|k0 key']; [split; [assumption | apply extends_refl]|].
  set (key := k0 :: key'). case_bool_decide; [split; [assumption | apply extends_refl]|].
  destruct (_keys (ns !!! this) !! key) as [c|] eqn:Hc.
  - pose proof (lookup_total_keys _ _ _ _ Hc) as Hthis.
    destruct (proj2 (proj1 Hg) _ _ _ _ Hthis Hc) as (cn & Hcn & Hcp & _).
    assert (Hpc : parent (ns !!! c) = Some this)
      by (rewrite (list_lookup_total_correct _ _ _ Hcn); exact Hcp).
    split; [by eapply good_found_child | apply extends_keeps, keeps_set_found].
  - pose proof (good_add_child P ns this key Hlt Hg) as Hg'.
    set (ns' := alter _ this _) in *.
    assert (Hnew : ns' !! length ns = Some (new_KeyImp key (Some this))).
    { subst ns'. rewrite list_lookup_alter_ne by lia. rewrite lookup_app_r by lia.
      rewrite Nat.sub_diag. reflexivity. }
    assert (Hpc : parent (ns' !!! length ns) = Some this)
      by (rewrite (list_lookup_total_correct _ _ _ Hnew); reflexivity).
    split; [by eapply good_found_child|].
    eapply extends_trans; [apply extends_add_child|].
    apply extends_keeps, keeps_set_found.
Qed.

Lemma mark_found_good (P Q : addr -> Prop) fuel ns p :
  p < fuel -> (forall q, P q -> q = p \/ Q q) -> good P ns ->
  good Q (mark_found fuel ns p) /\ extends ns (mark_found fuel ns p)
  /\ (has_parent ns p -> confirmed (mark_found fuel ns p) p).
Proof.
  revert P ns p. induction fuel as [|f IH]; intros P ns p Hlt HPQ Hg; [lia|].
  cbn [mark_found]. destruct (found (ns !!! p)) eqn:Hfo.
  - destruct Hg as (Ht & Hr & Hu). refine (conj (conj Ht (conj Hr _)) (conj _ _)).
    + eapply upward_but_found; [left; exact Hfo | exact HPQ | exact Hu].
    + apply extends_refl.
    + intros _. exists (ns !!! p). split; [by apply lookup_total_found | assumption].
  - destruct (parent (ns !!! p)) as [pp|] eqn:Hpar.
    + pose proof (lookup_total_parent _ _ _ Hpar) as Hp.
      destruct Hg as (Ht & Hr & Hu).
      pose proof (proj1 Ht _ _ _ Hp Hpar) as Hpp.
      destruct (IH (fun q => q = pp \/ Q q) (alter set_found p ns) pp)
        as (Hg' & He' & _); [lia | auto | |].
      { split; [|split].
        - apply tree_ok_alter; [apply keeps_set_found | assumption].
        - apply roots_unfound_found; [rewrite Hpar; eauto | assumption].
        - by eapply upward_mark_step. }
      split; [assumption|]. split.
      * eapply extends_trans; [apply extends_keeps, keeps_set_found | exact He'].
      * intros _. eapply extends_confirmed; [exact He'|].
        exists (set_found (ns !!! p)). rewrite list_lookup_alter_eq, Hp. auto.
    + destruct Hg as (Ht & Hr & Hu). refine (conj (conj Ht (conj Hr _)) (conj _ _)).
      * eapply upward_but_found; [right; exact Hpar | exact HPQ | exact Hu].
      * apply extends_refl.
      * intros (n & Hn & Hsome). rewrite (list_lookup_total_correct _ _ _ Hn) in Hpar.
        rewrite Hpar in Hsome. by destruct Hsome.
Qed.

Lemma reread_line_good env (P : addr -> Prop) this acc i :
  this < length acc.1 -> P this -> good P acc.1 ->
  good P (reread_line env this acc i).1
  /\ extends acc.1 (reread_line env this acc i).1.
Proof.
  intros Hlt HP Hg. destruct acc as [ns [[its ln]|e]]; simpl in *;
    [|split; [assumption | apply extends_refl]].
  unfold reread_line.
  repeat case_match; simpl;
    try (split; [assumption | apply extends_refl]);
    by apply add_found_key_good.
Qed.

Lemma reread_fold_good env (P : addr -> Prop) this lines acc :
  this < length acc.1 -> P this -> good P acc.1 ->
  good P (fold_left (reread_line env this) lines acc).1
  /\ extends acc.1 (fold_left (reread_line env this) lines acc).1.
Proof.
  revert acc. induction lines as [|i lines IH]; intros acc Hlt HP Hg.
  - split; [assumption | apply extends_refl].
  - cbn [fold_left].
    destruct (reread_line_good env P this acc i Hlt HP Hg) as [Hg1 He1].
    assert (Hlt1 : this < length (reread_line env this acc i).1)
      by (pose proof (extends_length _ _ He1); lia).
    destruct (IH (reread_line env this acc i) Hlt1 HP Hg1) as [Hg2 He2].
    split; [assumption | by eapply extends_trans].
Qed.

(** The callback of [reread] keeps the tree sound; when it returns, the
    flags are closed upward again and the node itself is confirmed. *)
Lemma reread_done_good env (P : addr -> Prop) this stdout ns :
  this < length ns -> good P ns ->
  let ns' := (reread_done env this stdout ns).1 in
  good (fun q => q = this \/ P q) ns' /\ extends ns ns'
  /\ (is_ret (reread_done env this stdout ns).2 = true ->
      good P ns' /\ (has_parent ns this -> confirmed ns' this)).
Proof.
  intros Hlt Hg. unfold reread_done.
  assert (Hg0 : good (fun q => q = this \/ P q) ns).
  { destruct Hg as (? & ? & ?). split; [|split]; try assumption.
    eapply upward_but_mono; [|eassumption]. auto. }
  destruct (reread_fold_good env (fun q => q = this \/ P q) this
              (split stdout [10%N]) (ns, Ret (∅, 0)) Hlt (or_introl eq_refl) Hg0)
    as [Hg1 He1].
  destruct (fold_left _ _ _) as [ns1 [[its ln]|e]]; simpl in *.
  - assert (Hlt1 : this < length ns1) by (pose proof (extends_length _ _ He1); lia).
    destruct (mark_found_good (fun q => q = this \/ P q) P (length ns1) ns1 this
                Hlt1 (fun q H => H) Hg1) as (Hg2 & He2 & Hc2).
    split; [|split].
    + destruct Hg2 as (? & ? & ?). split; [|split]; try assumption.
      eapply upward_but_mono; [|eassumption]. auto.
    + by eapply extends_trans.
    + intros _. split; [assumption|]. intros (n & Hn & Hsome). apply Hc2.
      destruct (He1 _ _ Hn) as (n' & Hn' & _ & Hp' & _). exists n'. rewrite Hp'. auto.
  - split; [assumption|]. split; [assumption | discriminate].
Qed.

Lemma ancestor_trans ns a b c :
  ancestor ns b a -> ancestor ns c b -> ancestor ns c a.
Proof.
  intros Hba Hcb. induction Hba as [a n p Ha Hp | a n p b Ha Hp _ IH].
  - eapply ancestor_up; eassumption.
  - eapply ancestor_up; [eassumption..|]. auto.
Qed.

Lemma subkey_loop_good (P : addr -> Prop) segs ns p :
  p < length ns -> good P ns ->
  let r := subkey_loop ns p segs in
  good P r.1 /\ extends ns r.1 /\ r.2 < length r.1
  /\ (r.2 = p \/ ancestor r.1 p r.2).
Proof.
  revert ns p. induction segs as [|i rest IH]; intros ns p Hlt Hg; cbn [subkey_loop].
  - simpl. split; [assumption|]. split; [apply extends_refl|]. auto.
  - destruct (_keys (ns !!! p) !! i) as [c|] eqn:Hc.
    + pose proof (lookup_total_keys _ _ _ _ Hc) as Hp.
      destruct (proj2 (proj1 Hg) _ _ _ _ Hp Hc) as (cn & Hcn & Hcp & _).
      destruct (IH ns c (lookup_lt_Some _ _ _ Hcn) Hg) as (Hg' & He' & Hlt' & Hanc).
      split; [assumption|]. split; [assumption|]. split; [assumption|]. right.
      destruct (He' _ _ Hcn) as (cn' & Hcn' & _ & Hcp' & _). rewrite Hcp in Hcp'.
      destruct Hanc as [->|Hanc].
      * eapply ancestor_parent; eassumption.
      * eapply ancestor_trans; [exact Hanc|]. eapply ancestor_parent; eassumption.
    + set (ns1 := alter _ p _).
      assert (Hnew : ns1 !! length ns = Some (new_KeyImp i (Some p))).
      { subst ns1. rewrite list_lookup_alter_ne by lia. rewrite lookup_app_r by lia.
        rewrite Nat.sub_diag. reflexivity. }
      destruct (IH ns1 (length ns) (lookup_lt_Some _ _ _ Hnew)
                  (good_add_child P ns p i Hlt Hg)) as (Hg' & He' & Hlt' & Hanc).
      split; [assumption|]. split; [eapply extends_trans; [apply extends_add_child | exact He']|].
      split; [assumption|]. right.
      destruct (He' _ _ Hnew) as (cn' & Hcn' & _ & Hcp' & _). simpl in Hcp'.
      destruct Hanc as [->|Hanc].
      * eapply ancestor_parent; eassumption.
      * eapply ancestor_trans; [exact Hanc|]. eapply ancestor_parent; eassumption.
Qed.

Lemma detach_dirty_good (P : addr -> Prop) dirty ns parents :
  good P ns ->
  let r := detach_dirty ns dirty parents in
  good P r.1 /\ extends ns r.1 /\ length r.1 = length ns.
Proof.
  revert ns parents. induction dirty as [|i rest IH]; intros ns parents Hg;
    cbn [detach_dirty].
  - simpl. split; [assumption|]. split; [apply extends_refl | reflexivity].
  - destruct (parent (ns !!! i)) as [p|].
    + destruct (IH (alter (set_keys (delete (name (ns !!! i)))) p ns) (set_add p parents)
                  (good_alter_neutral P ns p _ (neutral_set_keys_delete _) Hg))
        as (Hg' & He' & Hl').
      split; [assumption|]. split.
      * eapply extends_trans; [apply extends_keeps, neutral_set_keys_delete | exact He'].
      * rewrite Hl'. apply length_alter.
    + simpl. split; [assumption|]. split; [apply extends_refl | reflexivity].
Qed.

(** ** The store *)

Lemma same_tree_refl st : same_tree st st.
Proof. by repeat split. Qed.

Lemma same_tree_trans st1 st2 st3 :
  same_tree st1 st2 -> same_tree st2 st3 -> same_tree st1 st3.
Proof. intros (? & ? & ? & ?) (? & ? & ? & ?). repeat split; congruence. Qed.

Lemma same_tree_resolve r v st : same_tree st (resolve r v st).
Proof. by repeat split. Qed.

Lemma same_tree_with_items f st : same_tree st (with_items f st).
Proof. by repeat split. Qed.

Lemma same_tree_on_fulfilled rx x st : same_tree st (on_fulfilled rx x st).2.
Proof. destruct rx; simpl; by repeat split. Qed.

Lemma same_tree_on_rejected rx e st : same_tree st (on_rejected rx e st).
Proof. destruct rx; simpl; by repeat split. Qed.

Lemma same_tree_then p rx st : same_tree st (then_ p rx st).
Proof.
  unfold then_. destruct (items st !! p) as [[[|x|e] rs]|]; try by repeat split.
  - pose proof (same_tree_on_fulfilled rx x st) as H.
    destruct (on_fulfilled rx x st) as [x' st']. simpl in H.
    eapply same_tree_trans; [exact H | apply same_tree_with_items].
  - apply same_tree_on_rejected.
Qed.

Lemma same_tree_fold_fulfilled st rs x st0 :
  same_tree st st0 ->
  same_tree st (fold_left (fun '(x, st) rx => on_fulfilled rx x st) rs (x, st0)).2.
Proof.
  revert x st0. induction rs as [|rx rs IH]; intros x st0 H0; [exact H0|].
  cbn [fold_left]. pose proof (same_tree_on_fulfilled rx x st0) as H1.
  destruct (on_fulfilled rx x st0) as [x1 st1]. apply IH.
  eapply same_tree_trans; eassumption.
Qed.

Lemma same_tree_fold_rejected st rs e st0 :
  same_tree st st0 ->
  same_tree st (fold_left (fun st rx => on_rejected rx e st) rs st0).
Proof.
  revert st0. induction rs as [|rx rs IH]; intros st0 H0; [exact H0|].
  cbn [fold_left]. apply IH.
  eapply same_tree_trans; [exact H0 | apply same_tree_on_rejected].
Qed.

Lemma same_tree_settle p o st : same_tree st (settle p o st).
Proof.
  unfold settle. destruct (items st !! p) as [[[|x|e] rs]|]; try apply same_tree_refl.
  destruct o as [x|e].
  - pose proof (same_tree_fold_fulfilled st rs x st (same_tree_refl st)) as H.
    destruct (fold_left _ rs (x, st)) as [x' st']. simpl in H.
    eapply same_tree_trans; [exact H | apply same_tree_with_items].
  - eapply same_tree_trans; [|apply same_tree_with_items].
    apply same_tree_fold_rejected, same_tree_refl.
Qed.

Lemma same_tree_new_result st : same_tree st (new_result st).1.
Proof. by repeat split. Qed.

Lemma inv_same P st st' : same_tree st st' -> inv P st -> inv P st'.
Proof.
  intros (Hn & H32 & H64 & Hp) (Hg & [Hh Hd] & Hpr). unfold inv, hosts_ok, procs_ok.
  rewrite Hn, H32, H64, Hp. auto.
Qed.

Lemma hosts_ok_extends st st' :
  extends (nodes st) (nodes st') -> hosts32 st' = hosts32 st ->
  hosts64 st' = hosts64 st -> hosts_ok st -> hosts_ok st'.
Proof.
  intros He H32 H64 [Hh Hd]. unfold hosts_ok. rewrite H32, H64. split; [|exact Hd].
  intros h r Hr. destruct (Hh h r Hr) as (n & Hn & Hp & Hna).
  destruct (He _ _ Hn) as (n' & Hn' & Hna' & Hp' & _). exists n'.
  repeat split; congruence.
Qed.

Lemma inv_with_nodes P f st :
  good P (f (nodes st)) -> extends (nodes st) (f (nodes st)) ->
  inv P st -> inv P (with_nodes f st).
Proof.
  intros Hg He (_ & Hh & Hpr). split; [exact Hg|]. split.
  - by eapply hosts_ok_extends.
  - intros i p this q Hi Hk. simpl in *. pose proof (Hpr i p this q Hi Hk).
    pose proof (extends_length _ _ He). lia.
Qed.

Lemma inv_spawn P exec args k st :
  (forall this q, k = KReread this q -> this < length (nodes st)) ->
  inv P st -> inv P (spawn exec args k st).
Proof.
  intros Hk (Hg & Hh & Hpr). split; [exact Hg|]. split; [exact Hh|].
  intros i p this q Hi Hthen. simpl in *.
  apply lookup_app_Some in Hi as [Hi|[_ Hi]]; [eauto|].
  apply list_lookup_singleton_Some in Hi as [_ <-]. simpl in Hthen. eauto.
Qed.

Lemma nodes_runCommand env st this c args k :
  nodes (runCommand env st this c args k) = nodes st.
Proof. unfold runCommand. destruct (getRootAndPath _ _). by destruct (view_of _ _). Qed.

Lemma inv_runCommand env P st this c args k :
  (forall this q, k = KReread this q -> this < length (nodes st)) ->
  inv P st -> inv P (runCommand env st this c args k).
Proof.
  intros Hk Hi. unfold runCommand. destruct (getRootAndPath _ _).
  destruct (view_of _ _); by apply inv_spawn.
Qed.

Lemma nodes_reread env st this :
  nodes (reread env st this).1 = alter (set_items (length (items st))) this (nodes st).
Proof. unfold reread. simpl. by rewrite nodes_runCommand. Qed.

Lemma inv_reread env P st this :
  this < length (nodes st) -> inv P st -> inv P (reread env st this).1.
Proof.
  intros Hlt Hi. unfold reread. cbn [fst].
  apply inv_with_nodes.
  - simpl. rewrite nodes_runCommand. apply good_alter_neutral;
      [apply neutral_set_items | apply Hi].
  - apply extends_keeps, neutral_set_items.
  - eapply inv_same; [apply same_tree_with_items|].
    apply inv_runCommand; [|exact Hi]. intros ? ? [= <- _]. exact Hlt.
Qed.

Lemma extends_reread env st this :
  extends (nodes st) (nodes (reread env st this).1).
Proof. rewrite nodes_reread. apply extends_keeps, neutral_set_items. Qed.

Lemma preserved_refl P st : inv P st -> preserved P st st.
Proof. intros H. split; [exact H | apply extends_refl]. Qed.

Lemma preserved_trans P st1 st2 st3 :
  preserved P st1 st2 -> preserved P st2 st3 -> preserved P st1 st3.
Proof. intros [_ H12] [H3 H23]. split; [exact H3 | by eapply extends_trans]. Qed.

Lemma preserved_same P st st' : same_tree st st' -> inv P st -> preserved P st st'.
Proof.
  intros Hs Hi. split; [by eapply inv_same|]. destruct Hs as (-> & _). apply extends_refl.
Qed.

Lemma preserved_runCommand env P st this c args k :
  (forall this q, k = KReread this q -> this < length (nodes st)) ->
  inv P st -> preserved P st (runCommand env st this c args k).
Proof.
  intros Hk Hi. split; [by apply inv_runCommand|].
  rewrite nodes_runCommand. apply extends_refl.
Qed.

Lemma preserved_reread env P st this :
  this < length (nodes st) -> inv P st -> preserved P st (reread env st this).1.
Proof. intros. split; [by apply inv_reread | apply extends_reread]. Qed.

Lemma preserved_read env P st this :
  this < length (nodes st) -> inv P st -> preserved P st (read env st this).1.
Proof.
  intros Hlt Hi. unfold read. destruct (_items (nodes st !!! this)).
  - by apply preserved_refl.
  - by apply preserved_reread.
Qed.

(** An operation that allocates its result and runs one command. *)
Lemma preserved_command env P st this c args k :
  (forall this q, k (length (results st)) = KReread this q -> False) ->
  inv P st ->
  preserved P st
    (let '(st, r) := new_result st in (runCommand env st this c args (k r), r)).1.
Proof.
  intros Hk Hi. cbn [new_result fst].
  eapply preserved_trans; [apply (preserved_same P st _ (same_tree_new_result st) Hi)|].
  apply preserved_runCommand; [intros ? ? H; destruct (Hk _ _ H)|].
  eapply inv_same; [apply same_tree_new_result | exact Hi].
Qed.

Lemma preserved_exists env P st this :
  this < length (nodes st) -> inv P st -> preserved P st (exists_ env st this).1.
Proof.
  intros Hlt Hi. unfold exists_. cbn [new_result].
  pose proof (preserved_same P st _ (same_tree_new_result st) Hi) as H0.
  set (st0 := with_results _ st) in *. cbn [new_result fst] in H0.
  destruct (found (nodes st0 !!! this)).
  { eapply preserved_trans; [exact H0|]. apply preserved_same;
      [apply same_tree_resolve | apply H0]. }
  destruct (match parent (nodes st0 !!! this) with
            | Some p => found (nodes st0 !!! p) | None => false end).
  { eapply preserved_trans; [exact H0|]. apply preserved_same;
      [apply same_tree_resolve | apply H0]. }
  pose proof (preserved_read env P st0 this Hlt (proj1 H0)) as H1.
  destruct (read env st0 this) as [st1 p]. cbn [fst] in *.
  eapply preserved_trans; [exact H0|]. eapply preserved_trans; [exact H1|].
  apply preserved_same; [apply same_tree_then | apply H1].
Qed.

Lemma preserved_clear env P st this :
  inv P st -> preserved P st (clear env st this).1.
Proof.
  intros Hi. unfold clear.
  set (st0 := match _items (nodes st !!! this) with
              | Some p => then_ p OnClear st | None => st end).
  assert (H0 : same_tree st st0).
  { subst st0. destruct (_items _); [apply same_tree_then | apply same_tree_refl]. }
  eapply preserved_trans; [apply (preserved_same P st st0 H0 Hi)|].
  apply (preserved_command env P st0 this _ _ KBool); [discriminate|].
  by eapply inv_same.
Qed.

Lemma preserved_setValue env P st this key v :
  inv P st -> preserved P st (setValue env st this key v).1.
Proof.
  intros Hi. apply (preserved_command env P st this _ _ (KSetValue this key v));
    [discriminate | exact Hi].
Qed.

Lemma preserved_subkey P st this key :
  this < length (nodes st) -> inv P st -> preserved P st (subkey st this key).1.
Proof.
  intros Hlt Hi. unfold subkey.
  destruct (subkey_loop_good P (split key [bslash]) (nodes st) this Hlt (proj1 Hi))
    as (Hg & He & _).
  destruct (subkey_loop _ _ _) as [ns p]. cbn [fst] in *. split; [|exact He].
  by apply (inv_with_nodes P (fun _ => ns) st).
Qed.

Lemma subkey_valid P st this key :
  this < length (nodes st) -> inv P st ->
  (subkey st this key).2 < length (nodes (subkey st this key).1).
Proof.
  intros Hlt Hi. unfold subkey.
  destruct (subkey_loop_good P (split key [bslash]) (nodes st) this Hlt (proj1 Hi))
    as (_ & _ & Hv & _).
  destruct (subkey_loop _ _ _) as [ns p]. exact Hv.
Qed.

Lemma host_root_preserved P st is32 host :
  inv P st ->
  let r := host_root st is32 host in
  preserved P st r.1 /\ is_root (nodes r.1) r.2
  /\ (if is32 then hosts32 r.1 else hosts64 r.1) !! host = Some r.2
  /\ (if is32 then hosts64 r.1 = hosts64 st else hosts32 r.1 = hosts32 st).
Proof.
  intros Hi. unfold host_root.
  destruct ((if is32 then hosts32 st else hosts64 st) !! host) as [p|] eqn:Hp.
  - cbn [fst snd]. split; [by apply preserved_refl|]. split.
    + destruct Hi as (_ & [Hh _] & _).
      destruct (Hh host p) as (n & Hn & Hpar & _); [destruct is32; auto|]. by exists n.
    + split; [exact Hp | by destruct is32].
  - cbn [fst snd]. destruct Hi as (Hg & [Hh Hd] & Hpr).
    assert (Hnew : (nodes st ++ [new_KeyImp host None]) !! length (nodes st)
                   = Some (new_KeyImp host None)).
    { rewrite lookup_app_r by lia. by rewrite Nat.sub_diag. }
    assert (Hold : forall h r, hosts32 st !! h = Some r \/ hosts64 st !! h = Some r ->
                     r < length (nodes st)).
    { intros h r Hr. destruct (Hh h r Hr) as (n & Hn & _). by eapply lookup_lt_Some. }
    split; [split|].
    + split; [by apply good_add_root|]. split; [split|].
      * simpl. intros h r Hr.
        assert (Hcase : (h = host /\ r = length (nodes st))
                        \/ (hosts32 st !! h = Some r \/ hosts64 st !! h = Some r)).
        { destruct is32, Hr as [Hr|Hr]; auto;
            apply lookup_insert_Some in Hr as [[-> <-]|[_ Hr]]; auto. }
        destruct Hcase as [[-> ->]|Hr'].
        -- exists (new_KeyImp host None). auto.
        -- destruct (Hh h r Hr') as (n & Hn & ?). exists n.
           split; [by apply lookup_app_l_Some | assumption].
      * simpl. intros h h' r H32 H64. destruct is32.
        -- apply lookup_insert_Some in H32 as [[-> <-]|[_ H32]]; [|eauto].
           pose proof (Hold h' _ (or_intror H64)). lia.
        -- apply lookup_insert_Some in H64 as [[-> <-]|[_ H64]]; [|eauto].
           pose proof (Hold h _ (or_introl H32)). lia.
      * intros i p this q Hip Hk. simpl in *. rewrite length_app.
        pose proof (Hpr i p this q Hip Hk). lia.
    + simpl. apply extends_app.
    + simpl. split; [by exists (new_KeyImp host None)|].
      destruct is32; simpl; by rewrite lookup_insert_eq.
Qed.

Lemma getRawKey_preserved P st key view st' n :
  inv P st -> getRawKey st key view = Ret (st', n) ->
  preserved P st st' /\ n < length (nodes st').
Proof.
  intros Hi. unfold getRawKey. destruct (split_host key) as [host key1].
  destruct (find_hive key1) as [[hive key2]|e]; cbn [mbind res_bind]; [|discriminate].
  destruct (_ && _); [discriminate|].
  destruct (negb _); [discriminate|].
  destruct (view_is_illegal view); [discriminate|].
  destruct (host_root_preserved P st (bool_decide (view = Some (js "32"))) host Hi)
    as (Hp1 & (rn & Hrn & _) & _).
  destruct (host_root st _ host) as [st1 p]. cbn [fst snd] in *.
  intros [= Hsub].
  pose proof (lookup_lt_Some _ _ _ Hrn) as Hlt.
  pose proof (preserved_subkey P st1 p key2 Hlt (proj1 Hp1)) as Hp2.
  pose proof (subkey_valid P st1 p key2 Hlt (proj1 Hp1)) as Hv.
  destruct (subkey st1 p key2) as [st2 q]. injection Hsub as <- <-.
  split; [by eapply preserved_trans | exact Hv].
Qed.

Lemma detach_dirty_parents dirty ns parents :
  tree_ok ns -> Forall (fun p => p < length ns) parents ->
  forall ps, (detach_dirty ns dirty parents).2 = Ret ps ->
  Forall (fun p => p < length ns) ps.
Proof.
  revert ns parents. induction dirty as [|i rest IH]; intros ns parents Ht Hall ps;
    cbn [detach_dirty].
  - simpl. by intros [= <-].
  - destruct (parent (ns !!! i)) as [p|] eqn:Hp; [|discriminate].
    intros Hps. pose proof (lookup_total_parent _ _ _ Hp) as Hi.
    pose proof (proj1 Ht _ _ _ Hi Hp) as Hlt. pose proof (lookup_lt_Some _ _ _ Hi).
    specialize (IH (alter (set_keys (delete (name (ns !!! i)))) p ns) (set_add p parents)).
    rewrite length_alter in IH. apply IH; [| |exact Hps].
    + apply tree_ok_alter; [apply neutral_set_keys_delete | exact Ht].
    + unfold set_add. case_bool_decide; [exact Hall|].
      apply Forall_app. split; [exact Hall|]. constructor; [lia | constructor].
Qed.

Lemma preserved_rereads env P parents st :
  Forall (fun p => p < length (nodes st)) parents -> inv P st ->
  preserved P st (fold_left (fun st p => (reread env st p).1) parents st).
Proof.
  revert st. induction parents as [|p parents IH]; intros st Hall Hi.
  - by apply preserved_refl.
  - cbn [fold_left]. inversion Hall as [|? ? Hp Hrest]; subst.
    pose proof (preserved_reread env P st p Hp Hi) as H1.
    eapply preserved_trans; [exact H1|]. apply IH; [|apply H1].
    rewrite nodes_reread, length_alter. exact Hrest.
Qed.

Lemma preserved_import_done env P view dirty r st :
  inv P st -> preserved P st (import_done env view dirty r st).
Proof.
  intros Hi. unfold import_done. destruct dirty as [ds|].
  - destruct (detach_dirty_good P ds (nodes st) [] (proj1 Hi)) as (Hg & He & Hl).
    pose proof (detach_dirty_parents ds (nodes st) [] (proj1 (proj1 Hi)) (Forall_nil_2 _))
      as Hps.
    destruct (detach_dirty (nodes st) ds []) as [ns ps]. cbn [fst snd] in *.
    assert (H1 : preserved P st (with_nodes (fun _ => ns) st)).
    { split; [by apply (inv_with_nodes P (fun _ => ns) st) | exact He]. }
    destruct ps as [parents|e].
    + eapply preserved_trans; [exact H1|].
      assert (H2 : preserved P (with_nodes (fun _ => ns) st)
                     (fold_left (fun st p => (reread env st p).1) parents
                                (with_nodes (fun _ => ns) st))).
      { apply preserved_rereads; [|apply H1]. simpl. rewrite Hl. by apply Hps. }
      eapply preserved_trans; [exact H2|].
      apply preserved_same; [apply same_tree_resolve | apply H2].
    + eapply preserved_trans; [exact H1|].
      apply preserved_same; [apply same_tree_resolve | apply H1].
  - set (st1 := if bool_decide (view = Some (js "32")) then _ else _).
    assert (H1 : preserved P st st1).
    { destruct Hi as (Hg & [Hh Hd] & Hpr). subst st1.
      case_bool_decide; (split; [|apply extends_refl]);
        (split; [exact Hg|]); (split; [|exact Hpr]); split; simpl.
      - intros h a [Hr|Hr]; [by rewrite lookup_empty in Hr | eauto].
      - intros h h' a Hr. by rewrite lookup_empty in Hr.
      - intros h a [Hr|Hr]; [eauto | by rewrite lookup_empty in Hr].
      - intros h h' a _ Hr. by rewrite lookup_empty in Hr. }
    eapply preserved_trans; [exact H1|].
    apply preserved_same; [apply same_tree_resolve | apply H1].
Qed.

Lemma good_mono (P Q : addr -> Prop) ns :
  (forall q, P q -> Q q) -> good P ns -> good Q ns.
Proof.
  intros HPQ (? & ? & ?). split; [|split]; try assumption. by eapply upward_but_mono.
Qed.

Lemma preserved_continue env P k o st :
  inv P st ->
  (forall this q, k = KReread this q -> this < length (nodes st)) ->
  match k, o with
  | KReread this _, Ret out =>
      is_ret (reread_done env this out (nodes st)).2 = true \/ forall q, P q
  | _, _ => True
  end ->
  preserved P st (continue env k o st).
Proof.
  intros Hi Hk Hq. destruct k as [this p|r|this r|this r|this key r|this key v r|view dirty r];
    cbn [continue].
  - destruct o as [out|e].
    + pose proof (reread_done_good env P this out (nodes st) (Hk _ _ eq_refl) (proj1 Hi))
        as (Hg1 & He & Hret).
      destruct (reread_done env this out (nodes st)) as [ns r]. cbn [fst snd] in *.
      assert (Hg : good P ns).
      { destruct Hq as [Hq|Hq]; [by apply Hret|]. eapply good_mono; [|exact Hg1]. auto. }
      assert (H1 : preserved P st (with_nodes (fun _ => ns) st)).
      { split; [by apply (inv_with_nodes P (fun _ => ns) st) | exact He]. }
      eapply preserved_trans; [exact H1|].
      apply preserved_same; [apply same_tree_settle | apply H1].
    + apply preserved_same; [apply same_tree_settle | exact Hi].
  - apply preserved_same; [apply same_tree_resolve | exact Hi].
  - destruct o as [out|e]; [|apply preserved_same; [apply same_tree_resolve | exact Hi]].
    set (detach := fun ns : list KeyImp => _).
    assert (H1 : preserved P st (with_nodes detach st)).
    { assert (Hd : good P (detach (nodes st)) /\ extends (nodes st) (detach (nodes st))).
      { subst detach. cbv beta. destruct (parent (nodes st !!! this)).
        - split; [apply good_alter_neutral; [apply neutral_set_keys_delete | apply Hi]
                 | apply extends_keeps, neutral_set_keys_delete].
        - split; [apply Hi | apply extends_refl]. }
      destruct Hd as [Hd1 Hd2]. split; [apply inv_with_nodes; assumption | exact Hd2]. }
    eapply preserved_trans; [exact H1|].
    apply preserved_same; [apply same_tree_resolve | apply H1].
  - apply preserved_same; [apply same_tree_resolve | exact Hi].
  - destruct o as [out|e]; [|apply preserved_same; [apply same_tree_resolve | exact Hi]].
    destruct (_items (nodes st !!! this));
      apply preserved_same; [apply same_tree_then | exact Hi | apply same_tree_resolve | exact Hi].
  - destruct o as [out|e]; [|apply preserved_same; [apply same_tree_resolve | exact Hi]].
    destruct (_items (nodes st !!! this));
      apply preserved_same; [apply same_tree_then | exact Hi | apply same_tree_resolve | exact Hi].
  - destruct o as [out|e]; [|apply preserved_same; [apply same_tree_resolve | exact Hi]].
    by apply preserved_import_done.
Qed.

Lemma inv_close_process P i st :
  inv P st -> inv P (with_procs (alter close_process i) st).
Proof.
  intros (Hg & Hh & Hpr). split; [exact Hg|]. split; [exact Hh|].
  intros j p this q Hj Hk. simpl in *.
  apply lookup_alter_Some in Hj as (p0 & Hp0 & ->).
  apply (Hpr j p0 this q Hp0). by destruct (decide (i = j)).
Qed.

Lemma preserved_close env P st i error code stdout stderr :
  inv P st ->
  callback_throws env st (Eclose i error code stdout stderr) = false \/ (forall q, P q) ->
  preserved P st (close env st i error code stdout stderr).
Proof.
  intros Hi Hq. unfold close. destruct (procs st !! i) as [p|] eqn:Hp;
    [|by apply preserved_refl].
  destruct (p_closed p) eqn:Hc; [by apply preserved_refl|].
  pose proof (inv_close_process P i st Hi) as Hi1.
  eapply preserved_trans; [split; [exact Hi1 | apply extends_refl]|].
  apply preserved_continue; [exact Hi1| |].
  - intros this q Hk. simpl. destruct Hi as (_ & _ & Hpr). eapply Hpr; eassumption.
  - simpl. destruct (p_then p) as [this q| | | | | |] eqn:Hk; try exact I.
    destruct (Process_close p error code stdout stderr) as [out|e] eqn:Ho; [|exact I].
    destruct Hq as [Hq|Hq]; [|by right]. left.
    unfold callback_throws in Hq. rewrite Hp, Hc, Hk, Ho in Hq. simpl in Hq.
    by destruct (is_ret _).
Qed.

(** Every event keeps the invariant and only extends the nodes, as long
    as no callback of [reread] raises (or nothing is claimed of the
    flags: [P] exempts every node). *)
Lemma preserved_step env P st e :
  inv P st -> event_ok st e ->
  callback_throws env st e = false \/ (forall q, P q) ->
  preserved P st (step env st e).
Proof.
  intros Hi Hok Hq.
  destruct e as [key view|this key|this|this|this|this|this|this|this key|this key v
                |this key type v0|this file|file view dirty|i error code stdout stderr];
    cbn [step event_ok] in *.
  - destruct (getRawKey st key view) as [[st' n]|err] eqn:Hg; [|by apply preserved_refl].
    by destruct (getRawKey_preserved P st key view st' n Hi Hg).
  - by apply preserved_subkey.
  - by apply preserved_read.
  - by apply preserved_reread.
  - by apply preserved_exists.
  - by apply preserved_clear.
  - apply (preserved_command env P st this _ _ (KDestroy this)); [discriminate | exact Hi].
  - apply (preserved_command env P st this _ _ (KCreate this)); [discriminate | exact Hi].
  - apply (preserved_command env P st this _ _ (KDeleteValue this key));
      [discriminate | exact Hi].
  - by apply preserved_setValue.
  - unfold setValueString. destruct (parse env type v0); [by apply preserved_setValue|].
    cbn [new_result fst].
    eapply preserved_trans; [apply (preserved_same P st _ (same_tree_new_result st) Hi)|].
    apply preserved_same; [apply same_tree_resolve|].
    eapply inv_same; [apply same_tree_new_result | exact Hi].
  - apply (preserved_command env P st this _ _ KBool); [discriminate | exact Hi].
  - unfold importreg. cbn [new_result fst].
    eapply preserved_trans; [apply (preserved_same P st _ (same_tree_new_result st) Hi)|].
    split; [|apply extends_refl]. apply inv_spawn; [discriminate|].
    eapply inv_same; [apply same_tree_new_result | exact Hi].
  - by apply preserved_close.
Qed.

Lemma inv_initial P : inv P initial.
Proof.
  unfold inv, good, tree_ok, roots_unfound, upward_but, hosts_ok, procs_ok.
  repeat split; simpl; intros;
    repeat match goal with
           | H : _ \/ _ |- _ => destruct H
           | H : [] !! _ = Some _ |- _ => by rewrite lookup_nil in H
           | H : ∅ !! _ = Some _ |- _ => by rewrite lookup_empty in H
           end.
Qed.

(** ** Reachable states *)

Lemma reaches_mono env (ok ok' : state -> event -> Prop) st :
  (forall st e, ok st e -> ok' st e) -> reaches env ok st -> reaches env ok' st.
Proof. intros H. induction 1; [apply reaches_initial | apply reaches_step; auto]. Qed.

Lemma reachable_quiet_reachable env st : reachable_quiet env st -> reachable env st.
Proof. apply reaches_mono. tauto. Qed.

Lemma reachable_inv env st : reachable env st -> inv (fun _ => True) st.
Proof.
  induction 1 as [|st e _ IH Hok]; [apply inv_initial|].
  apply (preserved_step env (fun _ => True) st e IH Hok). by right.
Qed.

Lemma reachable_quiet_inv env st : reachable_quiet env st -> inv (fun _ => False) st.
Proof.
  induction 1 as [|st e _ IH [Hok Hq]]; [apply inv_initial|].
  apply (preserved_step env (fun _ => False) st e IH Hok). by left.
Qed.

Lemma reachable_store_ok env st : reachable env st -> store_ok st.
Proof.
  intros H. destruct (reachable_inv env st H) as ((Ht & Hr & _) & Hh & Hp).
  exact (conj Ht (conj Hr (conj Hh Hp))).
Qed.

(** ** The promises of the operations *)

Lemma results_ok_same st st' :
  procs st' = procs st -> length (results st) <= length (results st') ->
  results_ok st -> results_ok st'.
Proof.
  intros Hp Hl H i p r Hi Hr. rewrite Hp in Hi. pose proof (H i p r Hi Hr). lia.
Qed.

Lemma results_ok_spawn exec args k st :
  (forall r, result_of k = Some r -> r < length (results st)) ->
  results_ok st -> results_ok (spawn exec args k st).
Proof.
  intros Hk H i p r Hi Hr. simpl in *.
  apply lookup_app_Some in Hi as [Hi|[_ Hi]]; [eauto|].
  apply list_lookup_singleton_Some in Hi as [_ <-]. eauto.
Qed.

Lemma results_ok_runCommand env st this c args k :
  (forall r, result_of k = Some r -> r < length (results st)) ->
  results_ok st -> results_ok (runCommand env st this c args k).
Proof.
  intros Hk H. unfold runCommand. destruct (getRootAndPath _ _).
  destruct (view_of _ _); by apply results_ok_spawn.
Qed.

Lemma length_results_on_fulfilled rx x st :
  length (results (on_fulfilled rx x st).2) = length (results st).
Proof. destruct rx; simpl; try reflexivity; apply length_insert. Qed.

Lemma length_results_on_rejected rx e st :
  length (results (on_rejected rx e st)) = length (results st).
Proof. destruct rx; simpl; try reflexivity; apply length_insert. Qed.

Lemma length_results_then p rx st :
  length (results (then_ p rx st)) = length (results st).
Proof.
  unfold then_. destruct (items st !! p) as [[[|x|e] rs]|]; try reflexivity.
  - pose proof (length_results_on_fulfilled rx x st) as H.
    by destruct (on_fulfilled rx x st) as [x' st'].
  - apply length_results_on_rejected.
Qed.

Lemma length_results_settle p o st :
  length (results (settle p o st)) = length (results st).
Proof.
  unfold settle. destruct (items st !! p) as [[[|x|e] rs]|]; try reflexivity.
  destruct o as [x|e].
  - assert (H : forall x0 st0,
               length (results (fold_left (fun '(x, st) rx => on_fulfilled rx x st)
                                          rs (x0, st0)).2)
               = length (results st0)).
    { induction rs as [|rx rs IH]; intros x0 st0; [reflexivity|]. cbn [fold_left].
      pose proof (length_results_on_fulfilled rx x0 st0) as H1.
      destruct (on_fulfilled rx x0 st0) as [x1 st1]. rewrite IH. exact H1. }
    specialize (H x st). by destruct (fold_left _ rs (x, st)) as [x' st'].
  - simpl. revert st. induction rs as [|rx rs IH]; intros st; [reflexivity|].
    cbn [fold_left]. rewrite IH. apply length_results_on_rejected.
Qed.

Lemma results_ok_resolve r v st : results_ok st -> results_ok (resolve r v st).
Proof.
  apply results_ok_same; [reflexivity|]. simpl. by rewrite length_insert.
Qed.

Lemma results_ok_then p rx st : results_ok st -> results_ok (then_ p rx st).
Proof.
  apply results_ok_same; [apply same_tree_then | by rewrite length_results_then].
Qed.

Lemma results_ok_settle p o st : results_ok st -> results_ok (settle p o st).
Proof.
  apply results_ok_same; [apply same_tree_settle | by rewrite length_results_settle].
Qed.

Lemma results_ok_with_nodes f st : results_ok st -> results_ok (with_nodes f st).
Proof. by apply results_ok_same. Qed.

Lemma results_ok_reread env st this : results_ok st -> results_ok (reread env st this).1.
Proof.
  intros H. unfold reread. cbn [fst]. apply results_ok_with_nodes.
  apply (results_ok_same (runCommand env st this (js "QUERY") []
                            (KReread this (length (items st))))); [reflexivity | reflexivity|].
  apply results_ok_runCommand; [discriminate | exact H].
Qed.

Lemma results_ok_read env st this : results_ok st -> results_ok (read env st this).1.
Proof.
  intros H. unfold read. destruct (_items _); [exact H | by apply results_ok_reread].
Qed.

(** An operation that allocates its promise and runs one command. *)
Lemma results_ok_command env st this c args k :
  (forall r, result_of (k (length (results st))) = Some r -> r = length (results st)) ->
  results_ok st ->
  results_ok (let '(st, r) := new_result st in (runCommand env st this c args (k r), r)).1.
Proof.
  intros Hk H. cbn [new_result fst]. apply results_ok_runCommand.
  - intros r Hr. apply Hk in Hr as ->. simpl. rewrite length_app. simpl. lia.
  - eapply results_ok_same; [| |exact H]; [reflexivity|]. simpl. rewrite length_app. lia.
Qed.

Lemma results_ok_new_result st : results_ok st -> results_ok (new_result st).1.
Proof.
  apply results_ok_same; [reflexivity|]. simpl. rewrite length_app. lia.
Qed.

Lemma results_ok_rereads env parents st :
  results_ok st -> results_ok (fold_left (fun st p => (reread env st p).1) parents st).
Proof.
  revert st. induction parents as [|p parents IH]; intros st H; [exact H|].
  cbn [fold_left]. by apply IH, results_ok_reread.
Qed.

Lemma results_ok_continue env k o st : results_ok st -> results_ok (continue env k o st).
Proof.
  intros H. destruct k as [this p|r|this r|this r|this key r|this key v r|view dirty r];
    cbn [continue].
  - destruct o as [out|e]; [|by apply results_ok_settle].
    destruct (reread_done env this out (nodes st)) as [ns r].
    by apply results_ok_settle, results_ok_with_nodes.
  - by apply results_ok_resolve.
  - destruct o; [apply results_ok_resolve, results_ok_with_nodes | apply results_ok_resolve];
      exact H.
  - by apply results_ok_resolve.
  - destruct o; [|by apply results_ok_resolve].
    destruct (_items _); [by apply results_ok_then | by apply results_ok_resolve].
  - destruct o; [|by apply results_ok_resolve].
    destruct (_items _); [by apply results_ok_then | by apply results_ok_resolve].
  - destruct o; [|by apply results_ok_resolve].
    unfold import_done. destruct dirty as [ds|].
    + destruct (detach_dirty (nodes st) ds []) as [ns [parents|e]].
      * by apply results_ok_resolve, results_ok_rereads, results_ok_with_nodes.
      * by apply results_ok_resolve, results_ok_with_nodes.
    + apply results_ok_resolve. by case_bool_decide.
Qed.

Lemma results_ok_close env st i error code stdout stderr :
  results_ok st -> results_ok (close env st i error code stdout stderr).
Proof.
  intros H. unfold close. destruct (procs st !! i) as [p|] eqn:Hp; [|exact H].
  destruct (p_closed p); [exact H|]. apply results_ok_continue.
  intros j p' r Hj Hr. simpl in *. apply lookup_alter_Some in Hj as (p0 & Hp0 & ->).
  apply (H j p0 r Hp0). by destruct (decide (i = j)).
Qed.

Lemma results_ok_getRawKey st key view st' n :
  getRawKey st key view = Ret (st', n) -> results_ok st -> results_ok st'.
Proof.
  unfold getRawKey. destruct (split_host key) as [host key1].
  destruct (find_hive key1) as [[hive key2]|e]; cbn [mbind res_bind]; [|discriminate].
  destruct (_ && _); [discriminate|].
  destruct (negb _); [discriminate|].
  destruct (view_is_illegal view); [discriminate|].
  intros Hg H.
  assert (H1 : results_ok (host_root st (bool_decide (view = Some (js "32"))) host).1).
  { unfold host_root. by destruct (_ !! host). }
  destruct (host_root st _ host) as [st1 p]. cbn [fst] in H1.
  unfold subkey in Hg. destruct (subkey_loop _ _ _) as [ns q].
  injection Hg as <- _. by apply results_ok_with_nodes.
Qed.

Lemma results_ok_step env st e : results_ok st -> results_ok (step env st e).
Proof.
  intros H.
  destruct e as [key view|this key|this|this|this|this|this|this|this key|this key v
                |this key type v0|this file|file view dirty|i error code stdout stderr];
    cbn [step].
  - destruct (getRawKey st key view) as [[st' n]|err] eqn:Hg; [|exact H].
    by eapply results_ok_getRawKey.
  - unfold subkey. destruct (subkey_loop _ _ _) as [ns q]. by apply results_ok_with_nodes.
  - by apply results_ok_read.
  - by apply results_ok_reread.
  - unfold exists_. cbn [new_result].
    pose proof (results_ok_new_result st H) as H0. cbn [new_result fst] in H0.
    set (st0 := with_results _ st) in *.
    destruct (found _); [by apply results_ok_resolve|].
    destruct (match parent _ with Some _ => _ | None => _ end);
      [by apply results_ok_resolve|].
    pose proof (results_ok_read env st0 this H0) as H1.
    destruct (read env st0 this) as [st1 p]. by apply results_ok_then.
  - unfold clear. apply (results_ok_command env _ this _ _ KBool); [by intros r [= <-]|].
    destruct (_items _); [by apply results_ok_then | exact H].
  - apply (results_ok_command env st this _ _ (KDestroy this)); [by intros r [= <-] | exact H].
  - apply (results_ok_command env st this _ _ (KCreate this)); [by intros r [= <-] | exact H].
  - apply (results_ok_command env st this _ _ (KDeleteValue this key));
      [by intros r [= <-] | exact H].
  - apply (results_ok_command env st this _ _ (KSetValue this key v));
      [by intros r [= <-] | exact H].
  - unfold setValueString. destruct (parse env type v0).
    + apply (results_ok_command env st this _ _ (KSetValue this key a));
        [by intros r [= <-] | exact H].
    + cbn [new_result fst]. by apply results_ok_resolve, results_ok_new_result.
  - apply (results_ok_command env st this _ _ KBool); [by intros r [= <-] | exact H].
  - unfold importreg. cbn [new_result fst]. apply results_ok_spawn.
    + intros r [= <-]. simpl. rewrite length_app. simpl. lia.
    + by apply results_ok_new_result.
  - by apply results_ok_close.
Qed.

Lemma reachable_results_ok env st : reachable env st -> results_ok st.
Proof.
  induction 1 as [|st e _ IH _]; [|by apply results_ok_step].
  intros i p r Hi. simpl in Hi. by rewrite lookup_nil in Hi.
Qed.

Lemma ancestor_has_parent ns b a : ancestor ns b a -> has_parent ns a.
Proof. destruct 1; eexists; eauto. Qed.

Lemma upward_ancestor ns a b :
  upward ns -> ancestor ns b a -> confirmed ns a -> has_parent ns b -> confirmed ns b.
Proof.
  intros Hu Hanc. induction Hanc as [a n p Ha Hp | a n p b Ha Hp Hanc IH];
    intros (n' & Hn' & Hfo) Hb.
  - destruct Hb as (pn & Hpn & Hpp). rewrite Ha in Hn'. injection Hn' as <-.
    destruct (Hu _ _ _ _ Ha Hfo Hp Hpn Hpp) as [?|[]]. by exists pn.
  - rewrite Ha in Hn'. injection Hn' as <-. apply IH; [|exact Hb].
    destruct (ancestor_has_parent _ _ _ Hanc) as (pn & Hpn & Hpp).
    destruct (Hu _ _ _ _ Ha Hfo Hp Hpn Hpp) as [?|[]]. by exists pn.
Qed.

Lemma nodes_close_reread env st i p this q error code stdout stderr out :
  procs st !! i = Some p -> p_closed p = false -> p_then p = KReread this q ->
  Process_close p error code stdout stderr = Ret out ->
  nodes (close env st i error code stdout stderr)
  = (reread_done env this out (nodes st)).1.
Proof.
  intros Hp Hc Hk Ho. unfold close. rewrite Hp, Hc, Hk, Ho. cbn [continue].
  simpl. destruct (reread_done env this out (nodes st)) as [ns r].
  by destruct (same_tree_settle q r (with_nodes (fun _ => ns)
                                       (with_procs (alter close_process i) st))) as (-> & _).
Qed.

(** C3 (as amended).  In every state reached without a callback of
    [reread] raising an exception: a confirmed node's ancestors below the
    root are confirmed; a root is never confirmed; when a query of a node
    that has a parent ends and its callback returns, that node and its
    ancestors below the root are confirmed; and no event clears the flag
    of a confirmed node. *)
Theorem existence_propagates_below_root env st :
  reachable_quiet env st ->
  (forall a b, confirmed (nodes st) a -> ancestor (nodes st) b a ->
               has_parent (nodes st) b -> confirmed (nodes st) b)
  /\ (forall a, is_root (nodes st) a -> ~ confirmed (nodes st) a)
  /\ (forall i p this q error code stdout stderr out its,
        procs st !! i = Some p -> p_closed p = false -> p_then p = KReread this q ->
        Process_close p error code stdout stderr = Ret out ->
        (reread_done env this out (nodes st)).2 = Ret its ->
        has_parent (nodes st) this ->
        let st' := close env st i error code stdout stderr in
        confirmed (nodes st') this
        /\ forall b, ancestor (nodes st') b this -> has_parent (nodes st') b ->
                     confirmed (nodes st') b)
  /\ (forall e a, event_ok st e -> confirmed (nodes st) a ->
                  confirmed (nodes (step env st e)) a).
Proof.
  intros Hq. pose proof (reachable_quiet_inv env st Hq) as ((Ht & Hr & Hu) & Hh & Hp).
  split; [|split; [|split]].
  - intros a b Ha Hanc Hb. by eapply upward_ancestor.
  - intros a (n & Hn & Hpar) (n' & Hn' & Hfo). rewrite Hn in Hn'. injection Hn' as <-.
    rewrite (Hr _ _ Hn Hpar) in Hfo. discriminate.
  - intros i p this q error code stdout stderr out its Hi Hc Hk Ho Hret Hpar st'.
    assert (Hthrows : callback_throws env st (Eclose i error code stdout stderr) = false).
    { unfold callback_throws. rewrite Hi, Hc, Hk, Ho, Hret. reflexivity. }
    assert (Hq' : reachable_quiet env st').
    { apply (reaches_step env _ st (Eclose i error code stdout stderr) Hq).
      split; [exact I | exact Hthrows]. }
    pose proof (reachable_quiet_inv env st' Hq') as ((_ & _ & Hu') & _).
    assert (Hconf : confirmed (nodes st') this).
    { subst st'. rewrite (nodes_close_reread env st i p this q _ _ _ _ out Hi Hc Hk Ho).
      destruct (reread_done_good env (fun _ => False) this out (nodes st)
                  (Hp _ _ _ _ Hi Hk) (conj Ht (conj Hr Hu))) as (_ & _ & Hdone).
      rewrite Hret in Hdone. by apply Hdone. }
    split; [exact Hconf|]. intros b Hanc Hb. by eapply upward_ancestor.
  - intros e a Hok Ha.
    pose proof (reachable_inv env st (reachable_quiet_reachable env st Hq)) as Hi.
    destruct (preserved_step env (fun _ => True) st e Hi Hok (or_intror (fun _ => I)))
      as [_ He].
    by eapply extends_confirmed.
Qed.

(** ** The codec: the claims *)

(** C2 (as amended).  In strict mode every variant except [SZ], [DWORD]
    and [DWORD_BIG_ENDIAN] is rendered as [hex(<tag>):] (plain [hex:] for
    [BINARY]) over the bytes of its [raw] encoding; [SZ] stays a quoted
    string and [DWORD] stays [dword:<hex>]; the rendering of
    [QWORD(255n)] is the expected text. *)
Theorem strict_format_by_variant :
  (forall v, match constructor v with
             | T_SZ | T_DWORD | T_DWORD_BIG_ENDIAN => True
             | _ => data_to_regstring v true = spec_strict_format v
             end)
  /\ (forall s, data_to_regstring (SZ s) true = Ret (quoted s))
  /\ (forall n, data_to_regstring (DWORD n) true
                = Ret (js "dword:" ++ number_toString 16 n))
  /\ data_to_regstring (QWORD 255) true = Ret (js "hex(11):ff,00,00,00,00,00,00,00").
Proof.
  split; [|split; [|split]]; try reflexivity.
  intros [v|v|v|v|v|v|s|s|n|n|l|n]; cbn [constructor]; try exact I; try reflexivity.
  - apply strict_expand_sz.
  - apply strict_multi_sz.
Qed.

(** C2, the claim as stated fails: the strict rendering of the string
    [a] is the quoted string, not [hex(1):61,00,00,00]. *)
Lemma strict_sz_is_not_hex :
  data_to_regstring (SZ (js "a")) true = Ret (quoted (js "a"))
  /\ spec_strict_format (SZ (js "a")) = Ret (js "hex(1):61,00,00,00")
  /\ data_to_regstring (SZ (js "a")) true <> spec_strict_format (SZ (js "a")).
Proof. split; [reflexivity|]. split; [reflexivity|]. discriminate. Qed.

(** The strict branch of [DWORD_BIG_ENDIAN] writes a space after the
    colon and the bytes in little-endian order, where [raw] is
    big-endian. *)
Lemma strict_dword_big_endian :
  data_to_regstring (DWORD_BIG_ENDIAN (Num 1)) true = Ret (js "hex(5): 01,00,00,00")
  /\ spec_strict_format (DWORD_BIG_ENDIAN (Num 1)) = Ret (js "hex(5):00,00,00,01").
Proof. split; vm_compute; reflexivity. Qed.

(** C1, at the failing input: the strict text of [QWORD(255n)] is
    [hex(11):ff,00,00,00,00,00,00,00] and decoding it gives [undefined];
    so do a [MULTI_SZ], an [EXPAND_SZ], a [LINK] and a [DWORD] of fewer
    than eight digits; a [RESOURCE_REQUIREMENTS_LIST] comes back as
    [NONE], and the empty [SZ] makes the decoder raise.  No value of the
    eight variants other than [NONE], [SZ], [BINARY] and [DWORD] is ever
    given back by the round trip. *)
Theorem strict_roundtrip_fails :
  data_to_regstring (QWORD 255) true = Ret (js "hex(11):ff,00,00,00,00,00,00,00")
  /\ strict_roundtrip (QWORD 255) = Ret None
  /\ strict_roundtrip (MULTI_SZ [js "a"; js "b"]) = Ret None
  /\ strict_roundtrip (EXPAND_SZ (js "%PATH%")) = Ret None
  /\ strict_roundtrip (LINK [Byte.x01]) = Ret None
  /\ strict_roundtrip (DWORD (Num 26)) = Ret None
  /\ strict_roundtrip (RESOURCE_REQUIREMENTS_LIST [Byte.x01]) = Ret (Some (NONE [Byte.x01]))
  /\ strict_roundtrip (NONE []) = Ret None
  /\ strict_roundtrip (SZ []) = Throw TypeError
  /\ (forall v, match constructor v with
                | T_NONE | T_SZ | T_BINARY | T_DWORD => True
                | _ => strict_roundtrip v <> Ret (Some v)
                end).
Proof.
  do 9 (split; [vm_compute; reflexivity|]).
  intros v. destruct (constructor v) eqn:Hv; try exact I;
    unfold strict_roundtrip; destruct (data_to_regstring v true) as [s|e];
    cbn [mbind res_bind]; try discriminate;
    intros H; apply regstring_to_data_variants in H; rewrite Hv in H;
    by destruct H as [H|[H|[H|H]]].
Qed.

(** C5, at the failing inputs: the text of the empty string (two double
    quotes) makes [regstring_to_data] raise a [TypeError]; the tags 1 to 9
    and 11 never match, so [hex(7):...] gives [undefined] and not a
    [MULTI_SZ], and so does the unknown tag 12; the tags that do match
    ([0], and [a] to [f]) all give [NONE].  On every text the switch on
    the tag takes its default branch: the value returned is a [SZ], a
    [DWORD], a [BINARY] or a [NONE]. *)
Theorem regstring_to_data_throws_and_misses_tags :
  regstring_to_data (quoted []) = Throw TypeError
  /\ regstring_to_data (js "hex(7):61,00,00,00") = Ret None
  /\ regstring_to_data (js "hex(4):01,00,00,00") = Ret None
  /\ regstring_to_data (js "hex(12):01") = Ret None
  /\ regstring_to_data (js "hex(a):01") = Ret (Some (NONE [Byte.x01]))
  /\ regstring_to_data (js "hex(0):01") = Ret (Some (NONE [Byte.x01]))
  /\ regstring_to_data (js "hex(ff):01") = Ret (Some (NONE [Byte.x01]))
  /\ (forall value d,
        regstring_to_data value = Ret (Some d) ->
        constructor d = T_SZ \/ constructor d = T_DWORD
        \/ constructor d = T_BINARY \/ constructor d = T_NONE).
Proof.
  do 7 (split; [vm_compute; reflexivity|]).
  apply regstring_to_data_variants.
Qed.

(** ** The resolver *)

Lemma test_KEY_PATTERN key : test KEY_PATTERN key = true.
Proof.
  unfold test, exec. destruct key as [|c key]; cbn [exec_from].
  - reflexivity.
  - unfold KEY_PATTERN, RStar. cbn [rmatch].
    replace (0 + length (c :: key) + 1) with (S (S (length key))) by (simpl; lia).
    rewrite RepeatMatcher_S. cbv zeta. by destruct (rmatch _ _ _ _ _).
Qed.

Lemma find_hive_error key e :
  find_hive key = Throw e -> e = Error (js "illegal hive specified.").
Proof.
  unfold find_hive. destruct (array_indexOf HIVES_LONG _ 0); [discriminate|].
  destruct (array_indexOf HIVES_SHORT _ 0); [discriminate|]. by intros [= <-].
Qed.

(** C6, at the failing input: [getRawKey] never raises the illegal-key
    error, whatever the key; a key with a [*] in a segment is accepted and
    resolved to a node.  The three other checks are made, in the order of
    the claim: the hive, then the remote hive, then the view; when they
    pass the key is resolved. *)
Theorem illegal_key_is_never_raised :
  (forall st key view,
     getRawKey st key view <> Throw (Error (js "illegal key specified.")))
  /\ (exists st', getRawKey initial (js "HKLM\foo*bar") None = Ret (st', 2))
  /\ test KEY_PATTERN (js "HKEY_LOCAL_MACHINE\foo*bar") = true
  /\ (forall st key view,
        getRawKey st key view
        = match find_hive (split_host key).2 with
          | Throw e => Throw (Error (js "illegal hive specified."))
          | Ret (hive_index, key2) =>
              let host := (split_host key).1 in
              if (match host with [] => false | _ => true end)
                 && (2 <=? hive_index)
              then Throw (Error (js "For remote access the root key must be HKLM or HKU"))
              else if view_is_illegal view
              then Throw (Error (js "illegal view specified (use 32 or 64)"))
              else
                let r := host_root st (bool_decide (view = Some (js "32"))) host in
                Ret (subkey r.1 r.2 key2)
          end).
Proof.
  assert (Hshape : forall st key view,
        getRawKey st key view
        = match find_hive (split_host key).2 with
          | Throw e => Throw (Error (js "illegal hive specified."))
          | Ret (hive_index, key2) =>
              let host := (split_host key).1 in
              if (match host with [] => false | _ => true end)
                 && (2 <=? hive_index)
              then Throw (Error (js "For remote access the root key must be HKLM or HKU"))
              else if view_is_illegal view
              then Throw (Error (js "illegal view specified (use 32 or 64)"))
              else
                let r := host_root st (bool_decide (view = Some (js "32"))) host in
                Ret (subkey r.1 r.2 key2)
          end).
  { intros st key view. unfold getRawKey. destruct (split_host key) as [host key1].
    cbn [fst snd]. destruct (find_hive key1) as [[hive key2]|e] eqn:Hf;
      cbn [mbind res_bind]; [|by rewrite (find_hive_error _ _ Hf)].
    rewrite test_KEY_PATTERN. cbn [negb]. cbv zeta.
    destruct (_ && _); [reflexivity|]. destruct (view_is_illegal view); [reflexivity|].
    by destruct (host_root st _ host). }
  split; [|split; [|split]].
  - intros st key view. rewrite Hshape. destruct (find_hive _) as [[hive key2]|e];
      [|discriminate]. cbv zeta. destruct (_ && _); [discriminate|].
    destruct (view_is_illegal view); discriminate.
  - eexists. vm_compute. reflexivity.
  - apply test_KEY_PATTERN.
  - exact Hshape.
Qed.

(** ** The key tree: the claims *)

Lemma resolve_lookup r v st :
  r < length (results st) ->
  results (resolve r v st) !! r = Some v
  /\ forall r', r' <> r -> results (resolve r v st) !! r' = results st !! r'.
Proof.
  intros Hlt. simpl. split; [by apply list_lookup_insert_eq|].
  intros r' Hne. by apply list_lookup_insert_ne.
Qed.

(** C8, at the failing input.  The key [HKLM\A] is resolved (node 2) and
    read; the query fails, so the memoized promise is rejected.  Then
    [setValue] is called and its command succeeds (exit code 0): the
    promise [setValue] returned is rejected with the error of the query,
    neither [true] nor [false].  [deleteValue] does the same.  In general,
    whenever the command of a [setValue] or a [deleteValue] succeeds on a
    node whose memoized promise is rejected, the promise of the operation
    is rejected with the same error. *)
Theorem setValue_rejects_after_failed_read :
  let failed_read :=
    run example_env initial
      [EgetRawKey (js "HKLM\A") None; Eread 2; Eclose 0 None (Some 1%Z) [] []] in
  let st := run example_env failed_read
      [EsetValue 2 (js "k") (DWORD (Num 1)); Eclose 1 None (Some 0%Z) [] []] in
  let st' := run example_env failed_read
      [EdeleteValue 2 (js "k"); Eclose 1 None (Some 0%Z) [] []] in
  (exists message,
     items failed_read = [(Rejected (RegError message 1), [])]
     /\ results st = [Rejected (RegError message 1)]
     /\ results st' = [Rejected (RegError message 1)])
  /\ (exists p, procs st !! 1 = Some p
                /\ Process_close p None (Some 0%Z) [] [] = Ret [])
  /\ (forall env s i proc this key r p e rs error code stdout stderr out,
        procs s !! i = Some proc -> p_closed proc = false ->
        (p_then proc = KDeleteValue this key r
         \/ exists v, p_then proc = KSetValue this key v r) ->
        _items (nodes s !!! this) = Some p ->
        items s !! p = Some (Rejected e, rs) ->
        r < length (results s) ->
        Process_close proc error code stdout stderr = Ret out ->
        results (close env s i error code stdout stderr) !! r = Some (Rejected e)).
Proof.
  split; [|split].
  - eexists. vm_compute. repeat split; reflexivity.
  - eexists. vm_compute. split; reflexivity.
  - intros env s i proc this key r p e rs error code stdout stderr out
      Hi Hc Hk Hslot Hp Hr Ho.
    unfold close. rewrite Hi, Hc, Ho.
    destruct Hk as [Hk|[v Hk]]; rewrite Hk; cbn [continue];
      cbn [nodes with_procs]; rewrite Hslot; unfold then_;
      cbn [items with_procs]; rewrite Hp; cbn [on_rejected];
      by apply resolve_lookup.
Qed.

Lemma procs_runCommand env st this c args k :
  exists proc,
    procs (runCommand env st this c args k) = procs st ++ [proc]
    /\ p_then proc = k /\ p_closed proc = false /\ p_args proc !! 0 = Some c.
Proof.
  unfold runCommand. destruct (getRootAndPath _ _) as [root fullpath].
  destruct (view_of st root); eexists; (split; [reflexivity|]); by repeat split.
Qed.

Lemma runCommand_frame env st this c args k :
  nodes (runCommand env st this c args k) = nodes st
  /\ hosts32 (runCommand env st this c args k) = hosts32 st
  /\ hosts64 (runCommand env st this c args k) = hosts64 st
  /\ items (runCommand env st this c args k) = items st
  /\ results (runCommand env st this c args k) = results st.
Proof.
  unfold runCommand. destruct (getRootAndPath _ _) as [root fullpath].
  by destruct (view_of st root).
Qed.

Lemma reread_spec env st this :
  this < length (nodes st) ->
  let st1 := (reread env st this).1 in
  (reread env st this).2 = length (items st)
  /\ _items (nodes st1 !!! this) = Some (length (items st))
  /\ items st1 = items st ++ [(Pending, [])]
  /\ results st1 = results st /\ hosts32 st1 = hosts32 st /\ hosts64 st1 = hosts64 st
  /\ (forall a, a <> this -> nodes st1 !!! a = nodes st !!! a)
  /\ (forall a, _keys (nodes st1 !!! a) = _keys (nodes st !!! a)
                /\ name (nodes st1 !!! a) = name (nodes st !!! a)
                /\ parent (nodes st1 !!! a) = parent (nodes st !!! a)
                /\ found (nodes st1 !!! a) = found (nodes st !!! a))
  /\ length (nodes st1) = length (nodes st)
  /\ exists proc,
       procs st1 = procs st ++ [proc]
       /\ p_then proc = KReread this (length (items st))
       /\ p_closed proc = false /\ p_args proc !! 0 = Some (js "QUERY").
Proof.
  intros Hlt. unfold reread. cbn [fst snd].
  destruct (runCommand_frame env st this (js "QUERY") []
              (KReread this (length (items st)))) as (Hn & H32 & H64 & Hit & Hre).
  destruct (procs_runCommand env st this (js "QUERY") []
              (KReread this (length (items st)))) as (proc & Hpr & Hk & Hc & Ha).
  simpl. rewrite Hn, H32, H64, Hit, Hre.
  split; [reflexivity|]. split.
  { rewrite list_lookup_total_alter_eq by exact Hlt. reflexivity. }
  split; [reflexivity|]. split; [reflexivity|]. split; [reflexivity|].
  split; [reflexivity|]. split.
  { intros a Hne. by rewrite list_lookup_total_alter_ne. }
  split.
  { intros a. destruct (decide (a = this)) as [->|Hne].
    - rewrite list_lookup_total_alter_eq by exact Hlt. by repeat split.
    - rewrite list_lookup_total_alter_ne by congruence. by repeat split. }
  split; [apply length_alter|]. by exists proc.
Qed.

(** C4.  A read of a node whose memoized slot is filled returns that very
    promise and leaves the store as it is: no process is spawned.  After
    any read, a second read returns the promise of the first and changes
    nothing; and if the slot was empty, the first read spawned exactly one
    process, a QUERY that is still running, whose promise is pending. *)
Theorem read_is_single_flight env st this :
  this < length (nodes st) ->
  (forall p, _items (nodes st !!! this) = Some p -> read env st this = (st, p))
  /\ (let st1 := (read env st this).1 in
      let p1 := (read env st this).2 in
      read env st1 this = (st1, p1)
      /\ (_items (nodes st !!! this) = None ->
          items st1 !! p1 = Some (Pending, [])
          /\ exists proc,
               procs st1 = procs st ++ [proc]
               /\ p_then proc = KReread this p1
               /\ p_closed proc = false /\ p_args proc !! 0 = Some (js "QUERY"))).
Proof.
  intros Hlt. split.
  - intros p Hp. unfold read. by rewrite Hp.
  - cbv zeta. destruct (_items (nodes st !!! this)) as [p|] eqn:Hp.
    + assert (Hread : read env st this = (st, p)) by (unfold read; by rewrite Hp).
      rewrite Hread. cbn [fst snd]. split; [exact Hread | discriminate].
    + assert (Hread : read env st this = reread env st this)
        by (unfold read; by rewrite Hp).
      rewrite Hread.
      destruct (reread_spec env st this Hlt)
        as (Hr2 & Hit & Hitems & _ & _ & _ & _ & _ & _ & Hproc).
      split.
      * unfold read. rewrite Hit, Hr2. reflexivity.
      * intros _. rewrite Hr2. split; [|exact Hproc].
        rewrite Hitems. rewrite lookup_app_r by lia. by rewrite Nat.sub_diag.
Qed.

Lemma attached_alter_delete ns q k0 a k c :
  attached (alter (set_keys (delete k0)) q ns) a k c
  <-> attached ns a k c /\ ~ (a = q /\ k = k0).
Proof.
  unfold attached. split.
  - intros (n & Hn & Hk). apply lookup_alter_Some in Hn as (m & Hm & ->).
    destruct (decide (q = a)) as [->|Hne].
    + simpl in Hk. apply lookup_delete_Some in Hk as [Hne Hk].
      split; [by exists m|]. intros [_ ->]. congruence.
    + split; [by exists m|]. intros [-> _]. congruence.
  - intros [(n & Hn & Hk) Hnot]. destruct (decide (q = a)) as [->|Hne].
    + exists (set_keys (delete k0) n). rewrite list_lookup_alter_eq, Hn.
      split; [reflexivity|]. simpl. rewrite lookup_delete_ne; [exact Hk|].
      intros ->. by apply Hnot.
    + exists n. by rewrite list_lookup_alter_ne.
Qed.

(** C7.  When the process of a [destroy] of [this] closes, [this] having
    a parent [q]: on success the entry under the name of [this] is
    deleted from the child mapping of [q] (if [this] is attached to [q],
    the entries that remain are exactly those of the other nodes),
    nothing else changes in the tree, the memoized promises and the
    partitions, and the promise of [destroy] is fulfilled with [true]; on
    failure the tree, the memoized promises and the partitions are left
    as they are and the promise is fulfilled with [false]. *)
Theorem destroy_is_atomic env st this i proc r q :
  reachable env st ->
  procs st !! i = Some proc -> p_closed proc = false ->
  p_then proc = KDestroy this r ->
  parent (nodes st !!! this) = Some q ->
  forall error code stdout stderr,
    let st' := close env st i error code stdout stderr in
    match Process_close proc error code stdout stderr with
    | Ret _ =>
        nodes st' = alter (set_keys (delete (name (nodes st !!! this)))) q (nodes st)
        /\ (forall a k c,
              attached (nodes st') a k c
              <-> attached (nodes st) a k c
                  /\ ~ (a = q /\ k = name (nodes st !!! this)))
        /\ (attached (nodes st) q (name (nodes st !!! this)) this ->
            forall a k c,
              attached (nodes st') a k c <-> attached (nodes st) a k c /\ c <> this)
        /\ results st' !! r = Some (Fulfilled (VBool true))
        /\ (forall r', r' <> r -> results st' !! r' = results st !! r')
        /\ items st' = items st /\ hosts32 st' = hosts32 st
        /\ hosts64 st' = hosts64 st
    | Throw _ =>
        results st' !! r = Some (Fulfilled (VBool false))
        /\ (forall r', r' <> r -> results st' !! r' = results st !! r')
        /\ nodes st' = nodes st /\ items st' = items st
        /\ hosts32 st' = hosts32 st /\ hosts64 st' = hosts64 st
    end.
Proof.
  intros Hreach Hi Hc Hk Hq error code stdout stderr st'. subst st'.
  assert (Hr : r < length (results st)).
  { apply (reachable_results_ok env st Hreach i proc r Hi). by rewrite Hk. }
  destruct (reachable_store_ok env st Hreach) as ([_ Ht] & _).
  unfold close. rewrite Hi, Hc, Hk. cbn [continue].
  destruct (Process_close proc error code stdout stderr) as [out|e].
  - set (st1 := with_nodes _ _).
    destruct (resolve_lookup r (Fulfilled (VBool true)) st1 Hr) as [Hr1 Hr2].
    assert (Hn : nodes st1
                 = alter (set_keys (delete (name (nodes st !!! this)))) q (nodes st)).
    { subst st1. simpl. by rewrite Hq. }
    split; [exact Hn|]. split; [|split].
    + intros a k c. cbn [resolve with_results nodes]. rewrite Hn.
      apply attached_alter_delete.
    + intros Hatt a k c. cbn [resolve with_results nodes]. rewrite Hn.
      rewrite attached_alter_delete. split.
      * intros [Ha Hnot]. split; [exact Ha|]. intros ->. apply Hnot.
        destruct Ha as (n & Hn' & Hk').
        destruct (Ht _ _ _ _ Hn' Hk') as (cn & Hcn & Hcp & Hcname).
        rewrite (list_lookup_total_correct _ _ _ Hcn) in Hq |- *.
        split; congruence.
      * intros [Ha Hne]. split; [exact Ha|]. intros [-> ->].
        destruct Ha as (n & Hn' & Hk'), Hatt as (n2 & Hn2 & Hk2). congruence.
    + split; [exact Hr1|]. split; [exact Hr2|]. by repeat split.
  - set (st1 := with_procs _ _).
    destruct (resolve_lookup r (Fulfilled (VBool false)) st1 Hr) as [Hr1 Hr2].
    split; [exact Hr1|]. split; [exact Hr2|]. by repeat split.
Qed.

Lemma like_refl ns : like ns ns.
Proof. split; [reflexivity | by intros a]. Qed.

Lemma lookup_total_alter_keys (ns : list KeyImp) g p a :
  alter (set_keys g) p ns !!! a
  = if decide (a = p /\ p < length ns) then set_keys g (ns !!! a) else ns !!! a.
Proof.
  case_decide as H.
  - destruct H as [-> Hlt]. by rewrite list_lookup_total_alter_eq.
  - destruct (decide (a = p)) as [->|Hne].
    + assert (Hge : length ns <= p) by (destruct (Nat.lt_ge_cases p (length ns)); tauto).
      rewrite !list_lookup_total_alt, list_lookup_alter_eq.
      by rewrite (lookup_ge_None_2 ns p Hge).
    + by rewrite list_lookup_total_alter_ne.
Qed.

Lemma like_alter_keys ns0 ns g p : like ns0 ns -> like ns0 (alter (set_keys g) p ns).
Proof.
  intros [Hl Hs]. split; [by rewrite length_alter|]. intros a.
  rewrite lookup_total_alter_keys. case_decide; apply Hs.
Qed.

Lemma keys_alter_delete (ns : list KeyImp) k0 p a k :
  (a = p /\ k = k0 -> _keys (alter (set_keys (delete k0)) p ns !!! a) !! k = None)
  /\ (~ (a = p /\ k = k0) ->
      _keys (alter (set_keys (delete k0)) p ns !!! a) !! k = _keys (ns !!! a) !! k).
Proof.
  rewrite lookup_total_alter_keys. case_decide as H.
  - destruct H as [-> Hlt]. simpl. split.
    + intros [_ ->]. apply lookup_delete_eq.
    + intros Hnot. apply lookup_delete_ne. intros ->. by apply Hnot.
  - split; [|reflexivity]. intros [-> ->].
    assert (Hge : length ns <= p) by (destruct (Nat.lt_ge_cases p (length ns)); tauto).
    rewrite list_lookup_total_alt, (lookup_ge_None_2 ns p Hge). apply lookup_empty.
Qed.

Lemma set_add_spec p ps :
  (NoDup ps -> NoDup (set_add p ps)) /\ (forall q, q ∈ set_add p ps <-> q ∈ ps \/ q = p).
Proof.
  unfold set_add. case_bool_decide as H.
  - split; [done|]. intros q. split; [by left|]. intros [? | ->]; assumption.
  - split.
    + intros Hnd. apply NoDup_app. split; [exact Hnd|]. split.
      * intros x Hx Hx'. apply list_elem_of_singleton in Hx'. by subst.
      * apply NoDup_singleton.
    + intros q. rewrite elem_of_app, list_elem_of_singleton. tauto.
Qed.

(** What the loop over [dirty] does, every listed node having a parent:
    it returns the distinct parents and deletes, in each parent, the
    entries under the names of its listed children; nothing else. *)
Lemma detach_dirty_spec ns0 ds :
  forall ns ps,
    like ns0 ns -> (forall d, d ∈ ds -> is_Some (parent (ns0 !!! d))) -> NoDup ps ->
    exists ps',
      (detach_dirty ns ds ps).2 = Ret ps' /\ NoDup ps'
      /\ (forall q, q ∈ ps' <-> q ∈ ps \/ exists d, d ∈ ds /\ parent (ns0 !!! d) = Some q)
      /\ like ns0 (detach_dirty ns ds ps).1
      /\ (forall a k,
            (detached ns0 ds a k -> _keys ((detach_dirty ns ds ps).1 !!! a) !! k = None)
            /\ (~ detached ns0 ds a k ->
                _keys ((detach_dirty ns ds ps).1 !!! a) !! k = _keys (ns !!! a) !! k)
            /\ (forall c, _keys ((detach_dirty ns ds ps).1 !!! a) !! k = Some c ->
                          _keys (ns !!! a) !! k = Some c)).
Proof.
  induction ds as [|d rest IH]; intros ns ps Hlike Hpar Hnd; cbn [detach_dirty].
  - exists ps. simpl. split; [reflexivity|]. split; [exact Hnd|]. split.
    { intros q. split; [by left|]. intros [?|(d & Hd & _)]; [done|].
      by apply elem_of_nil in Hd. }
    split; [exact Hlike|]. intros a k. split; [|by split].
    intros (d & Hd & _). by apply elem_of_nil in Hd.
  - destruct (Hpar d (list_elem_of_here _ _)) as [p Hp].
    pose proof (proj2 Hlike d) as (Hname & Hparent & _).
    rewrite Hparent, Hp, Hname.
    set (ns1 := alter (set_keys (delete (name (ns0 !!! d)))) p ns).
    destruct (set_add_spec p ps) as [Hnd1 Hin1].
    destruct (IH ns1 (set_add p ps) (like_alter_keys ns0 ns _ p Hlike)
                (fun d' Hd' => Hpar d' (list_elem_of_further _ _ _ Hd')) (Hnd1 Hnd))
      as (ps' & Hret & Hnd' & Hin' & Hlike' & Hkeys).
    exists ps'. split; [exact Hret|]. split; [exact Hnd'|]. split.
    { intros q. rewrite Hin', Hin1. split.
      - intros [[? | ->]|(d' & Hd' & Hq)]; [by left | right | right].
        + exists d. split; [apply list_elem_of_here | exact Hp].
        + exists d'. split; [by apply list_elem_of_further | exact Hq].
      - intros [?|(d' & Hd' & Hq)]; [left; by left|].
        apply elem_of_cons in Hd' as [-> | Hd'].
        + left. right. congruence.
        + right. by exists d'. }
    split; [exact Hlike'|]. intros a k.
    destruct (Hkeys a k) as (HA & HB & HC).
    destruct (keys_alter_delete ns (name (ns0 !!! d)) p a k) as [Hdel Hkeep].
    fold ns1 in Hdel, Hkeep.
    assert (HC' : forall c, _keys ((detach_dirty ns1 rest (set_add p ps)).1 !!! a) !! k
                            = Some c -> _keys (ns !!! a) !! k = Some c).
    { intros c Hc. apply HC in Hc.
      destruct (decide (a = p /\ k = name (ns0 !!! d))) as [Heq|Hneq].
      - rewrite (Hdel Heq) in Hc. discriminate.
      - by rewrite (Hkeep Hneq) in Hc. }
    split; [|split; [|exact HC']].
    + intros (d' & Hd' & Hpd' & Hnd'').
      apply elem_of_cons in Hd' as [-> | Hd'].
      * destruct (_keys ((detach_dirty ns1 rest (set_add p ps)).1 !!! a) !! k)
          as [c|] eqn:Hc; [|reflexivity].
        specialize (HC c eq_refl). rewrite Hdel in HC; [discriminate|]. split; congruence.
      * apply HA. by exists d'.
    + intros Hnot. rewrite HB.
      * apply Hkeep. intros [-> ->]. apply Hnot. exists d.
        split; [apply list_elem_of_here | by split].
      * intros (d' & Hd' & ?). apply Hnot. exists d'.
        split; [by apply list_elem_of_further | assumption].
Qed.

Lemma rereads_spec env parents :
  forall st,
    NoDup parents -> Forall (fun p => p < length (nodes st)) parents ->
    let st' := fold_left (fun st p => (reread env st p).1) parents st in
    (exists new, procs st' = procs st ++ new /\ Forall2 (rereading st') parents new)
    /\ (exists more, items st' = items st ++ more)
    /\ results st' = results st /\ hosts32 st' = hosts32 st
    /\ hosts64 st' = hosts64 st
    /\ length (nodes st') = length (nodes st)
    /\ (forall a, a ∉ parents -> nodes st' !!! a = nodes st !!! a)
    /\ (forall a, _keys (nodes st' !!! a) = _keys (nodes st !!! a)).
Proof.
  induction parents as [|p rest IH]; intros st Hnd Hall; cbn [fold_left].
  - cbv zeta. split; [exists []; split; [by rewrite app_nil_r | constructor]|].
    split; [exists []; by rewrite app_nil_r|]. by repeat split.
  - apply NoDup_cons in Hnd as [Hnotin Hnd]. inversion Hall as [|? ? Hp Hrest]; subst.
    destruct (reread_spec env st p Hp)
      as (_ & Hit & Hitems & Hres & H32 & H64 & Hframe & Hsame & Hlen & proc & Hpr & Hk & Hc & Ha).
    set (st1 := (reread env st p).1) in *.
    assert (Hrest1 : Forall (fun p => p < length (nodes st1)) rest) by (by rewrite Hlen).
    destruct (IH st1 Hnd Hrest1)
      as ((new & Hnew & Hf2) & (more & Hmore) & Hres' & H32' & H64' & Hlen' & Hframe' & Hsame').
    cbv zeta. set (st' := fold_left _ rest st1) in *.
    split; [|split; [|repeat split; try congruence]].
    + exists (proc :: new). split; [rewrite Hnew, Hpr, <- app_assoc; reflexivity|].
      constructor; [|exact Hf2]. exists (length (items st)).
      split; [exact Hk|]. split; [exact Ha|]. split; [exact Hc|]. split.
      * rewrite Hmore, Hitems, <- app_assoc. rewrite lookup_app_r by lia.
        by rewrite Nat.sub_diag.
      * rewrite (Hframe' p Hnotin). exact Hit.
    + exists ((Pending, []) :: more). rewrite Hmore, Hitems, <- app_assoc. reflexivity.
    + intros a Hna. apply not_elem_of_cons in Hna as [Hne Hna].
      rewrite (Hframe' a Hna). by apply Hframe.
    + intros a. rewrite Hsame'. apply Hsame.
Qed.

Lemma attached_lookup_total ns a k c :
  attached ns a k c <-> _keys (ns !!! a) !! k = Some c.
Proof.
  unfold attached. split.
  - intros (n & Hn & Hk). by rewrite (list_lookup_total_correct _ _ _ Hn).
  - intros Hk. exists (ns !!! a). split; [|exact Hk]. by eapply lookup_total_keys.
Qed.

(** C9.  When the process of an [importreg] with a list of nodes closes,
    every listed node having a parent: on success the promise is
    fulfilled with [true] at once; in each parent the entries under the
    names of its listed children are deleted and no other entry of any
    node changes (if the listed nodes are attached, the nodes detached
    are exactly the listed ones); and exactly one QUERY is spawned per
    distinct parent, still running, its promise pending.  On failure
    nothing changes but the promise, fulfilled with [false]. *)
Theorem importreg_targeted env st i proc view ds r :
  reachable env st ->
  procs st !! i = Some proc -> p_closed proc = false ->
  p_then proc = KImport view (Some ds) r ->
  (forall d, d ∈ ds -> is_Some (parent (nodes st !!! d))) ->
  forall error code stdout stderr,
    let st' := close env st i error code stdout stderr in
    match Process_close proc error code stdout stderr with
    | Ret _ =>
        results st' !! r = Some (Fulfilled (VBool true))
        /\ (forall r', r' <> r -> results st' !! r' = results st !! r')
        /\ hosts32 st' = hosts32 st /\ hosts64 st' = hosts64 st
        /\ (forall a k,
              (detached (nodes st) ds a k -> _keys (nodes st' !!! a) !! k = None)
              /\ (~ detached (nodes st) ds a k ->
                  _keys (nodes st' !!! a) !! k = _keys (nodes st !!! a) !! k))
        /\ ((forall d, d ∈ ds ->
               exists q, parent (nodes st !!! d) = Some q
                         /\ attached (nodes st) q (name (nodes st !!! d)) d) ->
            forall a k c,
              attached (nodes st') a k c <-> attached (nodes st) a k c /\ c ∉ ds)
        /\ exists parents new,
             NoDup parents
             /\ (forall q, q ∈ parents
                           <-> exists d, d ∈ ds /\ parent (nodes st !!! d) = Some q)
             /\ procs st' = alter close_process i (procs st) ++ new
             /\ Forall2 (rereading st') parents new
    | Throw _ =>
        results st' !! r = Some (Fulfilled (VBool false))
        /\ st' = resolve r (Fulfilled (VBool false))
                   (with_procs (alter close_process i) st)
    end.
Proof.
  intros Hreach Hi Hc Hk Hpar error code stdout stderr st'. subst st'.
  assert (Hr : r < length (results st)).
  { apply (reachable_results_ok env st Hreach i proc r Hi). by rewrite Hk. }
  unfold close. rewrite Hi, Hc, Hk. cbn [continue].
  destruct (Process_close proc error code stdout stderr) as [out|e];
    [|split; [by apply resolve_lookup | reflexivity]].
  unfold import_done. set (st0 := with_procs (alter close_process i) st).
  change (nodes st0) with (nodes st).
  destruct (detach_dirty_spec (nodes st) ds (nodes st) [] (like_refl _) Hpar (NoDup_nil_2))
    as (parents & Hret & Hnd & Hin & Hlike & Hkeys).
  destruct (detach_dirty (nodes st) ds []) as [ns ps]. cbn [fst snd] in *. subst ps.
  set (st1 := with_nodes (fun _ => ns) st0).
  destruct (reachable_store_ok env st Hreach) as (Ht & _).
  assert (Hvalid : Forall (fun p => p < length (nodes st1)) parents).
  { apply Forall_forall. intros q Hq. apply Hin in Hq as [Hq|(d & Hd & Hq)];
      [by apply elem_of_nil in Hq|].
    simpl. rewrite (proj1 Hlike).
    pose proof (lookup_total_parent _ _ _ Hq) as Hdv.
    pose proof (proj1 Ht _ _ _ Hdv Hq). pose proof (lookup_lt_Some _ _ _ Hdv). lia. }
  destruct (rereads_spec env parents st1 Hnd Hvalid)
    as ((new & Hnew & Hf2) & _ & Hres & H32 & H64 & Hlen & _ & Hsame).
  set (st2 := fold_left _ parents st1) in *.
  assert (Hkeys' : forall a k,
             (detached (nodes st) ds a k -> _keys (nodes st2 !!! a) !! k = None)
             /\ (~ detached (nodes st) ds a k ->
                 _keys (nodes st2 !!! a) !! k = _keys (nodes st !!! a) !! k)).
  { intros a k. rewrite Hsame. destruct (Hkeys a k) as (HA & HB & _). by split. }
  assert (Hr2 : r < length (results st2)) by (by rewrite Hres).
  destruct (resolve_lookup r (Fulfilled (VBool true)) st2 Hr2) as [Hres1 Hres2].
  split; [exact Hres1|].
  split; [intros r' Hne; rewrite (Hres2 r' Hne); by rewrite Hres|].
  split; [exact H32|]. split; [exact H64|].
  split; [exact Hkeys'|]. split.
  - intros Hatt a k c. simpl. rewrite !attached_lookup_total. split.
    + intros Hc'. assert (Hold : _keys (nodes st !!! a) !! k = Some c).
      { rewrite Hsame in Hc'. by apply (Hkeys a k). }
      split; [exact Hold|]. intros Hcin.
      pose proof (lookup_total_keys _ _ _ _ Hold) as Ha.
      destruct (proj2 Ht _ _ _ _ Ha Hold) as (cn & Hcn & Hcp & Hcname).
      rewrite (proj1 (Hkeys' a k)) in Hc'; [discriminate|].
      exists c. rewrite (list_lookup_total_correct _ _ _ Hcn). by repeat split.
    + intros [Hold Hnotin]. rewrite (proj2 (Hkeys' a k)); [exact Hold|].
      intros (d & Hd & Hpd & Hnd'). destruct (Hatt d Hd) as (q & Hq & Hqa).
      apply attached_lookup_total in Hqa. rewrite Hpd in Hq. injection Hq as <-.
      rewrite Hnd' in Hqa. rewrite Hold in Hqa. injection Hqa as ->. contradiction.
  - exists parents, new. split; [exact Hnd|]. split.
    + intros q. rewrite Hin. split; [intros [H|H]; [by apply elem_of_nil in H | exact H]
                                   | by right].
    + split; [exact Hnew|].
      eapply Forall2_impl; [exact Hf2|]. intros q pr (pid & ? & ? & ? & ? & ?).
      exists pid. by repeat split.
Qed.

Lemma ancestor_inv ns r a :
  ancestor ns r a ->
  exists n p, ns !! a = Some n /\ parent n = Some p /\ (p = r \/ ancestor ns r p).
Proof. destruct 1 as [a n p Ha Hp|a n p b Ha Hp Hanc]; exists n, p; auto. Qed.

(** With enough fuel, the loop of [getRootAndPath] ends at the root. *)
Lemma climb_root ns r fuel :
  tree_ok ns -> is_root ns r ->
  forall p key, p < fuel -> p = r \/ ancestor ns r p -> (climb fuel ns p key).1 = r.
Proof.
  intros Ht (rn & Hrn & Hrp). induction fuel as [|f IH]; intros p key Hlt Hp; [lia|].
  cbn [climb]. destruct Hp as [->|Hanc].
  - rewrite (list_lookup_total_correct _ _ _ Hrn), Hrp. reflexivity.
  - destruct (ancestor_inv _ _ _ Hanc) as (n & pp & Hn & Hpp & Hup).
    rewrite (list_lookup_total_correct _ _ _ Hn), Hpp.
    apply IH; [|exact Hup]. pose proof (proj1 Ht _ _ _ Hn Hpp). lia.
Qed.

Lemma getRootAndPath_root ns r a :
  tree_ok ns -> is_root ns r -> a = r \/ ancestor ns r a ->
  (getRootAndPath ns a).1 = r.
Proof.
  intros Ht Hr Ha. unfold getRootAndPath. destruct Ha as [->|Hanc].
  - destruct Hr as (rn & Hrn & Hrp).
    rewrite (list_lookup_total_correct _ _ _ Hrn), Hrp. reflexivity.
  - destruct (ancestor_inv _ _ _ Hanc) as (n & p & Hn & Hp & Hup).
    rewrite (list_lookup_total_correct _ _ _ Hn), Hp.
    pose proof (climb_root ns r (length ns) Ht Hr p (name n)) as Hc.
    destruct (climb (length ns) ns p (name n)) as [p' key]. cbn [fst] in Hc.
    rewrite Hc; [by destruct (name (ns !!! r))| |exact Hup].
    pose proof (proj1 Ht _ _ _ Hn Hp). pose proof (lookup_lt_Some _ _ _ Hn). lia.
Qed.

Lemma extends_ancestor ns ns' b a : extends ns ns' -> ancestor ns b a -> ancestor ns' b a.
Proof.
  intros He. induction 1 as [a n p Ha Hp|a n p b Ha Hp _ IH];
    destruct (He _ _ Ha) as (n' & Hn' & _ & Hp' & _); rewrite Hp in Hp'.
  - eapply ancestor_parent; eassumption.
  - eapply ancestor_up; eassumption.
Qed.

(** C10.  In every reachable state: a [getRawKey] without a view leaves
    the 32-bit partition as it is and resolves the key under the root that
    the 64-bit partition holds for the host, found there or created there;
    [getView] of the node it returns is [64].  When the process of an
    [importreg] without view and without list closes with success, the
    64-bit partition is emptied and the 32-bit partition and the nodes are
    left as they are.  Such an [importreg] passes no [/reg:] argument. *)
Theorem default_view_is_64 env st :
  reachable env st ->
  (forall key st' n,
     getRawKey st key None = Ret (st', n) ->
     hosts32 st' = hosts32 st
     /\ (exists host r,
           hosts64 st' !! host = Some r
           /\ (getRootAndPath (nodes st') n).1 = r
           /\ (hosts64 st !! host = Some r /\ hosts64 st' = hosts64 st
               \/ hosts64 st !! host = None /\ r = length (nodes st)
                  /\ hosts64 st' = <[host := r]> (hosts64 st)))
     /\ getView st' n None = js "64")
  /\ (forall i proc r error code stdout stderr out,
        procs st !! i = Some proc -> p_closed proc = false ->
        p_then proc = KImport None None r ->
        Process_close proc error code stdout stderr = Ret out ->
        let st' := close env st i error code stdout stderr in
        hosts64 st' = ∅ /\ hosts32 st' = hosts32 st /\ nodes st' = nodes st
        /\ results st' !! r = Some (Fulfilled (VBool true)))
  /\ (forall file,
        importreg env st file None None
        = (spawn (regExec env) [js "IMPORT"; file]
             (KImport None None (length (results st))) (new_result st).1,
           length (results st))).
Proof.
  intros Hreach. pose proof (reachable_inv env st Hreach) as Hi.
  split; [|split; [|reflexivity]].
  - intros key st' n. unfold getRawKey. destruct (split_host key) as [host key1].
    destruct (find_hive key1) as [[hive key2]|e]; cbn [mbind res_bind]; [|discriminate].
    destruct (_ && _); [discriminate|].
    destruct (negb _); [discriminate|].
    cbn [view_is_illegal]. rewrite bool_decide_eq_false_2 by discriminate.
    destruct (host_root_preserved (fun _ => True) st false host Hi)
      as (Hp1 & Hroot & Hh64 & Hh32).
    assert (Hcase : hosts64 st !! host = Some (host_root st false host).2
                    /\ hosts64 (host_root st false host).1 = hosts64 st
                    \/ hosts64 st !! host = None
                       /\ (host_root st false host).2 = length (nodes st)
                       /\ hosts64 (host_root st false host).1
                          = <[host := (host_root st false host).2]> (hosts64 st)).
    { unfold host_root. destruct (hosts64 st !! host); [by left | by right]. }
    destruct (host_root st false host) as [st1 p]. cbn [fst snd] in *.
    intros [= Hsub].
    pose proof Hroot as (rn & Hrn & Hrp). pose proof (lookup_lt_Some _ _ _ Hrn) as Hlt.
    unfold subkey in Hsub.
    destruct (subkey_loop_good (fun _ => True) (split key2 [bslash]) (nodes st1) p Hlt
                (proj1 (proj1 Hp1))) as (Hg & He & _ & Hanc).
    destruct (subkey_loop (nodes st1) p (split key2 [bslash])) as [ns q].
    cbn [fst snd] in *. injection Hsub as <- <-. cbn [hosts32 hosts64 nodes with_nodes].
    assert (Hroot' : is_root ns p).
    { destruct (He _ _ Hrn) as (rn' & Hrn' & _ & Hrp' & _). exists rn'.
      split; [exact Hrn' | congruence]. }
    assert (Hgr : (getRootAndPath ns q).1 = p).
    { apply getRootAndPath_root; [apply Hg | exact Hroot'|].
      destruct Hanc as [->|Hanc]; [by left | by right]. }
    split; [exact Hh32|]. split; [by exists host, p|].
    unfold getView, view_of. cbn [default nodes hosts32 with_nodes]. rewrite Hgr.
    rewrite bool_decide_eq_false_2; [reflexivity|]. intros H32.
    destruct (proj1 Hp1) as (_ & [_ Hd] & _). by eapply Hd.
  - intros i proc r error code stdout stderr out Hp Hc Hk Ho st'. subst st'.
    assert (Hr : r < length (results st)).
    { apply (reachable_results_ok env st Hreach i proc r Hp). by rewrite Hk. }
    unfold close. rewrite Hp, Hc, Hk, Ho. cbn [continue import_done].
    rewrite bool_decide_eq_false_2 by discriminate.
    split; [reflexivity|]. split; [reflexivity|]. split; [reflexivity|].
    by apply resolve_lookup.
Qed.

(** ** Examples: the theorems at concrete stores *)

Lemma sample_state_quiet : reachable_quiet example_env sample_state.
Proof.
  unfold sample_state.
  apply reaches_step; [apply reaches_step; [apply reaches_step; [apply reaches_initial|]|]|].
  - split; [exact I | reflexivity].
  - split; [vm_compute; lia | reflexivity].
  - split; [exact I | vm_compute; reflexivity].
Defined.

Lemma import_state_reachable : reachable example_env import_state.
Proof.
  unfold import_state.
  apply reaches_step; [apply reaches_step; [apply reaches_step; [apply reaches_initial|]|]|];
    exact I.
Defined.

Lemma destroy_state_reachable : reachable example_env destroy_state.
Proof.
  unfold destroy_state.
  apply reaches_step; [apply reaches_step; [apply reaches_initial | exact I]|].
  vm_compute. lia.
Defined.

(** C3, the claim as stated fails: after the query of [HKLM\Software\Test]
    the hive (node 1) is confirmed and the root (node 0) is its ancestor,
    but the root is not confirmed. *)
Lemma root_is_not_confirmed :
  confirmed (nodes sample_state) 1
  /\ ancestor (nodes sample_state) 0 1
  /\ ~ confirmed (nodes sample_state) 0
  /\ ~ spec_existence_upward (nodes sample_state).
Proof.
  assert (H1 : confirmed (nodes sample_state) 1).
  { eexists. split; [vm_compute; reflexivity | reflexivity]. }
  assert (H2 : ancestor (nodes sample_state) 0 1).
  { eapply ancestor_parent; [vm_compute; reflexivity | reflexivity]. }
  assert (H3 : ~ confirmed (nodes sample_state) 0).
  { intros (n & Hn & Hf). vm_compute in Hn. injection Hn as <-. discriminate. }
  split; [exact H1|]. split; [exact H2|]. split; [exact H3|].
  intros Hspec. apply H3. exact (Hspec 1 0 H1 H2).
Qed.

(** Why the runs of C3 exclude a callback that raises: on
    [throwing_output] the child [Sub] (node 4) is confirmed by
    [add_found_key], then [BigInt] raises and the closing loop is skipped;
    the key read (node 3), which has a parent, stays unconfirmed, and the
    memoized promise is rejected. *)
Lemma throwing_callback_skips_marking :
  reachable example_env throwing_state
  /\ confirmed (nodes throwing_state) 4
  /\ ancestor (nodes throwing_state) 3 4
  /\ has_parent (nodes throwing_state) 3
  /\ ~ confirmed (nodes throwing_state) 3
  /\ items throwing_state = [(Rejected SyntaxError, [])].
Proof.
  split; [|split; [|split; [|split; [|split]]]].
  - unfold throwing_state.
    apply reaches_step; [apply reaches_step; [apply reaches_step;
      [apply reaches_initial | exact I] | vm_compute; lia] | exact I].
  - eexists. split; [vm_compute; reflexivity | reflexivity].
  - eapply ancestor_parent; [vm_compute; reflexivity | reflexivity].
  - eexists. split; [vm_compute; reflexivity | by eexists].
  - intros (n & Hn & Hf). vm_compute in Hn. injection Hn as <-. discriminate.
  - vm_compute. reflexivity.
Qed.

(** C3: the theorem at the sample store: the key read (node 3) and its
    ancestors below the root are confirmed. *)
Lemma existence_witness :
  reachable_quiet example_env sample_state
  /\ (forall b, ancestor (nodes sample_state) b 3 ->
                has_parent (nodes sample_state) b -> confirmed (nodes sample_state) b)
  /\ (forall a, is_root (nodes sample_state) a -> ~ confirmed (nodes sample_state) a).
Proof.
  pose proof (existence_propagates_below_root example_env sample_state sample_state_quiet)
    as (Hup & Hroot & _).
  split; [exact sample_state_quiet|]. split; [|exact Hroot].
  intros b. apply Hup. eexists. split; [vm_compute; reflexivity | reflexivity].
Defined.

(** C4: the theorem at a node just resolved: the second read returns the
    promise of the first and changes nothing. *)
Lemma read_witness :
  let st := step example_env initial (EgetRawKey (js "HKLM\A") None) in
  2 < length (nodes st)
  /\ read example_env (read example_env st 2).1 2
     = ((read example_env st 2).1, (read example_env st 2).2).
Proof.
  cbv zeta.
  assert (H : 2 < length (nodes (step example_env initial (EgetRawKey (js "HKLM\A") None))))
    by (vm_compute; lia).
  split; [exact H|]. exact (proj1 (proj2 (read_is_single_flight example_env _ 2 H))).
Defined.

(** C7: the theorem at a running [destroy] of node 2: if the command
    succeeds the entry of the node is deleted in its parent, node 1, and
    the promise is fulfilled with [true]; if it fails the nodes are left
    as they are and the promise is fulfilled with [false]. *)
Lemma destroy_witness :
  reachable example_env destroy_state
  /\ parent (nodes destroy_state !!! 2) = Some 1
  /\ (exists proc, procs destroy_state !! 0 = Some proc /\ p_closed proc = false
                   /\ p_then proc = KDestroy 2 0)
  /\ nodes (close example_env destroy_state 0 None (Some 0%Z) [] [])
     = alter (set_keys (delete (js "A"))) 1 (nodes destroy_state)
  /\ results (close example_env destroy_state 0 None (Some 0%Z) [] []) !! 0
     = Some (Fulfilled (VBool true))
  /\ results (close example_env destroy_state 0 None (Some 1%Z) [] []) !! 0
     = Some (Fulfilled (VBool false))
  /\ nodes (close example_env destroy_state 0 None (Some 1%Z) [] [])
     = nodes destroy_state.
Proof.
  assert (Hq : parent (nodes destroy_state !!! 2) = Some 1) by reflexivity.
  assert (Hp : procs destroy_state !! 0 = Some (default (mkProcess [] [] (KBool 0) true)
                                                  (procs destroy_state !! 0)))
    by (vm_compute; reflexivity).
  pose proof (destroy_is_atomic example_env destroy_state 2 0 _ 0 1
                destroy_state_reachable Hp eq_refl eq_refl Hq) as H.
  split; [exact destroy_state_reachable|].
  split; [exact Hq|]. split; [eexists; split; [exact Hp | split; reflexivity]|].
  split; [exact (proj1 (H None (Some 0%Z) [] []))|].
  split; [exact (proj1 (proj2 (proj2 (proj2 (H None (Some 0%Z) [] [])))))|].
  split; [exact (proj1 (H None (Some 1%Z) [] []))|].
  exact (proj1 (proj2 (proj2 (H None (Some 1%Z) [] [])))).
Defined.

(** C9: the theorem at the running import that lists nodes 2 and 3,
    closing with success: the promise is fulfilled with [true] and the
    distinct parents are each read again once. *)
Lemma import_witness :
  let st' := close example_env import_state 0 None (Some 0%Z) [] [] in
  reachable example_env import_state
  /\ (forall d, d ∈ [2; 3] -> is_Some (parent (nodes import_state !!! d)))
  /\ results st' !! 0 = Some (Fulfilled (VBool true))
  /\ ~ attached (nodes st') 1 (js "A") 2
  /\ exists parents new,
       NoDup parents
       /\ (forall q, q ∈ parents
                     <-> exists d, d ∈ [2; 3] /\ parent (nodes import_state !!! d) = Some q)
       /\ procs st' = alter close_process 0 (procs import_state) ++ new
       /\ Forall2 (rereading st') parents new.
Proof.
  cbv zeta.
  assert (Hpar : forall d, d ∈ [2; 3] -> is_Some (parent (nodes import_state !!! d))).
  { intros d Hd. apply elem_of_cons in Hd as [-> | Hd]; [by exists 1|].
    apply list_elem_of_singleton in Hd as ->. by exists 1. }
  assert (Hp : procs import_state !! 0
               = Some (default (mkProcess [] [] (KBool 0) true) (procs import_state !! 0)))
    by (vm_compute; reflexivity).
  pose proof (importreg_targeted example_env import_state 0 _ None [2; 3] 0
                import_state_reachable Hp eq_refl eq_refl Hpar None (Some 0%Z) [] [])
    as (Hres & _ & _ & _ & Hkeys & _ & Hprocs).
  split; [exact import_state_reachable|]. split; [exact Hpar|].
  split; [exact Hres|]. split; [|exact Hprocs].
  intros Hatt. apply attached_lookup_total in Hatt.
  rewrite (proj1 (Hkeys 1 (js "A"))) in Hatt; [discriminate|].
  exists 2. split; [apply list_elem_of_here | by split].
Defined.

(** C10: the theorem at a reachable store: a key resolved without a view
    is in the 64-bit view and the 32-bit partition is untouched. *)
Lemma default_view_witness :
  reachable example_env import_state
  /\ exists st' n,
       getRawKey import_state (js "HKCU\X") None = Ret (st', n)
       /\ getView st' n None = js "64"
       /\ hosts32 st' = hosts32 import_state.
Proof.
  split; [exact import_state_reachable|].
  assert (Hg : exists st' n, getRawKey import_state (js "HKCU\X") None = Ret (st', n)).
  { eexists _, _. vm_compute. reflexivity. }
  destruct Hg as (st' & n & Hg). exists st', n. split; [exact Hg|].
  destruct (proj1 (default_view_is_64 example_env import_state import_state_reachable)
              _ _ _ Hg) as (H32 & _ & Hview).
  by split.
Defined.

(** * Further properties of the module *)

(** ** Resolving keys *)

Lemma startsWith_nil s : startsWith s [] = true.
Proof. by destruct s. Qed.

Lemma split_go_join c0 s cur :
  join [c0] (split_go [c0] 0 s cur) = cur ++ s
  /\ split_go [c0] 0 s cur <> [].
Proof.
  revert cur. induction s as [|c s IH]; intros cur; cbn [split_go].
  - simpl. by rewrite app_nil_r.
  - cbn [startsWith]. rewrite startsWith_nil.
    destruct (c0 =? c)%N eqn:Hc; cbn [andb length Nat.sub].
    + apply N.eqb_eq in Hc as ->. destruct (IH []) as [Hj Hne]. split; [|discriminate].
      cbn [join]. destruct (split_go [c] 0 s []) as [|x l] eqn:Hs; [by destruct Hne|].
      rewrite Hj. reflexivity.
    + destruct (IH (cur ++ [c])) as [Hj Hne]. split; [|exact Hne].
      rewrite Hj. by rewrite <- app_assoc.
Qed.

Lemma join_split (s : jsstring) c0 : join [c0] (split s [c0]) = s.
Proof. unfold split. by destruct (split_go_join c0 s []) as [-> _]. Qed.

Lemma join_snoc sep l (x : jsstring) :
  join sep (l ++ [x]) = foldr (fun s acc => s ++ sep ++ acc) x l.
Proof.
  induction l as [|a l IH]; [reflexivity|]. cbn [foldr app join].
  rewrite <- IH. by destruct (l ++ [x]) eqn:Hl; [destruct l; discriminate|].
Qed.

Lemma chain_extends ns ns' r segs q :
  extends ns ns' -> chain ns r segs q -> chain ns' r segs q.
Proof.
  intros He. induction 1 as [|segs q' q n _ IH Hq Hp]; [constructor|].
  destruct (He _ _ Hq) as (n' & Hn' & Hna & Hpa & _). rewrite <- Hna.
  eapply chain_step; [exact IH | exact Hn' | congruence].
Qed.

Lemma subkey_loop_chain (P : addr -> Prop) r segs :
  forall ns p pre,
    p < length ns -> good P ns -> chain ns r pre p ->
    chain (subkey_loop ns p segs).1 r (pre ++ segs) (subkey_loop ns p segs).2.
Proof.
  induction segs as [|i rest IH]; intros ns p pre Hlt Hg Hch; cbn [subkey_loop].
  - simpl. by rewrite app_nil_r.
  - replace (pre ++ i :: rest) with ((pre ++ [i]) ++ rest)
      by (by rewrite <- app_assoc).
    destruct (_keys (ns !!! p) !! i) as [c|] eqn:Hc.
    + pose proof (lookup_total_keys _ _ _ _ Hc) as Hp.
      destruct (proj2 (proj1 Hg) _ _ _ _ Hp Hc) as (cn & Hcn & Hcp & Hcname).
      apply IH; [by eapply lookup_lt_Some | exact Hg|].
      rewrite <- Hcname. by eapply chain_step.
    + set (ns1 := alter _ p (ns ++ [_])).
      assert (Hnew : ns1 !! length ns = Some (new_KeyImp i (Some p))).
      { subst ns1. rewrite list_lookup_alter_ne by lia.
        rewrite lookup_app_r by lia. by rewrite Nat.sub_diag. }
      apply IH.
      * subst ns1. rewrite length_alter, length_app. simpl. lia.
      * by apply good_add_child.
      * change i with (name (new_KeyImp i (Some p))).
        eapply chain_step; [|exact Hnew | reflexivity].
        eapply chain_extends; [apply extends_add_child | exact Hch].
Qed.

Lemma climb_chain ns r :
  tree_ok ns -> is_root ns r ->
  forall segs p, chain ns r segs p ->
  forall fuel key, p < fuel ->
    climb fuel ns p key = (r, foldr (fun s acc => s ++ [bslash] ++ acc) key segs).
Proof.
  intros Ht (rn & Hrn & Hrp). induction 1 as [|segs q' q n _ IH Hq Hp];
    intros fuel key Hlt.
  - destruct fuel as [|f]; [lia|]. cbn [climb foldr].
    by rewrite (list_lookup_total_correct _ _ _ Hrn), Hrp.
  - destruct fuel as [|f]; [lia|]. cbn [climb].
    rewrite (list_lookup_total_correct _ _ _ Hq), Hp.
    rewrite IH by (pose proof (proj1 Ht _ _ _ Hq Hp); lia).
    by rewrite foldr_app.
Qed.

Lemma getRootAndPath_chain ns r segs q :
  tree_ok ns -> is_root ns r -> chain ns r segs q -> segs <> [] ->
  getRootAndPath ns q = (r, host_prefix (name (ns !!! r)) ++ join [bslash] segs).
Proof.
  intros Ht Hr Hch Hne. destruct Hch as [|segs q' q n Hch Hq Hp]; [by destruct Hne|].
  unfold getRootAndPath. rewrite (list_lookup_total_correct _ _ _ Hq), Hp.
  rewrite (climb_chain ns r Ht Hr segs q' Hch)
    by (pose proof (proj1 Ht _ _ _ Hq Hp); pose proof (lookup_lt_Some _ _ _ Hq); lia).
  rewrite join_snoc. unfold host_prefix.
  destruct (name (ns !!! r)); [reflexivity|]. by rewrite <- !app_assoc.
Qed.

Lemma subkey_loop_keys_mono segs :
  forall ns p a k c,
    a < length ns -> _keys (ns !!! a) !! k = Some c ->
    _keys ((subkey_loop ns p segs).1 !!! a) !! k = Some c.
Proof.
  induction segs as [|i rest IH]; intros ns p a k c Ha Hk; cbn [subkey_loop];
    [exact Hk|].
  destruct (_keys (ns !!! p) !! i) as [c0|] eqn:Hc; [by apply IH|].
  apply IH; [rewrite length_alter, length_app; lia|].
  destruct (decide (a = p)) as [->|Hne].
  - rewrite list_lookup_total_alter_eq by (rewrite length_app; lia).
    rewrite lookup_total_app_l by lia. simpl.
    rewrite lookup_insert_ne; [exact Hk|]. intros ->. congruence.
  - rewrite list_lookup_total_alter_ne by congruence.
    by rewrite lookup_total_app_l by lia.
Qed.

Lemma subkey_loop_idem (P : addr -> Prop) segs :
  forall ns p,
    p < length ns -> good P ns ->
    subkey_loop (subkey_loop ns p segs).1 p segs = subkey_loop ns p segs.
Proof.
  induction segs as [|i rest IH]; intros ns p Hlt Hg; [reflexivity|].
  cbn [subkey_loop].
  destruct (_keys (ns !!! p) !! i) as [c|] eqn:Hc.
  - pose proof (lookup_total_keys _ _ _ _ Hc) as Hp.
    destruct (proj2 (proj1 Hg) _ _ _ _ Hp Hc) as (cn & Hcn & _).
    rewrite (subkey_loop_keys_mono rest ns c p i c Hlt Hc).
    rewrite IH; [|by eapply lookup_lt_Some | exact Hg].
    by destruct (subkey_loop ns c rest).
  - set (ns1 := alter _ p (ns ++ [_])).
    assert (H1 : _keys (ns1 !!! p) !! i = Some (length ns)).
    { subst ns1. rewrite list_lookup_total_alter_eq by (rewrite length_app; lia).
      simpl. by rewrite lookup_insert_eq. }
    assert (Hl1 : length ns1 = S (length ns)).
    { subst ns1. rewrite length_alter, length_app. simpl. lia. }
    rewrite (subkey_loop_keys_mono rest ns1 (length ns) p i (length ns)); [|lia | exact H1].
    rewrite IH; [|lia | by apply good_add_child].
    by destruct (subkey_loop ns1 (length ns) rest).
Qed.

Lemma getRawKey_Ret st key view st' n :
  getRawKey st key view = Ret (st', n) ->
  exists hive key2,
    find_hive (split_host key).2 = Ret (hive, key2)
    /\ view_is_illegal view = false
    /\ let r := host_root st (bool_decide (view = Some (js "32"))) (split_host key).1 in
       (st', n) = subkey r.1 r.2 key2.
Proof.
  unfold getRawKey. destruct (split_host key) as [host key1]. cbn [fst snd].
  destruct (find_hive key1) as [[hive key2]|e]; cbn [mbind res_bind]; [|discriminate].
  destruct (_ && _); [discriminate|].
  destruct (negb _); [discriminate|].
  destruct (view_is_illegal view); [discriminate|].
  intros H. exists hive, key2. split; [reflexivity|]. split; [reflexivity|].
  cbv zeta. destruct (host_root st _ host) as [st1 p]. by injection H as <-.
Qed.

(** The root and the chain of the node [getRawKey] returns. *)
Lemma getRawKey_chain env st key view st' n :
  reachable env st -> getRawKey st key view = Ret (st', n) ->
  exists hive key2 r,
    find_hive (split_host key).2 = Ret (hive, key2)
    /\ is_root (nodes st') r /\ name (nodes st' !!! r) = (split_host key).1
    /\ (if bool_decide (view = Some (js "32")) then hosts32 st' else hosts64 st')
         !! (split_host key).1 = Some r
    /\ chain (nodes st') r (split key2 [bslash]) n
    /\ inv (fun _ => True) st'.
Proof.
  intros Hreach Hg. pose proof (reachable_inv env st Hreach) as Hi.
  destruct (getRawKey_preserved (fun _ => True) st key view st' n Hi Hg) as [[Hi' _] _].
  destruct (getRawKey_Ret _ _ _ _ _ Hg) as (hive & key2 & Hf & _ & Hsub).
  set (host := (split_host key).1) in *. cbv zeta in Hsub.
  destruct (host_root_preserved (fun _ => True) st
              (bool_decide (view = Some (js "32"))) host Hi) as (Hp1 & Hroot & Htab & _).
  destruct (host_root st _ host) as [st1 p]. cbn [fst snd] in *.
  pose proof Hroot as (rn & Hrn & Hrp). pose proof (lookup_lt_Some _ _ _ Hrn) as Hlt.
  assert (Hname : name rn = host).
  { destruct (proj1 Hp1) as (_ & [Hh _] & _).
    destruct (Hh host p) as (n0 & Hn0 & _ & Hna);
      [destruct (bool_decide _); auto|]. congruence. }
  unfold subkey in Hsub.
  pose proof (subkey_loop_chain (fun _ => True) p (split key2 [bslash]) (nodes st1) p []
                Hlt (proj1 (proj1 Hp1)) (chain_root _ _)) as Hch.
  destruct (subkey_loop_good (fun _ => True) (split key2 [bslash]) (nodes st1) p Hlt
              (proj1 (proj1 Hp1))) as (_ & He & _).
  destruct (subkey_loop (nodes st1) p (split key2 [bslash])) as [ns q].
  cbn [fst snd] in *. injection Hsub as -> ->.
  destruct (He _ _ Hrn) as (rn' & Hrn' & Hna' & Hpa' & _).
  exists hive, key2, p. split; [exact Hf|].
  split; [exists rn'; split; [exact Hrn' | congruence]|].
  split; [cbn [nodes with_nodes]; rewrite (list_lookup_total_correct _ _ _ Hrn'); congruence|].
  split; [by destruct (bool_decide _)|]. split; [exact Hch | exact Hi'].
Qed.

Lemma split_nonempty s c0 : split s [c0] <> [].
Proof. unfold split. by destruct (split_go_join c0 s []). Qed.

Lemma getRawKey_path env st key view st' n :
  reachable env st -> getRawKey st key view = Ret (st', n) ->
  exists hive key2,
    find_hive (split_host key).2 = Ret (hive, key2)
    /\ path st' n = host_prefix (split_host key).1 ++ key2.
Proof.
  intros Hreach Hg.
  destruct (getRawKey_chain env st key view st' n Hreach Hg)
    as (hive & key2 & r & Hf & Hroot & Hname & _ & Hch & Hi).
  exists hive, key2. split; [exact Hf|]. unfold path.
  rewrite (getRootAndPath_chain _ r _ n (proj1 (proj1 Hi)) Hroot Hch (split_nonempty _ _)).
  cbn [snd]. by rewrite Hname, join_split.
Qed.

(** X2.  [getRawKey] is idempotent: resolving a key again, right after,
    gives the same node and leaves the store as it is. *)
Theorem getRawKey_idempotent env st key view st' n :
  reachable env st -> getRawKey st key view = Ret (st', n) ->
  getRawKey st' key view = Ret (st', n).
Proof.
  intros Hreach Hg. pose proof (reachable_inv env st Hreach) as Hi.
  revert Hg. unfold getRawKey. destruct (split_host key) as [host key1].
  destruct (find_hive key1) as [[hive key2]|e]; cbn [mbind res_bind]; [|discriminate].
  destruct (_ && _); [discriminate|].
  destruct (negb _); [discriminate|].
  destruct (view_is_illegal view); [discriminate|].
  destruct (host_root_preserved (fun _ => True) st
              (bool_decide (view = Some (js "32"))) host Hi) as (Hp1 & Hroot & Htab & _).
  destruct (host_root st _ host) as [st1 p]. cbn [fst snd] in *.
  pose proof Hroot as (rn & Hrn & _). pose proof (lookup_lt_Some _ _ _ Hrn) as Hlt.
  intros [= Hsub]. unfold subkey in Hsub.
  pose proof (subkey_loop_idem (fun _ => True) (split key2 [bslash]) (nodes st1) p Hlt
                (proj1 (proj1 Hp1))) as Hidem.
  destruct (subkey_loop (nodes st1) p (split key2 [bslash])) as [ns q].
  cbn [fst snd] in *. injection Hsub as <- <-.
  unfold host_root. cbn [hosts32 hosts64 with_nodes].
  replace ((if bool_decide (view = Some (js "32")) then hosts32 st1 else hosts64 st1)
             !! host) with (Some p).
  unfold subkey. cbn [nodes with_nodes]. by rewrite Hidem.
Qed.

(** X3.  A node belongs to the view its key was resolved with: [getView]
    answers [32] when the view asked was [32] and [64] otherwise, and
    every command run on a node under the same root ends with the
    [/reg:] flag of that view. *)
Theorem getView_follows_view env st key view st' n :
  reachable env st -> getRawKey st key view = Ret (st', n) ->
  getView st' n None = (if bool_decide (view = Some (js "32")) then js "32" else js "64")
  /\ forall this c args k,
       (getRootAndPath (nodes st') this).1 = (getRootAndPath (nodes st') n).1 ->
       exists proc,
         procs (runCommand env st' this c args k) = procs st' ++ [proc]
         /\ last (p_args proc)
            = Some (js "/reg:" ++ if bool_decide (view = Some (js "32"))
                                  then js "32" else js "64").
Proof.
  intros Hreach Hg.
  destruct (getRawKey_chain env st key view st' n Hreach Hg)
    as (hive & key2 & r & Hf & Hroot & Hname & Htab & Hch & Hi).
  pose proof (getRootAndPath_chain _ r _ n (proj1 (proj1 Hi)) Hroot Hch (split_nonempty _ _))
    as Hgr.
  assert (Hview : view_of st' r
                  = if bool_decide (view = Some (js "32")) then js "32" else js "64").
  { unfold view_of. rewrite Hname. destruct (bool_decide (view = Some (js "32"))).
    - by rewrite bool_decide_eq_true_2.
    - rewrite bool_decide_eq_false_2; [reflexivity|]. intros H32.
      destruct Hi as (_ & [_ Hd] & _). by eapply Hd. }
  split.
  - unfold getView. cbn [default]. by rewrite Hgr.
  - intros this c args k Hsame. rewrite Hgr in Hsame. cbn [fst] in Hsame.
    unfold runCommand. destruct (getRootAndPath (nodes st') this) as [root fullpath].
    cbn [fst] in Hsame. subst root. rewrite Hview.
    destruct (bool_decide _); eexists; (split; [reflexivity|]); cbn [p_args];
      [change (js "32") with [51%N; 50%N] at 1 | change (js "64") with [54%N; 52%N] at 1];
      cbv iota; by rewrite !app_comm_cons, last_snoc.
Qed.

(** A hive name, short or long, followed by nothing or by a backslash and
    more: no host is split off, and the hive is found, in its long form. *)
Lemma hive_parts h short long rest :
  HIVES_SHORT !! h = Some short -> HIVES_LONG !! h = Some long ->
  rest = [] \/ (exists r, rest = bslash :: r) ->
  split_host (short ++ rest) = ([], short ++ rest)
  /\ split_host (long ++ rest) = ([], long ++ rest)
  /\ find_hive (short ++ rest) = Ret (h, long ++ rest)
  /\ find_hive (long ++ rest) = Ret (h, long ++ rest).
Proof.
  intros Hs Hl Hrest.
  do 5 (destruct h as [|h];
        [injection Hs as <-; injection Hl as <-;
         destruct Hrest as [->|[r ->]]; repeat split; vm_compute; reflexivity|]).
  discriminate.
Qed.


Lemma indexOf_from_first c pre tail i :
  c ∉ pre -> indexOf_from c (pre ++ c :: tail) i = Z.of_nat (i + length pre).
Proof.
  revert i. induction pre as [|a pre IH]; intros i Hc.
  - cbn [app indexOf_from]. rewrite N.eqb_refl. f_equal. simpl. lia.
  - apply not_elem_of_cons in Hc as [Ha Hc]. cbn [app indexOf_from].
    destruct (a =? c)%N eqn:He; [apply N.eqb_eq in He; congruence|].
    rewrite IH by exact Hc. f_equal. simpl. lia.
Qed.

Lemma split_host_remote host tail :
  bslash ∉ host ->
  split_host (js "\\" ++ host ++ bslash :: tail) = (host, tail).
Proof.
  intros Hh. unfold split_host.
  change (js "\\" ++ host ++ bslash :: tail)
    with (bslash :: bslash :: (host ++ bslash :: tail)).
  change (js "\\") with [bslash; bslash]. cbn [startsWith]. rewrite !N.eqb_refl.
  rewrite startsWith_nil. cbn [andb].
  unfold indexOf. cbn [drop]. rewrite drop_0, indexOf_from_first by exact Hh.
  unfold substring, substring_from, clamp. cbn [length]. rewrite length_app. cbn [length].
  rewrite Nat2Z.id. change (Z.to_nat 2) with 2.
  replace (Z.to_nat (Z.of_nat (2 + length host) + 1)) with (3 + length host) by lia.
  rewrite !Nat.min_l by lia. rewrite Nat.max_r by lia.
  replace (2 + length host - 2) with (length host) by lia.
  cbn [drop]. rewrite drop_0, take_app_length.
  f_equal. change (bslash :: bslash :: host ++ bslash :: tail)
    with ([bslash; bslash] ++ host ++ bslash :: tail).
  rewrite app_assoc. replace (3 + length host) with (length ([bslash; bslash] ++ host) + 1)
    by (rewrite length_app; simpl; lia).
  rewrite <- drop_drop, drop_app_length. reflexivity.
Qed.

Lemma split_host_prefix host h short long rest :
  bslash ∉ host ->
  HIVES_SHORT !! h = Some short -> HIVES_LONG !! h = Some long ->
  rest = [] \/ (exists r, rest = bslash :: r) ->
  split_host (host_prefix host ++ short ++ rest) = (host, short ++ rest)
  /\ split_host (host_prefix host ++ long ++ rest) = (host, long ++ rest).
Proof.
  intros Hh Hs Hl Hrest. destruct host as [|a host'].
  - destruct (hive_parts h short long rest Hs Hl Hrest) as (H1 & H2 & _). by split.
  - unfold host_prefix. rewrite <- !app_assoc.
    split; by apply (split_host_remote (a :: host')).
Qed.

(** X1.  The path of the node [getRawKey] returns is the key in canonical
    form: the host prefix if any, the long name of the hive, and the rest
    of the key as given.  A key written with the long name is given back
    as it is. *)
Theorem getRawKey_path_is_canonical env st host h short long rest key view st' n :
  reachable env st -> bslash ∉ host ->
  HIVES_SHORT !! h = Some short -> HIVES_LONG !! h = Some long ->
  rest = [] \/ (exists r, rest = bslash :: r) ->
  key = host_prefix host ++ short ++ rest \/ key = host_prefix host ++ long ++ rest ->
  getRawKey st key view = Ret (st', n) ->
  path st' n = host_prefix host ++ long ++ rest.
Proof.
  intros Hreach Hh Hs Hl Hrest Hkey Hg.
  destruct (split_host_prefix host h short long rest Hh Hs Hl Hrest) as [H1 H2].
  destruct (hive_parts h short long rest Hs Hl Hrest) as (_ & _ & H3 & H4).
  destruct (getRawKey_path env st key view st' n Hreach Hg) as (hive & key2 & Hf & Hp).
  destruct Hkey as [-> | ->].
  - rewrite H1 in Hf, Hp. cbn [fst snd] in *. rewrite H3 in Hf. by injection Hf as _ <-.
  - rewrite H2 in Hf, Hp. cbn [fst snd] in *. rewrite H4 in Hf. by injection Hf as _ <-.
Qed.

(** X4.  A key written with the short name of a hive resolves as the key
    written with the long name: same node, same store, same errors. *)
Theorem getRawKey_short_is_long st host h short long rest view :
  bslash ∉ host ->
  HIVES_SHORT !! h = Some short -> HIVES_LONG !! h = Some long ->
  rest = [] \/ (exists r, rest = bslash :: r) ->
  getRawKey st (host_prefix host ++ short ++ rest) view
  = getRawKey st (host_prefix host ++ long ++ rest) view.
Proof.
  intros Hh Hs Hl Hrest.
  destruct (split_host_prefix host h short long rest Hh Hs Hl Hrest) as [H1 H2].
  destruct (hive_parts h short long rest Hs Hl Hrest) as (_ & _ & H3 & H4).
  unfold getRawKey. by rewrite H1, H2, H3, H4.
Qed.

Lemma ancestor_lt ns b a : tree_ok ns -> ancestor ns b a -> b < a.
Proof.
  intros [Hp _]. induction 1 as [a n p Ha Hpar|a n p b Ha Hpar _ IH].
  - by eapply Hp.
  - pose proof (Hp _ _ _ Ha Hpar). lia.
Qed.

Lemma root_above ns :
  tree_ok ns ->
  forall a, a < length ns -> exists r, is_root ns r /\ (a = r \/ ancestor ns r a).
Proof.
  intros Ht a. induction (lt_wf a) as [a _ IH]. intros Hlt.
  destruct (lookup_lt_is_Some_2 ns a Hlt) as [n Hn].
  destruct (parent n) as [p|] eqn:Hp; [|exists a; split; [by exists n | by left]].
  pose proof (proj1 Ht _ _ _ Hn Hp) as Hpa.
  destruct (IH p Hpa ltac:(lia)) as (r & Hr & Hrp). exists r. split; [exact Hr|]. right.
  destruct Hrp as [->|Hanc]; [by eapply ancestor_parent | by eapply ancestor_up].
Qed.

(** X5.  The key tree is well formed in every reachable state: a parent
    is older than its children (so there is no cycle), a child entry
    names the child and the child points back, every node lies under a
    root, and the two tables hold roots named by their host and share
    none. *)
Theorem store_is_well_formed env st :
  reachable env st ->
  (forall a n p, nodes st !! a = Some n -> parent n = Some p -> p < a)
  /\ (forall a n k c, nodes st !! a = Some n -> _keys n !! k = Some c ->
        exists cn, nodes st !! c = Some cn /\ parent cn = Some a /\ name cn = k)
  /\ (forall a, a < length (nodes st) ->
        exists r, is_root (nodes st) r /\ (a = r \/ ancestor (nodes st) r a))
  /\ (forall h r, hosts32 st !! h = Some r \/ hosts64 st !! h = Some r ->
        exists n, nodes st !! r = Some n /\ parent n = None /\ name n = h)
  /\ (forall h h' r, hosts32 st !! h = Some r -> hosts64 st !! h' <> Some r).
Proof.
  intros Hreach. destruct (reachable_store_ok env st Hreach) as (Ht & _ & [Hh Hd] & _).
  split; [exact (proj1 Ht)|]. split; [exact (proj2 Ht)|].
  split; [by apply root_above|]. split; [exact Hh|].
  intros h h' r H32 H64. by eapply Hd.
Qed.

(** X6.  Wholesale invalidation by [importreg]: on success the table of
    the view is emptied and the other one and the nodes are left; a key
    resolved afterwards in that view is a fresh node; and after an import
    in the view [32] every node, those resolved before in that view too,
    reports the view [64]. *)
Theorem wholesale_import_invalidates env st i proc view r error code stdout stderr out :
  reachable env st ->
  procs st !! i = Some proc -> p_closed proc = false ->
  p_then proc = KImport view None r ->
  Process_close proc error code stdout stderr = Ret out ->
  let st' := close env st i error code stdout stderr in
  let is32 := bool_decide (view = Some (js "32")) in
  (if is32 then hosts32 st' = ∅ /\ hosts64 st' = hosts64 st
   else hosts64 st' = ∅ /\ hosts32 st' = hosts32 st)
  /\ nodes st' = nodes st
  /\ (forall key view' st'' n,
        bool_decide (view' = Some (js "32")) = is32 ->
        getRawKey st' key view' = Ret (st'', n) ->
        length (nodes st) < n)
  /\ (is32 = true -> forall a, getView st' a None = js "64").
Proof.
  intros Hreach Hi Hc Hk Ho st' is32.
  assert (Hreach' : reachable env st').
  { apply (reaches_step env _ st (Eclose i error code stdout stderr) Hreach). exact I. }
  assert (Hst' : st' = resolve r (Fulfilled (VBool true))
                   (if is32
                    then mkState (nodes st) ∅ (hosts64 st) (items st) (results st)
                           (alter close_process i (procs st))
                    else mkState (nodes st) (hosts32 st) ∅ (items st) (results st)
                           (alter close_process i (procs st)))).
  { subst st' is32. unfold close. rewrite Hi, Hc, Hk, Ho. cbn [continue import_done].
    by destruct (bool_decide _). }
  assert (Htab : if is32 then hosts32 st' = ∅ /\ hosts64 st' = hosts64 st
                 else hosts64 st' = ∅ /\ hosts32 st' = hosts32 st).
  { rewrite Hst'. by destruct is32. }
  assert (Hn : nodes st' = nodes st) by (rewrite Hst'; by destruct is32).
  split; [exact Htab|]. split; [exact Hn|]. split.
  - intros key view' st'' n Hv Hg.
    pose proof (reachable_inv env st' Hreach') as Hinv.
    destruct (getRawKey_Ret _ _ _ _ _ Hg) as (hive & key2 & _ & _ & Hsub).
    cbv zeta in Hsub. rewrite Hv in Hsub.
    set (host := (split_host key).1) in *.
    destruct (host_root_preserved (fun _ => True) st' is32 host Hinv)
      as (Hp1 & Hroot & _).
    assert (Hnew : (host_root st' is32 host).2 = length (nodes st)).
    { unfold host_root. destruct is32; destruct Htab as [-> _];
        rewrite lookup_empty; cbn [snd]; by rewrite Hn. }
    destruct (host_root st' is32 host) as [st1 p]. cbn [fst snd] in *. subst p.
    pose proof Hroot as (rn & Hrn & _). pose proof (lookup_lt_Some _ _ _ Hrn) as Hlt.
    unfold subkey in Hsub.
    destruct (subkey_loop_good (fun _ => True) (split key2 [bslash]) (nodes st1) _ Hlt
                (proj1 (proj1 Hp1))) as (Hg' & _ & _ & Hanc).
    pose proof (subkey_loop_chain (fun _ => True) (length (nodes st)) (split key2 [bslash])
                  (nodes st1) _ [] Hlt (proj1 (proj1 Hp1)) (chain_root _ _)) as Hch.
    destruct (subkey_loop (nodes st1) (length (nodes st)) (split key2 [bslash]))
      as [ns q]. cbn [fst snd] in *. injection Hsub as _ ->.
    destruct Hanc as [->|Hanc]; [|by apply (ancestor_lt ns _ _ (proj1 Hg'))].
    inversion Hch as [Hs|segs q' q0 n0 Hch' Hq Hp Hs]; [by destruct (split_nonempty key2 bslash)|].
    pose proof (proj1 (proj1 Hg') _ _ _ Hq Hp).
    assert (length (nodes st) <= q').
    { clear -Hch' Hg'. induction Hch' as [|segs q' q n _ IH Hq Hp]; [lia|].
      pose proof (proj1 (proj1 Hg') _ _ _ Hq Hp). lia. }
    lia.
  - intros H32 a. unfold getView, view_of. cbn [default].
    rewrite H32 in Htab. destruct Htab as [-> _]. by rewrite lookup_empty.
Qed.

(** ** The cached value set *)

(** X7.  When the command of a [setValue] or a [deleteValue] succeeds:
    with no memoized value set the promise is fulfilled with [true]; with
    a fulfilled one the entry is written (or deleted) in it and the
    promise is fulfilled with [true]; with a pending one the write is
    queued behind the read and the promise stays pending; with a
    rejected one the promise is rejected.  The tree is never touched. *)
Theorem write_updates_cache env st i proc this r error code stdout stderr out :
  reachable env st ->
  procs st !! i = Some proc -> p_closed proc = false ->
  Process_close proc error code stdout stderr = Ret out ->
  let st' := close env st i error code stdout stderr in
  let outcome (f : Items -> Items) (rx : reaction) :=
    nodes st' = nodes st
    /\ match _items (nodes st !!! this) with
       | None =>
           results st' !! r = Some (Fulfilled (VBool true)) /\ items st' = items st
       | Some p =>
           match items st !! p with
           | Some (Fulfilled x, rs) =>
               results st' !! r = Some (Fulfilled (VBool true))
               /\ items st' = <[p := (Fulfilled (f x), rs)]> (items st)
           | Some (Pending, rs) =>
               results st' = results st
               /\ items st' = <[p := (Pending, rs ++ [rx])]> (items st)
           | Some (Rejected e, rs) =>
               results st' !! r = Some (Rejected e) /\ items st' = items st
           | None => True
           end
       end in
  (forall key v, p_then proc = KSetValue this key v r ->
                 outcome (<[key := v]>) (OnSetValue key v r))
  /\ (forall key, p_then proc = KDeleteValue this key r ->
                  outcome (delete key) (OnDeleteValue key r)).
Proof.
  intros Hreach Hi Hc Ho st' outcome. subst st'.
  assert (Hgen : forall f rx,
            result_of (p_then proc) = Some r ->
            continue env (p_then proc) (Ret out) (with_procs (alter close_process i) st)
            = match _items (nodes st !!! this) with
              | Some p => then_ p rx (with_procs (alter close_process i) st)
              | None => resolve r (Fulfilled (VBool true))
                          (with_procs (alter close_process i) st)
              end ->
            (forall x s, on_fulfilled rx x s = (f x, resolve r (Fulfilled (VBool true)) s)) ->
            (forall e s, on_rejected rx e s = resolve r (Rejected e) s) ->
            outcome f rx).
  { intros f rx Hres Hcont Hful Hrej. subst outcome. cbv beta.
    assert (Hr : r < length (results st))
      by exact (reachable_results_ok env st Hreach i proc r Hi Hres).
    unfold close. rewrite Hi, Hc, Ho, Hcont.
    set (st0 := with_procs (alter close_process i) st).
    destruct (_items (nodes st !!! this)) as [p|];
      [|split; [reflexivity|]; split; [by apply resolve_lookup | reflexivity]].
    split; [by destruct (same_tree_then p rx st0) as (-> & _)|].
    unfold then_. change (items st0) with (items st).
    destruct (items st !! p) as [[[|x|e] rs]|] eqn:Hp; [| | |exact I].
    - by split.
    - rewrite Hful. split; [by apply resolve_lookup | reflexivity].
    - rewrite Hrej. split; [by apply resolve_lookup | reflexivity]. }
  split.
  - intros key v Hk. apply Hgen; rewrite ?Hk; by try reflexivity.
  - intros key Hk. apply Hgen; rewrite ?Hk; by try reflexivity.
Qed.

Lemma fold_fulfilled_frame rs :
  forall x st,
    let r := fold_left (fun '(x, st) rx => on_fulfilled rx x st) rs (x, st) in
    items r.2 = items st /\ length (results r.2) = length (results st)
    /\ nodes r.2 = nodes st /\ procs r.2 = procs st.
Proof.
  induction rs as [|rx rs IH]; intros x st; [by repeat split|]. cbn [fold_left].
  assert (H1 : items (on_fulfilled rx x st).2 = items st
               /\ length (results (on_fulfilled rx x st).2) = length (results st)
               /\ nodes (on_fulfilled rx x st).2 = nodes st
               /\ procs (on_fulfilled rx x st).2 = procs st).
  { destruct rx; cbn; rewrite ?length_insert; by repeat split. }
  destruct (on_fulfilled rx x st) as [x1 st1]. cbn [snd] in H1.
  destruct H1 as (A & B & C & D). destruct (IH x1 st1) as (A' & B' & C' & D').
  cbv zeta. repeat split; congruence.
Qed.

(** X8.  A [setValue] whose command has succeeded while the read was
    running is applied to the values the read brings: when the query
    ends and its output is parsed, the value set holds the written value
    under the key, whatever the output said, and the promise of
    [setValue] is fulfilled with [true]. *)
Theorem write_during_read env st i proc this p rs key v r error code stdout stderr out its :
  procs st !! i = Some proc -> p_closed proc = false ->
  p_then proc = KReread this p ->
  items st !! p = Some (Pending, rs ++ [OnSetValue key v r]) ->
  r < length (results st) ->
  Process_close proc error code stdout stderr = Ret out ->
  (reread_done env this out (nodes st)).2 = Ret its ->
  let st' := close env st i error code stdout stderr in
  results st' !! r = Some (Fulfilled (VBool true))
  /\ exists x, items st' !! p = Some (Fulfilled x, []) /\ x !! key = Some v.
Proof.
  intros Hi Hc Hk Hp Hr Ho Hret st'. subst st'.
  unfold close. rewrite Hi, Hc, Hk, Ho. cbn [continue].
  change (nodes (with_procs (alter close_process i) st)) with (nodes st).
  destruct (reread_done env this out (nodes st)) as [ns res]. cbn [snd] in Hret. subst res.
  set (st1 := with_nodes (fun _ => ns) _).
  assert (Hp1 : items st1 !! p = Some (Pending, rs ++ [OnSetValue key v r])) by exact Hp.
  unfold settle. rewrite Hp1, fold_left_app. cbn [fold_left].
  destruct (fold_fulfilled_frame rs its st1) as (Hit & Hlen & _).
  destruct (fold_left _ rs (its, st1)) as [x0 st0]. cbn [snd] in Hit, Hlen.
  cbn [on_fulfilled]. split.
  - cbn [results with_items]. apply resolve_lookup. rewrite Hlen. exact Hr.
  - exists (<[key := v]> x0). split; [|by rewrite lookup_insert_eq].
    cbn [items with_items resolve with_results]. apply list_lookup_insert_eq.
    rewrite Hit. by eapply lookup_lt_Some.
Qed.

(** X9.  [clear] empties a fulfilled memoized value set at the call,
    before its command has run, and runs one [DELETE]; whether that
    command succeeds or fails only decides the boolean: the value set
    stays empty. *)
Theorem clear_empties_cache env st this p x rs :
  _items (nodes st !!! this) = Some p ->
  items st !! p = Some (Fulfilled x, rs) ->
  let st1 := (clear env st this).1 in
  let r := (clear env st this).2 in
  items st1 !! p = Some (Fulfilled ∅, rs)
  /\ r = length (results st)
  /\ (exists proc,
        procs st1 = procs st ++ [proc] /\ p_closed proc = false
        /\ p_then proc = KBool r /\ p_args proc !! 0 = Some (js "DELETE")
        /\ forall error code stdout stderr,
             let st2 := close env st1 (length (procs st)) error code stdout stderr in
             items st2 !! p = Some (Fulfilled ∅, rs)
             /\ results st2 !! r
                = Some (Fulfilled
                          (VBool (is_ret (Process_close proc error code stdout stderr))))).
Proof.
  intros Hslot Hp st1 r. subst st1 r. unfold clear. rewrite Hslot.
  set (st0 := then_ p OnClear st).
  assert (H0 : items st0 !! p = Some (Fulfilled ∅, rs)
               /\ results st0 = results st /\ procs st0 = procs st).
  { subst st0. unfold then_. rewrite Hp. cbn [on_fulfilled]. split; [|by split].
    cbn [items with_items]. apply list_lookup_insert_eq. by eapply lookup_lt_Some. }
  destruct H0 as (Hit & Hres & Hpr). cbn [new_result fst snd].
  set (st0' := with_results _ st0).
  destruct (runCommand_frame env st0' this (js "DELETE") [js "/f"; js "/va"]
              (KBool (length (results st0)))) as (_ & _ & _ & Hitems & Hresults).
  destruct (procs_runCommand env st0' this (js "DELETE") [js "/f"; js "/va"]
              (KBool (length (results st0)))) as (proc & Hprocs & Hk & Hc & Ha).
  set (st1 := runCommand _ _ _ _ _ _) in *.
  split; [by rewrite Hitems|]. split; [by rewrite Hres|].
  change (procs st0') with (procs st0) in Hprocs. rewrite Hpr in Hprocs.
  change (results st0') with (results st0 ++ [Pending]) in Hresults.
  change (items st0') with (items st0) in Hitems.
  exists proc. rewrite Hprocs.
  split; [reflexivity|]. split; [exact Hc|]. split; [by rewrite Hk, Hres|].
  split; [exact Ha|]. intros error code stdout stderr.
  unfold close. rewrite Hprocs.
  rewrite lookup_app_r by lia. rewrite Nat.sub_diag. cbn [lookup list_lookup].
  rewrite Hc, Hk. cbn [continue]. split.
  - cbn [items resolve with_results with_procs]. by rewrite Hitems.
  - destruct (Process_close proc error code stdout stderr); cbn [is_ret];
      apply resolve_lookup; cbn [results with_procs];
      rewrite Hresults, length_app; simpl; lia.
Qed.

Lemma items_fold_rejected e rs :
  forall s, items (fold_left (fun st rx => on_rejected rx e st) rs s) = items s.
Proof.
  induction rs as [|rx rs IH]; intros s; [reflexivity|]. cbn [fold_left].
  rewrite IH. by destruct rx.
Qed.

(** X10.  A read that fails stays memoized: the promise is rejected with
    the error of the process, and a later [read] hands out that rejected
    promise and runs no query. *)
Theorem failed_read_is_memoized env st i proc this p rs error code stdout stderr e :
  procs st !! i = Some proc -> p_closed proc = false ->
  p_then proc = KReread this p ->
  _items (nodes st !!! this) = Some p ->
  items st !! p = Some (Pending, rs) ->
  Process_close proc error code stdout stderr = Throw e ->
  let st' := close env st i error code stdout stderr in
  items st' !! p = Some (Rejected e, [])
  /\ read env st' this = (st', p).
Proof.
  intros Hi Hc Hk Hslot Hp Ho st'. subst st'.
  unfold close. rewrite Hi, Hc, Hk, Ho. cbn [continue].
  set (st0 := with_procs _ st).
  assert (Hn : nodes (settle p (Throw e) st0) = nodes st)
    by (by destruct (same_tree_settle p (Throw e) st0) as (-> & _)).
  split.
  - unfold settle. change (items st0) with (items st). rewrite Hp.
    cbn [items with_items]. apply list_lookup_insert_eq.
    rewrite items_fold_rejected. by eapply lookup_lt_Some.
  - unfold read. by rewrite Hn, Hslot.
Qed.

(** X11.  [exists]: a confirmed node answers [true] and an unconfirmed
    node whose parent is confirmed answers [false], both with no command
    run; any other node with no memoized read runs one QUERY and answers
    [true] if the query succeeds and its output is parsed, [false] if the
    query fails or the parsing raises. *)
Theorem exists_outcomes env st this :
  this < length (nodes st) ->
  let st1 := (exists_ env st this).1 in
  let r := (exists_ env st this).2 in
  let parent_found :=
    match parent (nodes st !!! this) with
    | Some q => found (nodes st !!! q)
    | None => false
    end in
  r = length (results st)
  /\ (found (nodes st !!! this) = true ->
      procs st1 = procs st /\ results st1 !! r = Some (Fulfilled (VBool true)))
  /\ (found (nodes st !!! this) = false -> parent_found = true ->
      procs st1 = procs st /\ results st1 !! r = Some (Fulfilled (VBool false)))
  /\ (found (nodes st !!! this) = false -> parent_found = false ->
      _items (nodes st !!! this) = None ->
      exists proc,
        procs st1 = procs st ++ [proc] /\ p_closed proc = false
        /\ p_args proc !! 0 = Some (js "QUERY")
        /\ results st1 !! r = Some Pending
        /\ forall error code stdout stderr,
             results (close env st1 (length (procs st)) error code stdout stderr) !! r
             = Some (Fulfilled (VBool
                 match Process_close proc error code stdout stderr with
                 | Ret out => is_ret (reread_done env this out (nodes st1)).2
                 | Throw _ => false
                 end))).
Proof.
  intros Hlt st1 r parent_found. subst st1 r parent_found. unfold exists_.
  cbn [new_result]. set (st0 := with_results _ st).
  change (nodes st0) with (nodes st).
  assert (Hr0 : length (results st) < length (results st0)).
  { subst st0. cbn [results with_results]. rewrite length_app. simpl. lia. }
  assert (Hpend : results st0 !! length (results st) = Some Pending).
  { subst st0. cbn [results with_results]. rewrite lookup_app_r by lia.
    by rewrite Nat.sub_diag. }
  destruct (found (nodes st !!! this)) eqn:Hf.
  { cbn [fst snd]. split; [reflexivity|]. split; [|split; intros; discriminate].
    intros _. split; [reflexivity | by apply resolve_lookup]. }
  destruct (match parent (nodes st !!! this) with
            | Some q => found (nodes st !!! q) | None => false end) eqn:Hpf.
  { cbn [fst snd]. split; [reflexivity|]. split; [intros; discriminate|].
    split; [|intros; discriminate].
    intros _ _. split; [reflexivity | by apply resolve_lookup]. }
  assert (Hsnd : (let '(st2, p) := read env st0 this in
                  (then_ p (OnExists (length (results st))) st2, length (results st))).2
                 = length (results st)) by (by destruct (read env st0 this)).
  split; [exact Hsnd|]. split; [intros; discriminate|]. split; [intros; discriminate|].
  intros _ _ Hslot. unfold read. change (nodes st0) with (nodes st). rewrite Hslot.
  destruct (reread_spec env st0 this Hlt)
    as (Hp & Hit & Hitems & Hres & _ & _ & _ & _ & _ & proc & Hprocs & Hk & Hc & Ha).
  destruct (reread env st0 this) as [st2 p]. cbn [fst snd] in *. subst p.
  change (items st0) with (items st) in *. change (procs st0) with (procs st) in *.
  assert (Hlk : items st2 !! length (items st) = Some (Pending, [])).
  { rewrite Hitems, lookup_app_r by lia. by rewrite Nat.sub_diag. }
  unfold then_. rewrite Hlk.
  set (st3 := with_items _ st2).
  exists proc. split; [exact Hprocs|]. split; [exact Hc|]. split; [exact Ha|].
  split; [change (results st3) with (results st2); by rewrite Hres|].
  intros error code stdout stderr. unfold close.
  change (procs st3) with (procs st2). rewrite Hprocs, lookup_app_r by lia.
  rewrite Nat.sub_diag. cbn [lookup list_lookup]. rewrite Hc, Hk. cbn [continue].
  set (st4 := with_procs _ st3). change (nodes st4) with (nodes st2).
  change (nodes st3) with (nodes st2).
  assert (Hlk3 : forall f, items (with_nodes f st4) !! length (items st)
                 = Some (Pending, [OnExists (length (results st))])).
  { intros f. change (items (with_nodes f st4))
      with (<[length (items st) := (Pending, [OnExists (length (results st))])]>
              (items st2)).
    apply list_lookup_insert_eq. by eapply lookup_lt_Some. }
  assert (Hr4 : forall f, length (results st) < length (results (with_nodes f st4))).
  { intros f. change (results (with_nodes f st4)) with (results st2). by rewrite Hres. }
  assert (Hsettle : forall f o,
            results (settle (length (items st)) o (with_nodes f st4))
              !! length (results st)
            = Some (Fulfilled (VBool (is_ret o)))).
  { intros f o. unfold settle. rewrite Hlk3. destruct o as [x|e]; cbn [fold_left is_ret].
    - cbn [on_fulfilled results with_items]. apply resolve_lookup, Hr4.
    - cbn [on_rejected results with_items]. apply resolve_lookup, Hr4. }
  destruct (Process_close proc error code stdout stderr) as [out|e].
  - destruct (reread_done env this out (nodes st2)) as [ns res]. cbn [snd].
    apply Hsettle.
  - apply (Hsettle (fun ns => ns) (Throw e)).
Qed.

(** ** The binary encodings *)

Local Open Scope N_scope.

Lemma to_N_byte_of_N n : Byte.to_N (byte_of_N n) = n mod 256.
Proof.
  unfold byte_of_N. destruct (Byte.of_N (n mod 256)) as [b|] eqn:Hb.
  - by apply Byte.to_of_N.
  - apply Byte.of_N_None_iff in Hb. pose proof (N.mod_upper_bound n 256). lia.
Qed.

Lemma byte_of_N_to_N b : byte_of_N (Byte.to_N b) = b.
Proof.
  unfold byte_of_N. rewrite N.mod_small by (pose proof (Byte.to_N_bounded b); lia).
  by rewrite Byte.of_to_N.
Qed.

Lemma le_value_le_bytes w v : le_value (le_bytes w v) = v mod 256 ^ N.of_nat w.
Proof.
  revert v. induction w as [|w IH]; intros v.
  - simpl. by rewrite N.mod_1_r.
  - cbn [le_bytes le_value]. rewrite to_N_byte_of_N, IH.
    rewrite Nat2N.inj_succ, N.pow_succ_r'.
    rewrite (N.Div0.mod_mul_r v 256 (256 ^ N.of_nat w)). lia.
Qed.

Local Open Scope nat_scope.

Lemma dv_set_fresh w v le :
  dv_set w (new_Uint8Array w) 0 0 v le
  = Ret (if le then le_bytes w v else rev (le_bytes w v)).
Proof.
  pose proof (dv_set_app w [] (new_Uint8Array w) [] 0 0 v le eq_refl) as H.
  rewrite app_nil_r in H. cbn [app] in H. rewrite H; [by rewrite app_nil_r|].
  apply length_replicate.
Qed.

Lemma dv_get_whole bs le :
  dv_get (length bs) bs 0 0 le = Ret (le_value (if le then bs else rev bs)).
Proof.
  unfold dv_get. cbn [Nat.add]. rewrite Nat.leb_refl. cbn [drop]. by rewrite firstn_all.
Qed.

(** X12.  The [raw] encoding of the integers never raises, has four
    bytes for [DWORD] and [DWORD_BIG_ENDIAN] and eight for [QWORD], and
    read back through a [DataView] in the byte order of the class gives
    the value reduced modulo 2^32 (NaN gives 0), or 2^64; the big-endian
    bytes of a value below 256 are three zeros and the value. *)
Theorem raw_integer_reads_back :
  (forall n, exists bs,
      raw (DWORD n) = Ret bs /\ length bs = 4
      /\ dv_get 4 bs 0 0 true = Ret (ToUint32 n))
  /\ (forall n, exists bs,
        raw (DWORD_BIG_ENDIAN n) = Ret bs /\ length bs = 4
        /\ dv_get 4 bs 0 0 false = Ret (ToUint32 n)
        /\ (forall z, n = Num z -> (0 <= z < 256)%Z ->
              bs = [Byte.x00; Byte.x00; Byte.x00; byte_of_N (Z.to_N z)]))
  /\ (forall n, exists bs,
        raw (QWORD n) = Ret bs /\ length bs = 8
        /\ dv_get 8 bs 0 0 true = Ret (Z.to_N (n mod 2 ^ 64))).
Proof.
  assert (H32 : forall n, (ToUint32 n mod 256 ^ N.of_nat 4 = ToUint32 n)%N).
  { intros [|z]; [reflexivity|]. apply N.mod_small. unfold ToUint32, wrap.
    pose proof (Z.mod_pos_bound z (2 ^ Z.of_N 32) ltac:(lia)).
    change (256 ^ N.of_nat 4)%N with (Z.to_N (2 ^ Z.of_N 32)). lia. }
  split; [|split].
  - intros n. eexists. cbn [raw]. rewrite dv_set_fresh. split; [reflexivity|].
    split; [apply length_le_bytes|].
    change 4 with (length (le_bytes 4 (ToUint32 n))) at 1.
    by rewrite dv_get_whole, le_value_le_bytes, H32.
  - intros n. eexists. cbn [raw]. rewrite dv_set_fresh. split; [reflexivity|].
    split; [by rewrite length_rev, length_le_bytes|]. split.
    + change 4 with (length (rev (le_bytes 4 (ToUint32 n)))) at 1.
      by rewrite dv_get_whole, rev_involutive, le_value_le_bytes, H32.
    + intros z -> Hz. cbn [ToUint32]. unfold wrap.
      rewrite Z.mod_small by lia. cbn [le_bytes rev app].
      assert (Hd : (Z.to_N z / 256 = 0)%N) by (apply N.div_small; lia).
      rewrite Hd. reflexivity.
  - intros n. eexists. cbn [raw]. rewrite dv_set_fresh. split; [reflexivity|].
    split; [apply length_le_bytes|].
    change 8 with (length (le_bytes 8 (wrap 64 n))) at 1.
    rewrite dv_get_whole, le_value_le_bytes. f_equal. apply N.mod_small. unfold wrap.
    pose proof (Z.mod_pos_bound n (2 ^ Z.of_N 64) ltac:(lia)).
    change (256 ^ N.of_nat 8)%N with (Z.to_N (2 ^ Z.of_N 64)). lia.
Qed.

Lemma raw_sz s : raw (SZ s) = Ret (utf16le s ++ [Byte.x00; Byte.x00]).
Proof.
  cbn [raw]. unfold fill16.
  replace (replicate (length s + 1) 0%N) with ([] ++ replicate (length s) 0%N ++ [0%N])
    by (rewrite replicate_add; reflexivity).
  change 0 with (length (@nil N)) at 1.
  rewrite overwrite_app by (rewrite length_replicate, length_map; reflexivity).
  cbn [app].
  replace (length s) with (length (map (fun c => (c mod 65536)%N) s)) at 1
    by apply length_map.
  rewrite insert_at_end. fold (units s).
  by rewrite uint16_bytes_app, uint16_bytes_units.
Qed.

Lemma raw_multi_sz l :
  raw (MULTI_SZ l)
  = Ret (concat (map (fun i => utf16le i ++ [Byte.x00; Byte.x00]) l)
         ++ [Byte.x00; Byte.x00]).
Proof.
  cbn [raw]. rewrite fold_total.
  pose proof (raw_multi_fold l [] (replicate (total l) 0%N) [0%N]) as H.
  cbn [app length] in H.
  replace (replicate (0 + total l + 1) 0%N) with (replicate (total l) 0%N ++ [0%N])
    by (replace (0 + total l + 1) with (total l + 1) by lia;
        rewrite replicate_add; reflexivity).
  rewrite H by (rewrite length_replicate; reflexivity).
  by rewrite uint16_bytes_app, uint16_bytes_multi.
Qed.

Lemma utf16le_units_plain s tail :
  Forall (fun c => (c < 65536)%N) s ->
  utf16le_units (utf16le s ++ tail)
  = (s ++ (utf16le_units tail).1, (utf16le_units tail).2).
Proof.
  induction 1 as [|c s Hc _ IH];
    [unfold utf16le; simpl; by destruct (utf16le_units tail)|].
  change (utf16le (c :: s) ++ tail)
    with (byte_of_N (c mod 65536) :: byte_of_N (c mod 65536 / 256)
            :: (utf16le s ++ tail)).
  cbn [utf16le_units]. rewrite IH.
  rewrite !to_N_byte_of_N. f_equal. cbn [app]. f_equal.
  rewrite (N.mod_small c 65536) by exact Hc.
  pose proof (N.div_mod c 256 ltac:(lia)).
  rewrite (N.mod_small (c / 256) 256); [lia|].
  apply N.Div0.div_lt_upper_bound. lia.
Qed.

Lemma utf16_decode_plain s tail odd :
  plain s -> utf16_decode (s ++ tail) None odd = s ++ utf16_decode tail None odd.
Proof.
  induction 1 as [|c s (_ & Hl & Ht) _ IH]; [reflexivity|].
  cbn [app utf16_decode]. by rewrite Hl, Ht, IH.
Qed.

(** X13.  The [raw] encoding of a string is its code units, two bytes
    each, low byte first, and a terminator of two zero bytes; that of a
    list of strings is each string with its terminator and one more
    terminator at the end. *)
Theorem raw_string_layout :
  (forall s, raw (SZ s) = Ret (utf16le s ++ [Byte.x00; Byte.x00])
             /\ raw (EXPAND_SZ s) = raw (SZ s)
             /\ length (utf16le s) = 2 * length s)
  /\ (forall l, raw (MULTI_SZ l)
                = Ret (concat (map (fun i => utf16le i ++ [Byte.x00; Byte.x00]) l)
                       ++ [Byte.x00; Byte.x00]))
  /\ (forall c s, utf16le (c :: s)
                  = byte_of_N (c mod 65536) :: byte_of_N (c mod 65536 / 256)
                      :: utf16le s).
Proof.
  split; [intros s; split; [apply raw_sz | split; [reflexivity | apply length_utf16le]]|].
  split; [apply raw_multi_sz | reflexivity].
Qed.

Lemma drop_bom_other c rest :
  c <> 0xFEFF%N ->
  match c :: rest with
  | 0xFEFF%N :: t => t
  | t => t
  end = c :: rest.
Proof.
  intros Hc. destruct c as [|p]; [reflexivity|].
  do 16 (destruct p as [p|p|]; try reflexivity). all: try reflexivity.
  all: by destruct Hc.
Qed.

(** X14.  [bytes_to_string] gives back a string from its [raw] encoding,
    when the string has no surrogate and does not start with a byte
    order mark (which the decoder drops); one trailing NUL, the
    terminator, is all that is stripped. *)
Theorem bytes_to_string_of_raw s bs :
  plain s -> head s <> Some 0xFEFF%N ->
  raw (SZ s) = Ret bs ->
  bytes_to_string bs = s.
Proof.
  intros Hs Hbom. rewrite raw_sz. intros [= <-].
  unfold bytes_to_string, TextDecoder_utf16le.
  rewrite utf16le_units_plain by (eapply Forall_impl; [exact Hs|]; by intros c (? & _)).
  cbn [utf16le_units fst snd]. change (Byte.to_N "000" + 256 * Byte.to_N "000")%N with 0%N.
  rewrite utf16_decode_plain by exact Hs. cbn [utf16_decode].
  change (is_lead_surrogate 0) with false. change (is_trail_surrogate 0) with false.
  cbv iota.
  assert (Hm : match s ++ [0%N] with
               | 0xFEFF%N :: t => t
               | t => t
               end = s ++ [0%N]).
  { destruct s as [|c s']; [reflexivity|]. cbn [app]. apply drop_bom_other.
    intros ->. by destruct Hbom. }
  rewrite Hm. unfold endsWith. rewrite rev_app_distr. cbn [rev app startsWith].
  rewrite startsWith_nil. cbn [N.eqb andb].
  rewrite length_app. cbn [length]. rewrite Nat.add_sub. by rewrite take_app_length.
Qed.

(** ** [hex_to_bytes] *)

Lemma pairs_of_nil fuel : pairs_of fuel [] = [].
Proof. by destruct fuel. Qed.

Lemma pairs_of_length fuel s :
  length s <= fuel -> length (pairs_of fuel s) = Nat.div2 (S (length s)).
Proof.
  revert s. induction fuel as [|f IH]; intros s Hl.
  - destruct s; [reflexivity | simpl in Hl; lia].
  - destruct s as [|a [|b s]]; [reflexivity | |].
    { cbn [pairs_of drop]. by rewrite pairs_of_nil. }
    cbn [pairs_of drop length]. rewrite drop_0, IH by (simpl in Hl; lia). reflexivity.
Qed.

Lemma pairs_of_concat fuel (ps : list jsstring) :
  Forall (fun p => length p = 2) ps -> length ps <= fuel ->
  pairs_of fuel (concat ps) = ps.
Proof.
  revert ps. induction fuel as [|f IH]; intros ps Hps Hl.
  - destruct ps; [reflexivity | simpl in Hl; lia].
  - destruct Hps as [|p ps Hp Hps]; [reflexivity|].
    destruct p as [|a [|b [|c p]]]; try discriminate.
    cbn [concat app pairs_of take drop]. rewrite drop_0, take_0.
    rewrite IH; [reflexivity | exact Hps|].
    simpl in Hl. lia.
Qed.

Lemma parse_hex2 b : to_uint8 (parseInt16 (hex2 b)) = b.
Proof. destruct b; vm_compute; reflexivity. Qed.

Lemma length_hex2 b : length (hex2 b) = 2.
Proof. destruct b; reflexivity. Qed.

(** X15.  [hex_to_bytes] never raises and gives one byte for every two
    characters, the last one alone when the length is odd; it reads back
    the digits [bytes_to_hex] writes once the commas are taken out, in
    either case of the letters; a pair that is not hexadecimal reads as
    zero, so the text of [bytes_to_hex] itself, commas included, does not
    read back. *)
Theorem hex_to_bytes_reads_hex :
  (forall s, length (hex_to_bytes s) = Nat.div2 (S (length s)))
  /\ (forall bs, hex_to_bytes (concat (map hex2 bs)) = bs)
  /\ (forall bs, bytes_to_hex bs = join [comma] (map hex2 bs))
  /\ hex_to_bytes (js "0AfF") = [Byte.x0a; Byte.xff]
  /\ hex_to_bytes (js "abc") = [Byte.xab; Byte.x0c]
  /\ hex_to_bytes (js "zz01") = [Byte.x00; Byte.x01]
  /\ hex_to_bytes (js "01,02") = [Byte.x01; Byte.x00; Byte.x02].
Proof.
  split; [|split; [|split; [reflexivity|repeat split; vm_compute; reflexivity]]].
  - intros s. unfold hex_to_bytes. rewrite length_map. by apply pairs_of_length.
  - intros bs. unfold hex_to_bytes.
    rewrite pairs_of_concat.
    + rewrite map_map. rewrite <- (map_id bs) at 2. apply map_ext. apply parse_hex2.
    + apply Forall_map, Forall_forall. intros b _. apply length_hex2.
    + rewrite length_map.
      assert (H : length (concat (map hex2 bs)) = 2 * length bs).
      { induction bs as [|b bs IH]; [reflexivity|]. cbn [map concat].
        rewrite length_app, length_hex2, IH. simpl. lia. }
      lia.
Qed.

(** ** The type table and [setValueString] *)




(** ** The decoder on what the encoder writes *)

Lemma rmatch_str {X : Type} w i rest c (k : Continuation X) :
  rmatch (RStr w) i (w ++ rest) c k = k (i + length w) rest c.
Proof.
  revert i. induction w as [|a w IH]; intros i.
  - cbn. by rewrite Nat.add_0_r.
  - change (RStr (a :: w)) with (RSeq (RChr a) (RStr w)). cbn [rmatch app].
    rewrite N.eqb_refl, IH. cbn [length]. by rewrite Nat.add_succ_r.
Qed.

Lemma rmatch_rep2 {X : Type} p i h l rest c (k : Continuation X) :
  p h = true -> p l = true ->
  rmatch (RRep 2 (RSet p)) i (h :: l :: rest) c k = k (S (S i)) rest c.
Proof.
  intros Hh Hl. unfold RRep. cbn [rmatch length Nat.add].
  rewrite RepeatMatcher_S. cbv zeta. cbn [rmatch groups clear_groups foldr].
  rewrite Hh. cbn [Nat.eqb andb Nat.pred fmap option_fmap option_map].
  rewrite RepeatMatcher_S. cbv zeta. cbn [rmatch groups clear_groups foldr].
  rewrite Hl. cbn [Nat.eqb andb Nat.pred fmap option_fmap option_map].
  destruct (length rest + 1) eqn:Hf; [lia|]. by rewrite RepeatMatcher_S.
Qed.

Lemma eqb_succ_self i : Nat.eqb (S i) i = false.
Proof. apply Nat.eqb_neq. lia. Qed.

(** The greedy star over the characters of a line, before a closing
    quote: it gives up the quote it swallowed. *)
Lemma star_dot_quote {X : Type} (m : Matcher X) (K : Continuation X) z t :
  (forall i x s c k, m i (x :: s) c k = if dot x then k (S i) s c else None) ->
  (forall i c k, m i [] c k = None) ->
  forall fuel i c,
    Forall (fun a => dot a = true) t -> length t + 1 < fuel ->
    (forall i' c', K i' [] c' = None) ->
    K (i + length t) [dquote] c = Some z ->
    RepeatMatcher m [] K fuel 0 None i (t ++ [dquote]) c = Some z.
Proof.
  intros Hcons Hnil. induction t as [|a t IH]; intros fuel i c Ht Hf Hend Hz.
  - destruct fuel as [|[|fuel]]; [simpl in Hf; lia..|].
    rewrite RepeatMatcher_S. cbv zeta. cbn [app clear_groups foldr].
    rewrite Hcons. change (dot dquote) with true. cbv iota.
    rewrite eqb_succ_self, andb_false_r. rewrite RepeatMatcher_S. cbv zeta.
    cbn [fmap option_fmap option_map clear_groups foldr]. rewrite Hnil, Hend.
    cbn [length] in Hz. by rewrite Nat.add_0_r in Hz.
  - destruct fuel as [|fuel]; [lia|]. inversion Ht as [|? ? Ha Ht']; subst.
    rewrite RepeatMatcher_S. cbv zeta. cbn [app clear_groups foldr].
    rewrite Hcons, Ha. rewrite eqb_succ_self, andb_false_r.
    cbn [Nat.pred fmap option_fmap option_map].
    rewrite (IH fuel (S i) c Ht'); [reflexivity | simpl in Hf; lia | exact Hend|].
    cbn [length] in Hz. by rewrite Nat.add_succ_r in Hz.
Qed.

Lemma regstring_quoted t :
  t <> [] -> Forall (fun a => dot a = true) t ->
  regstring_to_data (quoted t) = Ret (Some (SZ t)).
Proof.
  intros Hne Ht. unfold regstring_to_data, exec.
  assert (Hm : exec_from REGSTRING_PATTERN 0 (quoted t)
               = Some (mkMatch 0 (S (S (length t))) (<[1 := t]> ∅))).
  { unfold quoted. cbn [app exec_from].
    set (k0 := fun (e : nat) (_ : jsstring) (c : captures) => Some (mkMatch 0 e c)).
    change REGSTRING_PATTERN
      with (RAlt (RAlt (RSeq (RChr dquote)
                          (RSeq (RGrp 1 (RStar (RSet dot))) (RSeq (RChr dquote) REmp)))
                       (RCat [RGrp 2 (RStr (js "dword")); RStr (js ":");
                              RGrp 3 (RRep 8 (RSet hex_class))]))
                 (RCat [RStr (js "hex");
                        ROpt (RGrp 4 (RCat [RStr (js "("); RPlus (RSet tag_class);
                                            RStr (js ")")]));
                        RStr (js ":");
                        RGrp 5 (RCat [RStar (RCat [RRep 2 (RSet hex_class); RChr comma]);
                                      RRep 2 (RSet hex_class)])])).
    cbn [rmatch]. rewrite N.eqb_refl. unfold RStar at 1. cbn [rmatch groups].
    rewrite (star_dot_quote _ _ (mkMatch 0 (S (S (length t))) (<[1 := t]> ∅)) t);
      [reflexivity | reflexivity | reflexivity | exact Ht
      | rewrite length_app; simpl; lia | reflexivity|].
    cbn [rmatch]. rewrite N.eqb_refl. subst k0. cbv beta. do 2 f_equal.
    f_equal. replace (1 + length t - 1) with (length t) by lia.
    by rewrite take_app_length. }
  rewrite Hm. cbn [m_caps]. rewrite lookup_insert_eq. destruct t; [done|]. reflexivity.
Qed.

Lemma split_go_skip c0 x rest cur :
  c0 ∉ x -> split_go [c0] 0 (x ++ rest) cur = split_go [c0] 0 rest (cur ++ x).
Proof.
  revert cur. induction x as [|a x IH]; intros cur Hx; [by rewrite app_nil_r|].
  apply not_elem_of_cons in Hx as [Ha Hx]. cbn [app split_go startsWith].
  rewrite startsWith_nil, andb_true_r.
  destruct (c0 =? a)%N eqn:Hc; [apply N.eqb_eq in Hc; congruence|].
  rewrite IH by exact Hx. by rewrite <- app_assoc.
Qed.

Lemma split_join c0 (l : list jsstring) :
  l <> [] -> Forall (fun x => c0 ∉ x) l -> split (join [c0] l) [c0] = l.
Proof.
  intros Hne Hl. unfold split.
  assert (H : forall cur, split_go [c0] 0 (join [c0] l) cur
                          = match l with [] => [cur] | x :: r => (cur ++ x) :: r end).
  { clear Hne. induction Hl as [|x l Hx Hl IH]; intros cur; [reflexivity|].
    destruct l as [|y l'].
    - cbn [join]. rewrite <- (app_nil_r x) at 1. rewrite split_go_skip by exact Hx.
      reflexivity.
    - change (join [c0] (x :: y :: l')) with (x ++ c0 :: join [c0] (y :: l')).
      rewrite split_go_skip by exact Hx. cbn [split_go startsWith].
      rewrite N.eqb_refl, startsWith_nil. cbn [andb length Nat.sub].
      by rewrite IH. }
  rewrite H. by destruct l.
Qed.

Lemma last_any_default {A : Type} (d d' : A) l a :
  List.last (a :: l) d = List.last (a :: l) d'.
Proof.
  revert a. induction l as [|x l IH]; intros a; [reflexivity|].
  change (List.last (x :: l) d = List.last (x :: l) d'). apply IH.
Qed.

Lemma last_cons_default {A : Type} (a d : A) l : List.last (a :: l) d = List.last l a.
Proof. destruct l as [|x l]; [reflexivity|]. apply (last_any_default d a l x). Qed.

Lemma hex2_shape b :
  exists h l, hex2 b = [h; l] /\ hex_class h = true /\ hex_class l = true
              /\ h <> comma /\ l <> comma.
Proof.
  destruct b; eexists _, _; (split; [reflexivity|]);
    (split; [reflexivity|]); (split; [reflexivity|]); split; discriminate.
Qed.

(** The greedy star over pairs of digits followed by a comma, on a
    comma-separated run of pairs: it stops before the last pair. *)
Lemma star_hex_pairs {X : Type} (m : Matcher X) (K : Continuation X) bs :
  (forall i h l rest c k,
      hex_class h = true -> hex_class l = true ->
      m i (h :: l :: comma :: rest) c k = k (S (S (S i))) rest c) ->
  (forall i h l c k, m i [h; l] c k = None) ->
  (forall i b c, K i (hex2 b) c <> None) ->
  forall b fuel i c,
    length bs < fuel ->
    RepeatMatcher m [] K fuel 0 None i (join [comma] (map hex2 (b :: bs))) c
    = K (i + 3 * length bs) (hex2 (List.last bs b)) c.
Proof.
  intros Hpair Hlast HK. induction bs as [|b' bs IH]; intros b fuel i c Hf.
  - destruct fuel as [|fuel]; [simpl in Hf; lia|]. cbn [map join List.last length].
    rewrite RepeatMatcher_S. cbv zeta. cbn [clear_groups foldr].
    destruct (hex2_shape b) as (h & l & -> & _). rewrite Hlast.
    by rewrite Nat.mul_0_r, Nat.add_0_r.
  - destruct fuel as [|fuel]; [lia|].
    change (join [comma] (map hex2 (b :: b' :: bs)))
      with (hex2 b ++ comma :: join [comma] (map hex2 (b' :: bs))).
    destruct (hex2_shape b) as (h & l & -> & Hh & Hl & _). cbn [app].
    rewrite RepeatMatcher_S. cbv zeta. cbn [clear_groups foldr].
    rewrite Hpair by assumption.
    replace (Nat.eqb (S (S (S i))) i) with false by (symmetry; apply Nat.eqb_neq; lia).
    rewrite andb_false_r. cbn [Nat.pred fmap option_fmap option_map].
    rewrite IH by (simpl in Hf; lia).
    replace (S (S (S i)) + 3 * length bs) with (i + 3 * length (b' :: bs))
      by (simpl; lia).
    rewrite (last_cons_default b' b bs).
    destruct (K _ _ c) eqn:HKz; [reflexivity|]. by apply HK in HKz.
Qed.

Lemma length_join_hex2 bs b :
  length (join [comma] (map hex2 (b :: bs))) = 2 + 3 * length bs.
Proof.
  revert b. induction bs as [|b' bs IH]; intros b.
  - cbn [map join]. by rewrite length_hex2.
  - change (join [comma] (map hex2 (b :: b' :: bs)))
      with (hex2 b ++ comma :: join [comma] (map hex2 (b' :: bs))).
    rewrite length_app, length_hex2. cbn [length]. rewrite IH. simpl. lia.
Qed.

Lemma rmatch_payload_tail idx i5 bs b c :
  let payload := join [comma] (map hex2 (b :: bs)) in
  rmatch payload_tail i5 payload c (fun e _ c => Some (mkMatch idx e c))
  = Some (mkMatch idx (i5 + length payload) (<[5 := payload]> c)).
Proof.
  intros payload. subst payload. unfold payload_tail, RStar.
  cbn [RCat foldr rmatch groups app].
  rewrite (star_hex_pairs _ _ bs).
  - destruct (hex2_shape (List.last bs b)) as (h & l & -> & Hh & Hl & _).
    rewrite rmatch_rep2 by assumption. cbn [rmatch]. do 2 f_equal.
    + rewrite length_join_hex2. lia.
    + f_equal.
      replace (S (S (i5 + 3 * length bs)) - i5)
        with (length (join [comma] (map hex2 (b :: bs))))
        by (rewrite length_join_hex2; lia).
      apply firstn_all.
  - intros i h l rest c0 k Hh Hl. rewrite rmatch_rep2 by assumption.
    cbn [rmatch]. by rewrite N.eqb_refl.
  - intros i h l c0 k.
    destruct (hex_class h) eqn:Hh; [destruct (hex_class l) eqn:Hl|].
    + by rewrite rmatch_rep2 by assumption.
    + unfold RRep. cbn [rmatch length Nat.add]. rewrite RepeatMatcher_S. cbv zeta.
      cbn [rmatch groups clear_groups foldr]. rewrite Hh.
      cbn [Nat.eqb andb Nat.pred fmap option_fmap option_map].
      rewrite RepeatMatcher_S. cbv zeta. cbn [rmatch groups clear_groups foldr].
      by rewrite Hl.
    + unfold RRep. cbn [rmatch length Nat.add]. rewrite RepeatMatcher_S. cbv zeta.
      cbn [rmatch groups clear_groups foldr]. by rewrite Hh.
  - intros i b0 c0. destruct (hex2_shape b0) as (h & l & -> & Hh & Hl & _).
    by rewrite rmatch_rep2 by assumption.
  - rewrite length_join_hex2. lia.
Qed.

Lemma REGSTRING_PATTERN_shape :
  REGSTRING_PATTERN
  = RAlt (RAlt (RSeq (RChr dquote)
                  (RSeq (RGrp 1 (RStar (RSet dot))) (RSeq (RChr dquote) REmp)))
               (RSeq (RGrp 2 (RStr (js "dword")))
                  (RSeq (RStr (js ":"))
                     (RSeq (RGrp 3 (RRep 8 (RSet hex_class))) REmp))))
         (RSeq (RStr (js "hex"))
            (RSeq (ROpt tag_group) (RSeq (RStr (js ":")) payload_tail))).
Proof. reflexivity. Qed.

Lemma exec_from_cons r i x s :
  exec_from r i (x :: s)
  = match rmatch r i (x :: s) ∅ (fun e _ c => Some (mkMatch i e c)) with
    | Some m => Some m
    | None => exec_from r (S i) s
    end.
Proof. reflexivity. Qed.

Lemma rmatch_hex_untagged {X : Type} r1 r3 tail payload (k : Continuation X) z :
  rmatch tail 4 payload ∅ k = Some z ->
  rmatch (RAlt (RAlt (RSeq (RChr dquote) r1) (RSeq (RGrp 2 (RStr (js "dword"))) r3))
               (RSeq (RStr (js "hex"))
                  (RSeq (ROpt tag_group) (RSeq (RStr (js ":")) tail))))
    0 (104 :: 101 :: 120 :: 58 :: payload)%N ∅ k
  = Some z.
Proof.
  intros Htail.
  change (RStr (js "dword")) with (RSeq (RChr 100) (RStr (js "word"))).
  change (RStr (js "hex")) with (RSeq (RChr 104) (RSeq (RChr 101) (RSeq (RChr 120) REmp))).
  change (RStr (js ":")) with (RSeq (RChr 58) REmp).
  cbn [rmatch]. change (104 =? dquote)%N with false. change (104 =? 100)%N with false.
  rewrite !N.eqb_refl. cbv iota.
  unfold ROpt, tag_group. cbn [rmatch length Nat.add].
  rewrite RepeatMatcher_S. cbv zeta.
  change (RStr (js "(")) with (RSeq (RChr 40) REmp). cbn [RCat foldr rmatch].
  change (58 =? 40)%N with false. cbv iota. rewrite N.eqb_refl.
  exact Htail.
Qed.

Lemma exec_hex_untagged bs b :
  let payload := join [comma] (map hex2 (b :: bs)) in
  exec REGSTRING_PATTERN (js "hex:" ++ payload)
  = Some (mkMatch 0 (4 + length payload) (<[5 := payload]> ∅)).
Proof.
  intros payload. unfold exec. rewrite REGSTRING_PATTERN_shape.
  change (js "hex:" ++ payload) with (104 :: (101 :: 120 :: 58 :: payload))%N.
  rewrite exec_from_cons.
  rewrite (rmatch_hex_untagged _ _ _ _ _
             (mkMatch 0 (4 + length payload) (<[5 := payload]> ∅))); [reflexivity|].
  apply rmatch_payload_tail.
Qed.

Lemma rmatch_hex_tagged {X : Type} r1 r3 tail t payload (k : Continuation X) z :
  tag_class t = true ->
  rmatch tail 7 payload (<[4 := [40; t; 41]%N]> ∅) k = Some z ->
  rmatch (RAlt (RAlt (RSeq (RChr dquote) r1) (RSeq (RGrp 2 (RStr (js "dword"))) r3))
               (RSeq (RStr (js "hex"))
                  (RSeq (ROpt tag_group) (RSeq (RStr (js ":")) tail))))
    0 (104 :: 101 :: 120 :: 40 :: t :: 41 :: 58 :: payload)%N ∅ k
  = Some z.
Proof.
  intros Ht Htail.
  change (RStr (js "dword")) with (RSeq (RChr 100) (RStr (js "word"))).
  change (RStr (js "hex")) with (RSeq (RChr 104) (RSeq (RChr 101) (RSeq (RChr 120) REmp))).
  change (RStr (js ":")) with (RSeq (RChr 58) REmp).
  cbn [rmatch]. change (104 =? dquote)%N with false. change (104 =? 100)%N with false.
  rewrite !N.eqb_refl. cbv iota.
  unfold ROpt, tag_group. cbn [rmatch length Nat.add].
  rewrite RepeatMatcher_S. cbv zeta.
  change (RStr (js "(")) with (RSeq (RChr 40) REmp).
  change (RStr (js ")")) with (RSeq (RChr 41) REmp).
  unfold RPlus. cbn [RCat foldr rmatch length Nat.add]. rewrite N.eqb_refl.
  rewrite RepeatMatcher_S. cbv zeta. cbn [rmatch groups clear_groups foldr app].
  rewrite Ht. cbn [Nat.eqb andb Nat.pred fmap option_fmap option_map].
  rewrite RepeatMatcher_S. cbv zeta. cbn [rmatch groups clear_groups foldr app].
  change (tag_class 41) with false. cbv iota. rewrite !N.eqb_refl.
  replace (Nat.eqb 6 3) with false by reflexivity. cbn [andb].
  destruct (length payload + 1) as [|f] eqn:Hf; [lia|].
  rewrite RepeatMatcher_S. cbn [Nat.pred fmap option_fmap option_map rmatch].
  rewrite N.eqb_refl.
  change (take (6 - 3) (40 :: t :: 41 :: 58 :: payload)%N) with [40; t; 41]%N.
  change (Nat.eqb 5 2) with false. cbv iota.
  by rewrite delete_empty, Htail.
Qed.

Lemma exec_hex_tagged t bs b :
  tag_class t = true ->
  let payload := join [comma] (map hex2 (b :: bs)) in
  exec REGSTRING_PATTERN (js "hex(" ++ [t] ++ js "):" ++ payload)
  = Some (mkMatch 0 (7 + length payload)
            (<[5 := payload]> (<[4 := js "(" ++ [t] ++ js ")"]> ∅))).
Proof.
  intros Ht payload. unfold exec. rewrite REGSTRING_PATTERN_shape.
  change (js "hex(" ++ [t] ++ js "):" ++ payload)
    with (104 :: (101 :: 120 :: 40 :: t :: 41 :: 58 :: payload))%N.
  rewrite exec_from_cons.
  rewrite (rmatch_hex_tagged _ _ _ t _ _
             (mkMatch 0 (7 + length payload)
                (<[5 := payload]> (<[4 := js "(" ++ [t] ++ js ")"]> ∅))) Ht); [reflexivity|].
  apply (rmatch_payload_tail 0 7 bs b (<[4 := [40; t; 41]%N]> ∅)).
Qed.

Lemma decode_payload bs :
  bs <> [] ->
  map (fun v => to_uint8 (parseInt16 v)) (split (bytes_to_hex bs) [comma]) = bs.
Proof.
  intros Hne. unfold bytes_to_hex. fold hex2. rewrite split_join.
  - rewrite map_map. rewrite <- (map_id bs) at 2. apply map_ext, parse_hex2.
  - by destruct bs.
  - apply Forall_map, Forall_forall. intros b _.
    destruct (hex2_shape b) as (h & l & -> & _ & _ & Hh & Hl).
    intros Hin. apply elem_of_cons in Hin as [Heq|Hin]; [congruence|].
    apply list_elem_of_singleton in Hin. congruence.
Qed.

(** X18.  Where the decoder does give back what the encoder writes: a
    [BINARY] and a [NONE] with at least one byte, in both modes; on the
    same text with the tag [a] the [RESOURCE_REQUIREMENTS_LIST] comes
    back as a [NONE] with the same bytes. *)
Theorem hex_payload_round_trip bs strict :
  bs <> [] ->
  (s ← data_to_regstring (BINARY bs) strict; regstring_to_data s)
  = Ret (Some (BINARY bs))
  /\ (s ← data_to_regstring (NONE bs) strict; regstring_to_data s)
     = Ret (Some (NONE bs))
  /\ (s ← data_to_regstring (RESOURCE_REQUIREMENTS_LIST bs) strict; regstring_to_data s)
     = Ret (Some (NONE bs)).
Proof.
  intros Hne. pose proof (decode_payload bs Hne) as Hd.
  destruct bs as [|b bs]; [done|]. unfold bytes_to_hex in Hd. fold hex2 in Hd.
  cbn [data_to_regstring mbind res_bind]. unfold bytes_to_hex. fold hex2.
  unfold regstring_to_data.
  rewrite (exec_hex_untagged bs b).
  change (js "hex(0):" ++ join [comma] (map hex2 (b :: bs)))
    with (js "hex(" ++ [48%N] ++ js "):" ++ join [comma] (map hex2 (b :: bs))).
  change (js "hex(a):" ++ join [comma] (map hex2 (b :: bs)))
    with (js "hex(" ++ [97%N] ++ js "):" ++ join [comma] (map hex2 (b :: bs))).
  rewrite !exec_hex_tagged by reflexivity. cbv zeta. cbn [m_caps].
  rewrite !lookup_insert_eq.
  rewrite !(lookup_insert_ne _ 5) by lia. rewrite !lookup_insert_eq.
  rewrite !(lookup_insert_ne _ 4) by lia. rewrite !lookup_empty.
  cbn [truthy negb from_option id app]. rewrite Hd.
  change (js "(" ++ 48%N :: js ")") with (40 :: js "0)")%N.
  change (js "(" ++ 97%N :: js ")") with (40 :: js "a)")%N.
  cbn [truthy negb]. rewrite !parseInt16_paren. by repeat split.
Qed.

(** X19.  A [SZ] that is not empty and holds no line terminator is given
    back by the decoder from what the encoder writes, in both modes; an
    [EXPAND_SZ] written in the plain mode comes back as a [SZ]. *)
Theorem string_round_trip t strict :
  t <> [] -> Forall (fun a => is_line_terminator a = false) t ->
  (s ← data_to_regstring (SZ t) strict; regstring_to_data s) = Ret (Some (SZ t))
  /\ (s ← data_to_regstring (EXPAND_SZ t) false; regstring_to_data s)
     = Ret (Some (SZ t)).
Proof.
  intros Hne Ht.
  assert (Hq : regstring_to_data (quoted t) = Ret (Some (SZ t))).
  { apply regstring_quoted; [exact Hne|]. eapply Forall_impl; [exact Ht|].
    intros a Ha. unfold dot. by rewrite Ha. }
  by split.
Qed.

(** ** The [dword:] form *)

Lemma hex_class_elem c :
  hex_class c = true ->
  In c [48; 49; 50; 51; 52; 53; 54; 55; 56; 57; 97; 98; 99; 100; 101; 102;
        65; 66; 67; 68; 69; 70]%N.
Proof.
  unfold hex_class, in_range. cbn [js list_ascii_of_string map].
  change (N_of_ascii "0") with 48%N. change (N_of_ascii "9") with 57%N.
  change (N_of_ascii "a") with 97%N. change (N_of_ascii "f") with 102%N.
  change (N_of_ascii "A") with 65%N. change (N_of_ascii "F") with 70%N.
  rewrite !orb_true_iff, !andb_true_iff, !N.leb_le. cbn [In]. lia.
Qed.

Ltac hex_cases H :=
  apply hex_class_elem in H; cbn [In] in H;
  repeat (destruct H as [<-|H]); [..|destruct H].

Lemma hex_class_value c :
  hex_class c = true -> exists d, hex_digit_value c = Some d.
Proof. intros H. hex_cases H; eexists; reflexivity. Qed.

Lemma digit_char_hex d :
  (d < 16)%N ->
  hex_class (digit_char d) = true /\ hex_digit_value (digit_char d) = Some d.
Proof.
  intros Hd.
  assert (H : In d [0; 1; 2; 3; 4; 5; 6; 7; 8; 9; 10; 11; 12; 13; 14; 15]%N)
    by (cbn [In]; lia).
  cbn [In] in H. repeat (destruct H as [<-|H]); [..|destruct H]; by split.
Qed.

Lemma to_radix_app fuel :
  forall n acc, to_radix fuel 16 n acc = to_radix fuel 16 n [] ++ acc.
Proof.
  induction fuel as [|f IH]; intros n acc; cbn [to_radix]; [reflexivity|].
  destruct (n =? 0)%N; [reflexivity|].
  rewrite (IH _ (_ :: acc)), (IH _ [_]). by rewrite <- app_assoc.
Qed.

Lemma to_radix_snoc f n :
  n <> 0%N ->
  to_radix (S f) 16 n [] = to_radix f 16 (n / 16) [] ++ [digit_char (n mod 16)].
Proof.
  intros Hn. cbn [to_radix]. apply N.eqb_neq in Hn as ->. apply to_radix_app.
Qed.

Lemma to_radix_zero fuel : to_radix fuel 16 0 [] = [].
Proof. by destruct fuel. Qed.

Lemma to_radix_hex fuel :
  forall n, Forall (fun c => hex_class c = true) (to_radix fuel 16 n []).
Proof.
  induction fuel as [|f IH]; intros n; [constructor|].
  destruct (N.eq_dec n 0%N) as [->|Hn]; [constructor|].
  rewrite (to_radix_snoc f n Hn). apply Forall_app. split; [apply IH|].
  constructor; [|constructor]. apply digit_char_hex. by apply N.mod_lt.
Qed.

Lemma hex_prefix_app l r :
  Forall (fun c => hex_class c = true) l ->
  forall acc, hex_prefix (l ++ r) acc = hex_prefix r (hex_prefix l acc).
Proof.
  induction 1 as [|c l Hc _ IH]; intros acc; [reflexivity|].
  cbn [app hex_prefix]. destruct (hex_class_value c Hc) as [d ->]. apply IH.
Qed.

Lemma to_radix_value fuel :
  forall n, (n < 2 ^ N.of_nat fuel)%N ->
            hex_prefix (to_radix fuel 16 n []) None = if (n =? 0)%N then None else Some n.
Proof.
  induction fuel as [|f IH]; intros n Hn.
  - change (2 ^ N.of_nat 0)%N with 1%N in Hn. assert (n = 0%N) as -> by lia. reflexivity.
  - destruct (N.eq_dec n 0%N) as [->|Hne]; [reflexivity|].
    rewrite (to_radix_snoc f n Hne), (hex_prefix_app _ _ (to_radix_hex f _)).
    rewrite Nat2N.inj_succ, N.pow_succ_r' in Hn.
    assert (Hdiv : (n / 16 < 2 ^ N.of_nat f)%N).
    { apply N.Div0.div_lt_upper_bound. lia. }
    rewrite (IH _ Hdiv). cbn [hex_prefix].
    assert (Hmod : (n mod 16 < 16)%N) by (apply N.mod_lt; lia).
    rewrite (proj2 (digit_char_hex (n mod 16) Hmod)).
    apply N.eqb_neq in Hne as ->. f_equal.
    assert (Hdm : n = (16 * (n / 16) + n mod 16)%N) by (apply N.div_mod; lia).
    destruct (n / 16 =? 0)%N eqn:Hz; cbn [default from_option id].
    + apply N.eqb_eq in Hz. lia.
    + lia.
Qed.

Lemma to_radix_length_le k :
  forall fuel n, (n < 16 ^ N.of_nat k)%N -> length (to_radix fuel 16 n []) <= k.
Proof.
  induction k as [|k IH]; intros fuel n Hn.
  - change (16 ^ N.of_nat 0)%N with 1%N in Hn. assert (n = 0%N) as -> by lia.
    by rewrite to_radix_zero.
  - destruct fuel as [|f]; [simpl; lia|].
    destruct (N.eq_dec n 0%N) as [->|Hne]; [simpl; lia|].
    rewrite (to_radix_snoc f n Hne), length_app. cbn [length].
    rewrite Nat2N.inj_succ, N.pow_succ_r' in Hn.
    assert (Hdiv : (n / 16 < 16 ^ N.of_nat k)%N).
    { apply N.Div0.div_lt_upper_bound. lia. }
    pose proof (IH f _ Hdiv). lia.
Qed.

Lemma to_radix_length_ge k :
  forall fuel n, (16 ^ N.of_nat k <= n)%N -> (n < 2 ^ N.of_nat fuel)%N ->
                 S k <= length (to_radix fuel 16 n []).
Proof.
  induction k as [|k IH]; intros fuel n Hlo Hhi.
  - change (16 ^ N.of_nat 0)%N with 1%N in Hlo.
    destruct fuel as [|f]; [change (2 ^ N.of_nat 0)%N with 1%N in Hhi; lia|].
    rewrite (to_radix_snoc f n) by lia. rewrite length_app. cbn [length]. lia.
  - rewrite Nat2N.inj_succ, N.pow_succ_r' in Hlo.
    assert (Hpos : (0 < 16 ^ N.of_nat k)%N) by (apply N.neq_0_lt_0, N.pow_nonzero; lia).
    destruct fuel as [|f]; [change (2 ^ N.of_nat 0)%N with 1%N in Hhi; lia|].
    rewrite (to_radix_snoc f n) by lia. rewrite length_app. cbn [length].
    rewrite Nat2N.inj_succ, N.pow_succ_r' in Hhi.
    assert (Hd1 : (16 ^ N.of_nat k <= n / 16)%N).
    { apply N.div_le_lower_bound; lia. }
    assert (Hd2 : (n / 16 < 2 ^ N.of_nat f)%N).
    { apply N.Div0.div_lt_upper_bound. lia. }
    pose proof (IH f _ Hd1 Hd2). lia.
Qed.

(** The text of a number in base sixteen: hexadecimal digits that read
    back as the number, as many as its size asks for. *)
Lemma N_toString_hex n :
  let l := N_toString 16 n in
  Forall (fun c => hex_class c = true) l
  /\ hex_prefix l None = Some n
  /\ l <> []
  /\ (forall k, (n < 16 ^ N.of_nat k)%N -> 0 < k -> length l <= k)
  /\ (forall k, (16 ^ N.of_nat k <= n)%N -> S k <= length l).
Proof.
  unfold N_toString. destruct (N.eq_dec n 0%N) as [->|Hne].
  - cbn [N.eqb]. split; [by repeat constructor|]. split; [reflexivity|].
    split; [discriminate|]. split.
    + intros k _ Hk. simpl. lia.
    + intros k Hk. pose proof (N.pow_nonzero 16%N (N.of_nat k) ltac:(lia)). lia.
  - pose proof Hne as Hne'. apply N.eqb_neq in Hne' as ->.
    assert (Hf : (n < 2 ^ N.of_nat (S (N.to_nat (N.log2 n))))%N).
    { rewrite Nat2N.inj_succ, N2Nat.id. apply N.log2_spec. lia. }
    split; [apply to_radix_hex|]. split.
    { rewrite (to_radix_value _ _ Hf). by apply N.eqb_neq in Hne as ->. }
    split.
    { rewrite (to_radix_snoc _ n Hne). by destruct (to_radix _ _ _ _). }
    split.
    + intros k Hk _. by apply to_radix_length_le.
    + intros k Hk. by apply to_radix_length_ge.
Qed.

Lemma RepeatMatcher_set_exact {X : Type} (p : N -> bool) (k : Continuation X) rest :
  forall t fuel i c,
    Forall (fun x => p x = true) t -> length t < fuel ->
    RepeatMatcher (rmatch (RSet p)) [] k fuel (length t) (Some (length t)) i (t ++ rest) c
    = k (i + length t) rest c.
Proof.
  induction t as [|x t IH]; intros fuel i c Ht Hf.
  - destruct fuel as [|fuel]; [simpl in Hf; lia|]. rewrite RepeatMatcher_S.
    cbn [length app]. by rewrite Nat.add_0_r.
  - destruct fuel as [|fuel]; [lia|]. inversion Ht as [|? ? Hx Ht']; subst.
    rewrite RepeatMatcher_S. cbn [length]. cbv zeta.
    cbn [rmatch app clear_groups foldr]. rewrite Hx.
    cbn [Nat.eqb andb Nat.pred fmap option_fmap option_map].
    rewrite IH; [|assumption | simpl in Hf; lia]. f_equal. lia.
Qed.

Lemma rmatch_rep_exact {X : Type} (p : N -> bool) (k : Continuation X) t i c :
  Forall (fun x => p x = true) t ->
  rmatch (RRep (length t) (RSet p)) i t c k = k (i + length t) [] c.
Proof.
  intros Ht.
  assert (Hf : length t < length t + length t + 1) by lia.
  pose proof (RepeatMatcher_set_exact p k [] t _ i c Ht Hf) as H.
  rewrite app_nil_r in H. exact H.
Qed.

Lemma RepeatMatcher_set_short {X : Type} (p : N -> bool) (k : Continuation X) :
  forall fuel n mx t i c,
    length t < n -> n <= mx ->
    RepeatMatcher (rmatch (RSet p)) [] k fuel n (Some mx) i t c = None.
Proof.
  induction fuel as [|fuel IH]; intros n mx t i c Ht Hn; [reflexivity|].
  rewrite RepeatMatcher_S. destruct mx as [|mx]; [lia|]. destruct n as [|n]; [lia|].
  cbv zeta. cbn [rmatch clear_groups foldr]. destruct t as [|x t]; [reflexivity|].
  destruct (p x); [|reflexivity].
  cbn [Nat.eqb andb Nat.pred fmap option_fmap option_map].
  apply IH; simpl in *; lia.
Qed.

Lemma no_start_shape {X : Type} r1 r2 r3 x s i c (k : Continuation X) :
  x <> dquote -> x <> 104%N -> (x = 100%N -> head s <> Some 119%N) ->
  rmatch (RAlt (RAlt (RSeq (RChr dquote) r1)
                     (RSeq (RGrp 2 (RSeq (RChr 100) (RSeq (RChr 119) (RStr (js "ord")))))
                        r2))
               (RSeq (RSeq (RChr 104) (RStr (js "ex"))) r3))
    i (x :: s) c k = None.
Proof.
  intros Hq Hh Hd. cbn [rmatch].
  apply N.eqb_neq in Hq as ->. apply N.eqb_neq in Hh as ->.
  destruct (x =? 100)%N eqn:Hx; [|reflexivity].
  apply N.eqb_eq in Hx. specialize (Hd Hx). destruct s as [|y s]; [reflexivity|].
  destruct (y =? 119)%N eqn:Hy; [|reflexivity].
  apply N.eqb_eq in Hy as ->. by destruct Hd.
Qed.

(** No match of the pattern starts at a character that is not a quote,
    nor [h], nor a [d] followed by [w]. *)
Lemma regstring_no_start {X : Type} x s i c (k : Continuation X) :
  x <> dquote -> x <> 104%N -> (x = 100%N -> head s <> Some 119%N) ->
  rmatch REGSTRING_PATTERN i (x :: s) c k = None.
Proof. rewrite REGSTRING_PATTERN_shape. apply no_start_shape. Qed.

Lemma regstring_no_start_nil {X : Type} i c (k : Continuation X) :
  rmatch REGSTRING_PATTERN i [] c k = None.
Proof.
  rewrite REGSTRING_PATTERN_shape.
  remember payload_tail as tail eqn:Htail. remember tag_group as tg eqn:Htg.
  change (RStr (js "dword")) with (RSeq (RChr 100) (RStr (js "word"))).
  change (RStr (js "hex")) with (RSeq (RChr 104) (RStr (js "ex"))).
  reflexivity.
Qed.

Lemma exec_from_hex_none t :
  Forall (fun c => hex_class c = true) t ->
  forall i, exec_from REGSTRING_PATTERN i t = None.
Proof.
  induction 1 as [|x t Hx Ht IH]; intros i; cbn [exec_from].
  - by rewrite regstring_no_start_nil.
  - rewrite regstring_no_start; [apply IH| | |].
    + intros ->. discriminate.
    + intros ->. discriminate.
    + intros _. destruct Ht as [|y t Hy _]; [discriminate|].
      cbn [head]. intros [= ->]. discriminate.
Qed.

Lemma rmatch_dword_prefix {X : Type} rep tg tail l (k : Continuation X) :
  rmatch (RAlt (RAlt (RSeq (RChr dquote)
                        (RSeq (RGrp 1 (RStar (RSet dot))) (RSeq (RChr dquote) REmp)))
                     (RSeq (RGrp 2 (RStr (js "dword")))
                        (RSeq (RStr (js ":")) (RSeq (RGrp 3 rep) REmp))))
               (RSeq (RStr (js "hex")) (RSeq (ROpt tg) (RSeq (RStr (js ":")) tail))))
    0 (js "dword:" ++ l) ∅ k
  = rmatch rep 6 l (<[2 := js "dword"]> ∅)
      (fun i' s' c' => k i' s' (<[3 := take (i' - 6) l]> c')).
Proof.
  change (js "dword:" ++ l) with (100 :: 119 :: 111 :: 114 :: 100 :: 58 :: l)%N.
  change (RStr (js "dword"))
    with (RSeq (RChr 100) (RSeq (RChr 119) (RSeq (RChr 111) (RSeq (RChr 114)
            (RSeq (RChr 100) REmp))))).
  change (RStr (js "hex")) with (RSeq (RChr 104) (RStr (js "ex"))).
  change (RStr (js ":")) with (RSeq (RChr 58) REmp).
  cbn [rmatch].
  change (100 =? dquote)%N with false. change (100 =? 104)%N with false.
  rewrite !N.eqb_refl. cbv iota.
  change (take (5 - 0) (100 :: 119 :: 111 :: 114 :: 100 :: 58 :: l)%N) with (js "dword").
  by destruct (rmatch rep 6 l _ _).
Qed.

Lemma exec_dword l :
  length l = 8 -> Forall (fun c => hex_class c = true) l ->
  exec REGSTRING_PATTERN (js "dword:" ++ l)
  = Some (mkMatch 0 14 (<[3 := l]> (<[2 := js "dword"]> ∅))).
Proof.
  intros Hl Hhex. unfold exec. rewrite REGSTRING_PATTERN_shape.
  assert (Hm : forall r : regex,
             exec_from r 0 (js "dword:" ++ l)
             = match rmatch r 0 (js "dword:" ++ l) ∅ (fun e _ c => Some (mkMatch 0 e c)) with
               | Some m => Some m
               | None => exec_from r 1 (js "word:" ++ l)
               end) by reflexivity.
  rewrite Hm, rmatch_dword_prefix. rewrite <- Hl at 1.
  rewrite rmatch_rep_exact by exact Hhex. rewrite Hl.
  change (6 + 8 - 6) with 8. change (6 + 8) with 14.
  replace (take 8 l) with l; [reflexivity|].
  rewrite <- Hl. symmetry. apply firstn_all.
Qed.

Lemma exec_dword_short l :
  length l < 8 -> Forall (fun c => hex_class c = true) l ->
  exec REGSTRING_PATTERN (js "dword:" ++ l) = None.
Proof.
  intros Hl Hhex. unfold exec.
  assert (Hm : forall r : regex,
             exec_from r 0 (js "dword:" ++ l)
             = match rmatch r 0 (js "dword:" ++ l) ∅ (fun e _ c => Some (mkMatch 0 e c)) with
               | Some m => Some m
               | None => exec_from r 1 (119 :: 111 :: 114 :: 100 :: 58 :: l)%N
               end) by reflexivity.
  rewrite Hm. rewrite REGSTRING_PATTERN_shape at 1. rewrite rmatch_dword_prefix.
  unfold RRep.
  assert (Hq : forall i c (k : Continuation RegExpMatch),
             rmatch (RQuant 8 (Some 8) (RSet hex_class)) i l c k
             = RepeatMatcher (rmatch (RSet hex_class)) [] k (8 + length l + 1) 8 (Some 8)
                 i l c) by reflexivity.
  rewrite Hq, RepeatMatcher_set_short by lia.
  assert (He : forall i x s,
             exec_from REGSTRING_PATTERN i (x :: s)
             = match rmatch REGSTRING_PATTERN i (x :: s) ∅
                       (fun e _ c => Some (mkMatch i e c)) with
               | Some m => Some m
               | None => exec_from REGSTRING_PATTERN (S i) s
               end) by reflexivity.
  rewrite He, (regstring_no_start 119%N) by (try discriminate; intros [=]).
  rewrite He, (regstring_no_start 111%N) by (try discriminate; intros [=]).
  rewrite He, (regstring_no_start 114%N) by (try discriminate; intros [=]).
  rewrite He, (regstring_no_start 100%N) by (try discriminate; intros _; discriminate).
  rewrite He, (regstring_no_start 58%N) by (try discriminate; intros [=]).
  by apply exec_from_hex_none.
Qed.

Lemma trimStart_hex c r : hex_class c = true -> trimStart (c :: r) = c :: r.
Proof. intros H. hex_cases H; reflexivity. Qed.

Lemma parseInt16_hex c1 c2 r :
  hex_class c1 = true -> hex_class c2 = true ->
  parseInt16 (c1 :: c2 :: r)
  = match hex_prefix (c1 :: c2 :: r) None with
    | Some n => Some (Z.of_N n)
    | None => None
    end.
Proof.
  intros H1 H2. unfold parseInt16. rewrite (trimStart_hex c1 _ H1).
  hex_cases H1; try reflexivity.
  hex_cases H2; reflexivity.
Qed.

(** X25.  A [DWORD] in the [dword:] form, which both modes write, is
    given back exactly when its text has eight hexadecimal digits: a
    value from 2^28 up to 2^32 comes back as it was, and a smaller one is
    not recognised, the decoder answers [undefined].  A
    [DWORD_BIG_ENDIAN] written in the plain mode shares the form, and
    comes back as a [DWORD]. *)
Theorem dword_round_trip z strict :
  (0 <= z < 2 ^ 32)%Z ->
  (s ← data_to_regstring (DWORD (Num z)) strict; regstring_to_data s)
  = Ret (if (z <? 2 ^ 28)%Z then None else Some (DWORD (Num z)))
  /\ (s ← data_to_regstring (DWORD_BIG_ENDIAN (Num z)) false; regstring_to_data s)
     = Ret (if (z <? 2 ^ 28)%Z then None else Some (DWORD (Num z))).
Proof.
  intros Hz.
  assert (H : regstring_to_data (js "dword:" ++ number_toString 16 (Num z))
              = Ret (if (z <? 2 ^ 28)%Z then None else Some (DWORD (Num z)))).
  { assert (Hs : number_toString 16 (Num z) = N_toString 16 (Z.to_N z)).
    { cbn [number_toString]. unfold Z_toString. destruct z; [reflexivity..|lia]. }
    rewrite Hs. destruct (N_toString_hex (Z.to_N z)) as (Hhex & Hval & Hne & Hle & Hge).
    cbv zeta in *. set (l := N_toString 16 (Z.to_N z)) in *.
    unfold regstring_to_data. destruct (z <? 2 ^ 28)%Z eqn:Hsmall.
    - apply Z.ltb_lt in Hsmall.
      rewrite exec_dword_short; [reflexivity | | exact Hhex].
      assert (length l <= 7); [|lia]. apply Hle; [|lia].
      change (16 ^ N.of_nat 7)%N with (Z.to_N (2 ^ 28)). lia.
    - apply Z.ltb_ge in Hsmall.
      assert (Hl : length l = 8).
      { assert (length l <= 8).
        { apply Hle; [|lia]. change (16 ^ N.of_nat 8)%N with (Z.to_N (2 ^ 32)). lia. }
        assert (8 <= length l); [|lia].
        apply (Hge 7). change (16 ^ N.of_nat 7)%N with (Z.to_N (2 ^ 28)). lia. }
      rewrite (exec_dword l Hl Hhex). cbv zeta. cbn [m_caps].
      rewrite (lookup_insert_ne _ 3 1), (lookup_insert_ne _ 2 1), lookup_empty by lia.
      rewrite (lookup_insert_ne _ 3 2), lookup_insert_eq by lia.
      rewrite lookup_insert_eq. cbn [truthy js list_ascii_of_string map default from_option id].
      destruct l as [|c1 [|c2 r]]; [discriminate..|].
      inversion Hhex as [|? ? Hc1 Hhex']; subst. inversion Hhex' as [|? ? Hc2 _]; subst.
      rewrite (parseInt16_hex c1 c2 r Hc1 Hc2), Hval. cbn [number_of].
      by rewrite Z2N.id by lia. }
  split; [|exact H]. by destruct strict.
Qed.

(** X26.  A [QWORD] written in the plain mode is never read back: the
    pattern of the decoder has no [qword:] form, and the decoder answers
    [undefined] for every value. *)
Theorem plain_qword_is_not_read z :
  (s ← data_to_regstring (QWORD z) false; regstring_to_data s) = Ret None.
Proof.
  cbn [data_to_regstring mbind res_bind]. unfold regstring_to_data, exec.
  assert (He : forall i x s,
             exec_from REGSTRING_PATTERN i (x :: s)
             = match rmatch REGSTRING_PATTERN i (x :: s) ∅
                       (fun e _ c => Some (mkMatch i e c)) with
               | Some m => Some m
               | None => exec_from REGSTRING_PATTERN (S i) s
               end) by reflexivity.
  assert (Hpre : forall t,
             exec_from REGSTRING_PATTERN 0 (js "qword:" ++ t)
             = exec_from REGSTRING_PATTERN 6 t).
  { intros t. change (js "qword:" ++ t) with (113 :: 119 :: 111 :: 114 :: 100 :: 58 :: t)%N.
    rewrite He, (regstring_no_start 113%N) by (try discriminate; intros [=]).
    rewrite He, (regstring_no_start 119%N) by (try discriminate; intros [=]).
    rewrite He, (regstring_no_start 111%N) by (try discriminate; intros [=]).
    rewrite He, (regstring_no_start 114%N) by (try discriminate; intros [=]).
    rewrite He, (regstring_no_start 100%N) by (try discriminate; intros _; discriminate).
    by rewrite He, (regstring_no_start 58%N) by (try discriminate; intros [=]). }
  rewrite Hpre. unfold Z_toString.
  destruct z as [|p|p].
  - by rewrite exec_from_hex_none by apply N_toString_hex.
  - by rewrite exec_from_hex_none by apply N_toString_hex.
  - change (js "-" ++ N_toString 16 (N.pos p)) with (45%N :: N_toString 16 (N.pos p)).
    rewrite He, (regstring_no_start 45%N) by (try discriminate; intros [=]).
    by rewrite exec_from_hex_none by apply N_toString_hex.
Qed.


(** X21.  Existence, once confirmed, is never revoked, and a handle never
    changes: after any event a node is still there with its name and its
    parent, and if it was confirmed it still is, so that [exists] on it
    answers [true] with no command run.  This holds after the successful
    [destroy] of the key, too. *)
Theorem existence_is_never_revoked env st e this :
  reachable env st -> event_ok st e -> this < length (nodes st) ->
  let st' := step env st e in
  this < length (nodes st')
  /\ name (nodes st' !!! this) = name (nodes st !!! this)
  /\ parent (nodes st' !!! this) = parent (nodes st !!! this)
  /\ (found (nodes st !!! this) = true ->
      found (nodes st' !!! this) = true
      /\ procs (exists_ env st' this).1 = procs st'
      /\ results (exists_ env st' this).1 !! (exists_ env st' this).2
         = Some (Fulfilled (VBool true))).
Proof.
  intros Hreach Hok Hlt st'.
  destruct (preserved_step env (fun _ => True) st e (reachable_inv env st Hreach) Hok)
    as [_ Hext]; [by right|].
  destruct (lookup_lt_is_Some_2 (nodes st) this Hlt) as [n Hn].
  destruct (Hext this n Hn) as (n' & Hn' & Hname & Hpar & Hfound).
  pose proof (lookup_lt_Some _ _ _ Hn') as Hlt'.
  rewrite (list_lookup_total_correct _ _ _ Hn), (list_lookup_total_correct _ _ _ Hn').
  split; [exact Hlt'|]. split; [exact Hname|]. split; [exact Hpar|].
  intros Hf. apply Hfound in Hf. split; [exact Hf|].
  destruct (exists_outcomes env st' this Hlt') as (_ & Ht & _).
  apply Ht. by rewrite (list_lookup_total_correct _ _ _ Hn').
Qed.

(** ** A key that was destroyed *)

Lemma subkey_loop_length segs :
  forall ns p, length ns <= length (subkey_loop ns p segs).1.
Proof.
  induction segs as [|i rest IH]; intros ns p; cbn [subkey_loop]; [simpl; lia|].
  destruct (_keys (ns !!! p) !! i) as [c|]; [apply IH|].
  etransitivity; [|apply IH]. rewrite length_alter, length_app. simpl. lia.
Qed.

Lemma subkey_loop_descend segs :
  forall ns p n, descend ns p segs = Some n -> subkey_loop ns p segs = (ns, n).
Proof.
  induction segs as [|i rest IH]; intros ns p n; cbn [descend subkey_loop].
  - by intros [= ->].
  - destruct (_keys (ns !!! p) !! i) as [c|]; [apply IH | discriminate].
Qed.

Lemma subkey_loop_fixed segs :
  forall ns p,
    length (subkey_loop ns p segs).1 = length ns ->
    descend ns p segs = Some (subkey_loop ns p segs).2.
Proof.
  induction segs as [|i rest IH]; intros ns p; cbn [descend subkey_loop]; [done|].
  destruct (_keys (ns !!! p) !! i) as [c|]; [apply IH|].
  intros Hl.
  pose proof (subkey_loop_length rest
                (alter (set_keys (<[i := length ns]>)) p (ns ++ [new_KeyImp i (Some p)]))
                (length ns)) as Hle.
  rewrite length_alter, length_app in Hle. simpl in Hle. lia.
Qed.

Lemma descend_app ns pre rest :
  forall p, descend ns p (pre ++ rest)
            = match descend ns p pre with
              | Some q => descend ns q rest
              | None => None
              end.
Proof.
  induction pre as [|i pre IH]; intros p; cbn [app descend]; [reflexivity|].
  destruct (_keys (ns !!! p) !! i) as [c|]; [apply IH | reflexivity].
Qed.

Lemma subkey_loop_app ns pre rest :
  forall p q, descend ns p pre = Some q ->
              subkey_loop ns p (pre ++ rest) = subkey_loop ns q rest.
Proof.
  induction pre as [|i pre IH]; intros p q; cbn [app descend subkey_loop].
  - by intros [= ->].
  - destruct (_keys (ns !!! p) !! i) as [c|]; [apply IH | discriminate].
Qed.

(** The descent to [q] reads child entries of nodes older than [q] only. *)
Lemma descend_frame ns pre :
  tree_ok ns ->
  forall p q, p < length ns -> descend ns p pre = Some q ->
    p <= q /\ q < length ns
    /\ forall ns2, (forall a, a < q -> _keys (ns2 !!! a) = _keys (ns !!! a)) ->
                   descend ns2 p pre = Some q.
Proof.
  intros Ht. induction pre as [|i pre IH]; intros p q Hlt; cbn [descend].
  - intros [= ->]. split; [lia|]. split; [exact Hlt|]. reflexivity.
  - destruct (_keys (ns !!! p) !! i) as [c|] eqn:Hc; [|discriminate]. intros Hd.
    pose proof (lookup_total_keys _ _ _ _ Hc) as Hp.
    destruct (proj2 Ht _ _ _ _ Hp Hc) as (cn & Hcn & Hcp & _).
    pose proof (proj1 Ht _ _ _ Hcn Hcp) as Hpc.
    destruct (IH c q (lookup_lt_Some _ _ _ Hcn) Hd) as (Hcq & Hq & Hfr).
    split; [lia|]. split; [exact Hq|]. intros ns2 Hsame.
    rewrite (Hsame p) by lia. rewrite Hc. by apply Hfr.
Qed.

(** X22.  A key that was destroyed is resolved afresh.  If [key] resolves
    to the node [n] and the command of [destroy] on [n] succeeds, the
    next [getRawKey] of the same key returns a new node, not [n]: it has
    the path [n] has and it is not confirmed, while [n] keeps the flag it
    had. *)
Theorem destroyed_key_resolves_afresh env st key view n i proc r
    error code stdout stderr out :
  reachable env st ->
  getRawKey st key view = Ret (st, n) ->
  procs st !! i = Some proc -> p_closed proc = false ->
  p_then proc = KDestroy n r ->
  Process_close proc error code stdout stderr = Ret out ->
  let st' := close env st i error code stdout stderr in
  exists st'',
    getRawKey st' key view = Ret (st'', length (nodes st'))
    /\ n < length (nodes st')
    /\ length (nodes st'') = S (length (nodes st'))
    /\ found (nodes st'' !!! length (nodes st')) = false
    /\ path st'' (length (nodes st')) = path st n
    /\ found (nodes st'' !!! n) = found (nodes st !!! n).
Proof.
  intros Hreach Hg Hp Hc Hk Ho st'.
  pose proof (reachable_inv env st Hreach) as Hi.
  pose proof (proj1 (proj1 Hi)) as Ht.
  assert (Hreach' : reachable env st').
  { apply (reaches_step env event_ok st (Eclose i error code stdout stderr) Hreach). exact I. }
  destruct (getRawKey_Ret st key view st n Hg) as (hive & key2 & Hf & Hv & Hsub).
  cbv zeta in Hsub.
  set (is32 := bool_decide (view = Some (js "32"))) in *.
  set (host := (split_host key).1) in *.
  (* the root is in the table already *)
  destruct ((if is32 then hosts32 st else hosts64 st) !! host) as [p|] eqn:Hroot.
  2:{ exfalso. unfold host_root in Hsub. rewrite Hroot in Hsub. cbn [fst snd] in Hsub.
      unfold subkey in Hsub. cbn [nodes] in Hsub.
      pose proof (subkey_loop_length (split key2 [bslash])
                    (nodes st ++ [new_KeyImp host None]) (length (nodes st))) as Hle.
      destruct (subkey_loop _ _ _) as [ns q]. injection Hsub as Hst _.
      apply (f_equal nodes) in Hst. cbn [nodes with_nodes fst] in *. subst ns.
      rewrite length_app in Hle. simpl in Hle. lia. }
  assert (Hhr : host_root st is32 host = (st, p)).
  { unfold host_root. by rewrite Hroot. }
  rewrite Hhr in Hsub. cbn [fst snd] in Hsub. unfold subkey in Hsub.
  assert (Hplt : p < length (nodes st)).
  { destruct Hi as (_ & [Hh _] & _).
    destruct (Hh host p) as (pn & Hpn & _); [by destruct is32; auto|].
    by apply lookup_lt_Some in Hpn. }
  pose proof (subkey_loop_fixed (split key2 [bslash]) (nodes st) p) as Hfix.
  destruct (subkey_loop (nodes st) p (split key2 [bslash])) as [ns q] eqn:Hloop.
  injection Hsub as Hst Hn. apply (f_equal nodes) in Hst. cbn [nodes with_nodes] in Hst.
  subst ns q. cbn [fst snd] in Hfix. specialize (Hfix eq_refl).
  (* the last segment *)
  destruct (exists_last (split_nonempty key2 bslash)) as (pre & l & Hsegs).
  rewrite Hsegs in Hfix. rewrite descend_app in Hfix.
  destruct (descend (nodes st) p pre) as [q|] eqn:Hpre; [|discriminate].
  cbn [descend] in Hfix.
  destruct (_keys (nodes st !!! q) !! l) as [c|] eqn:Hql; [|discriminate].
  injection Hfix as ->.
  destruct (descend_frame (nodes st) pre Ht p q Hplt Hpre) as (_ & Hqlt & Hfr).
  pose proof (lookup_total_keys _ _ _ _ Hql) as Hq.
  destruct (proj2 Ht _ _ _ _ Hq Hql) as (cn & Hcn & Hcp & Hcname).
  pose proof (lookup_lt_Some _ _ _ Hcn) as Hnlt.
  rewrite <- (list_lookup_total_correct _ _ _ Hcn) in Hcp, Hcname.
  (* the store after the command *)
  assert (Hst' : nodes st' = alter (set_keys (delete l)) q (nodes st)
                 /\ hosts32 st' = hosts32 st /\ hosts64 st' = hosts64 st).
  { subst st'. unfold close. rewrite Hp, Hc, Hk, Ho. cbn [continue].
    cbn [nodes hosts32 hosts64 resolve with_results with_nodes with_procs].
    by rewrite Hcp, Hcname. }
  destruct Hst' as (Hns' & Hh32 & Hh64).
  set (ns' := alter (set_keys (delete l)) q (nodes st)) in *.
  assert (Hlen' : length ns' = length (nodes st)) by apply length_alter.
  assert (Hpre' : descend ns' p pre = Some q).
  { apply Hfr. intros a Ha. unfold ns'. by rewrite list_lookup_total_alter_ne by lia. }
  assert (Hql' : _keys (ns' !!! q) !! l = None).
  { unfold ns'. rewrite list_lookup_total_alter_eq by exact Hqlt. cbn [set_keys _keys].
    apply lookup_delete_eq. }
  set (new := length ns').
  set (ns'' := alter (set_keys (<[l := new]>)) q (ns' ++ [new_KeyImp l (Some q)])).
  assert (Hloop' : subkey_loop ns' p (split key2 [bslash]) = (ns'', new)).
  { rewrite Hsegs, (subkey_loop_app ns' pre [l] p q Hpre'). cbn [subkey_loop].
    by rewrite Hql'. }
  assert (Hg' : getRawKey st' key view = Ret (with_nodes (fun _ => ns'') st', new)).
  { unfold getRawKey. destruct (split_host key) as [host0 key1] eqn:Hsh.
    cbn [snd fst] in *. rewrite Hf. cbn [mbind res_bind].
    destruct (_ && _) eqn:Hrem.
    { revert Hg. unfold getRawKey. rewrite Hsh, Hf. cbn [mbind res_bind]. by rewrite Hrem. }
    rewrite test_KEY_PATTERN. cbn [negb]. rewrite Hv.
    assert (Hhr' : host_root st' is32 host = (st', p)).
    { unfold host_root. rewrite Hh32, Hh64. subst host. by rewrite Hroot. }
    fold is32. subst host. rewrite Hhr'. unfold subkey. rewrite Hns', Hloop'. reflexivity. }
  exists (with_nodes (fun _ => ns'') st'). rewrite Hns'. fold new.
  split; [exact Hg'|]. split; [lia|].
  cbn [nodes with_nodes].
  assert (Hlen'' : length ns'' = S new).
  { unfold ns''. rewrite length_alter, length_app. simpl. lia. }
  split; [exact Hlen''|].
  assert (Hnew : found (ns'' !!! new) = false).
  { unfold ns''. rewrite list_lookup_total_alter_ne by (unfold new; lia).
    unfold new. by rewrite lookup_total_app_r, Nat.sub_diag by lia. }
  split; [exact Hnew|]. split.
  - destruct (getRawKey_path env st key view st n Hreach Hg) as (h1 & k1 & Hf1 & ->).
    destruct (getRawKey_path env st' key view _ new Hreach' Hg') as (h2 & k2 & Hf2 & ->).
    rewrite Hf in Hf1, Hf2. by injection Hf1 as _ <-; injection Hf2 as _ <-.
  - unfold ns''. destruct (decide (n = q)) as [->|Hne].
    + rewrite list_lookup_total_alter_eq by (rewrite length_app; lia).
      cbn [set_keys found]. rewrite lookup_total_app_l by lia.
      unfold ns'. by rewrite list_lookup_total_alter_eq by lia.
    + rewrite list_lookup_total_alter_ne by done.
      rewrite lookup_total_app_l by lia.
      unfold ns'. by rewrite list_lookup_total_alter_ne by done.
Qed.

(** ** [create] *)


(** ** What a query adds to the tree *)

Lemma extends_total ns ns' a :
  extends ns ns' -> a < length ns ->
  name (ns' !!! a) = name (ns !!! a) /\ parent (ns' !!! a) = parent (ns !!! a)
  /\ (found (ns !!! a) = true -> found (ns' !!! a) = true).
Proof.
  intros He Ha. destruct (lookup_lt_is_Some_2 ns a Ha) as [n Hn].
  destruct (He a n Hn) as (n' & Hn' & H1 & H2 & H3).
  by rewrite (list_lookup_total_correct _ _ _ Hn), (list_lookup_total_correct _ _ _ Hn').
Qed.

Lemma grows_under_refl this ns : grows_under this ns ns.
Proof. split; [lia|]. split; [auto|]. intros a Ha. lia. Qed.

Lemma grows_under_trans this ns1 ns2 ns3 :
  grows_under this ns1 ns2 -> grows_under this ns2 ns3 -> extends ns2 ns3 ->
  this < length ns1 ->
  grows_under this ns1 ns3.
Proof.
  intros (Hl1 & Hk1 & Hn1) (Hl2 & Hk2 & Hn2) He Hlt.
  split; [lia|]. split; [by auto|]. intros a Ha.
  destruct (decide (a < length ns2)) as [Hlt2|Hge2]; [|apply Hn2; lia].
  destruct (Hn1 a) as (Hp & Hf & Hk); [lia|].
  destruct (extends_total ns2 ns3 a He Hlt2) as (Hname & Hpar & Hfound).
  rewrite Hname, Hpar. split; [exact Hp|]. split; [by apply Hfound|]. by apply Hk2.
Qed.

Lemma keys_alter_set_found (c : addr) (ns : list KeyImp) (a : addr) :
  _keys (alter set_found c ns !!! a) = _keys (ns !!! a).
Proof.
  destruct (decide (a = c)) as [->|Hne]; [|by rewrite list_lookup_total_alter_ne].
  destruct (decide (c < length ns)) as [Hlt|Hge].
  - by rewrite list_lookup_total_alter_eq.
  - rewrite !list_lookup_total_alt, list_lookup_alter_eq.
    by rewrite (lookup_ge_None_2 ns c) by lia.
Qed.

Lemma grows_under_set_found this (c : addr) ns : grows_under this ns (alter set_found c ns).
Proof.
  split; [by rewrite length_alter|]. split.
  - intros a k c0. by rewrite keys_alter_set_found.
  - intros a. rewrite length_alter. lia.
Qed.

Lemma add_found_key_grows this key ns :
  this < length ns -> grows_under this ns (add_found_key ns this key).
Proof.
  intros Hlt. unfold add_found_key.
  destruct key as [|k0 key']; [apply grows_under_refl|].
  set (key := k0 :: key'). case_bool_decide; [apply grows_under_refl|].
  destruct (_keys (ns !!! this) !! key) as [c|] eqn:Hc; [apply grows_under_set_found|].
  set (c := length ns).
  set (ns1 := alter (set_keys (<[key := c]>)) this (ns ++ [new_KeyImp key (Some this)])).
  assert (Hl1 : length ns1 = S c).
  { unfold ns1. rewrite length_alter, length_app. simpl. lia. }
  assert (Hnew : alter set_found c ns1 !!! c = set_found (new_KeyImp key (Some this))).
  { rewrite list_lookup_total_alter_eq by lia. unfold ns1.
    rewrite list_lookup_total_alter_ne by (unfold c; lia).
    unfold c. by rewrite lookup_total_app_r, Nat.sub_diag by lia. }
  split; [rewrite length_alter; lia|]. split.
  - intros a k c0 Hk. rewrite keys_alter_set_found. unfold ns1.
    pose proof (lookup_lt_Some _ _ _ (lookup_total_keys _ _ _ _ Hk)) as Ha.
    destruct (decide (a = this)) as [->|Hne].
    + rewrite list_lookup_total_alter_eq by (rewrite length_app; lia).
      cbn [set_keys _keys]. rewrite lookup_total_app_l by lia.
      rewrite lookup_insert_ne; [exact Hk|]. intros <-. congruence.
    + rewrite list_lookup_total_alter_ne by done. by rewrite lookup_total_app_l by lia.
  - intros a. rewrite length_alter, Hl1. intros Ha.
    assert (a = c) as -> by (unfold c in *; lia).
    rewrite Hnew. cbn [set_found new_KeyImp parent found name].
    split; [reflexivity|]. split; [reflexivity|].
    rewrite keys_alter_set_found. unfold ns1.
    rewrite list_lookup_total_alter_eq by (rewrite length_app; lia).
    cbn [set_keys _keys]. apply lookup_insert_eq.
Qed.

Lemma reread_line_grows env this acc i :
  this < length acc.1 -> grows_under this acc.1 (reread_line env this acc i).1.
Proof.
  intros Hlt. destruct acc as [ns [[its ln]|e]]; simpl in *; [|apply grows_under_refl].
  unfold reread_line.
  repeat case_match; simpl; try apply grows_under_refl; by apply add_found_key_grows.
Qed.

Lemma reread_fold_grows env (P : addr -> Prop) this lines :
  forall acc,
    this < length acc.1 -> P this -> good P acc.1 ->
    grows_under this acc.1 (fold_left (reread_line env this) lines acc).1.
Proof.
  induction lines as [|i lines IH]; intros acc Hlt HP Hg; [apply grows_under_refl|].
  cbn [fold_left].
  destruct (reread_line_good env P this acc i Hlt HP Hg) as [Hg1 He1].
  assert (Hlt1 : this < length (reread_line env this acc i).1)
    by (pose proof (extends_length _ _ He1); lia).
  destruct (reread_fold_good env P this lines _ Hlt1 HP Hg1) as [_ He2].
  eapply grows_under_trans; [by apply reread_line_grows | by apply (IH _ Hlt1 HP Hg1) | | ].
  - exact He2.
  - exact Hlt.
Qed.

Lemma mark_found_grows this fuel :
  forall ns p, grows_under this ns (mark_found fuel ns p).
Proof.
  induction fuel as [|f IH]; intros ns p; cbn [mark_found]; [apply grows_under_refl|].
  destruct (found (ns !!! p)); [apply grows_under_refl|].
  destruct (parent (ns !!! p)) as [pp|]; [|apply grows_under_refl].
  destruct (IH (alter set_found p ns) pp) as (Hl & Hk & Hn).
  rewrite length_alter in Hl, Hn.
  split; [exact Hl|]. split; [|exact Hn].
  intros a k c Hc. apply Hk. by rewrite keys_alter_set_found.
Qed.

(** X24.  A query only adds to the tree.  When the query of a node ends
    with success, whatever its output and whether or not the parsing of
    a value raises: no node goes and no child entry of any node is
    dropped, so a subkey that the output does not list any more stays in
    the tree; every node keeps its name and its parent and a confirmed
    node stays confirmed; and each node that is new is a child of the
    node queried, confirmed, and entered under its name. *)
Theorem reread_only_adds env st i proc this p error code stdout stderr out :
  reachable env st ->
  procs st !! i = Some proc -> p_closed proc = false ->
  p_then proc = KReread this p ->
  Process_close proc error code stdout stderr = Ret out ->
  let ns := nodes st in
  let ns' := nodes (close env st i error code stdout stderr) in
  length ns <= length ns'
  /\ (forall a k c, _keys (ns !!! a) !! k = Some c -> _keys (ns' !!! a) !! k = Some c)
  /\ (forall a, a < length ns ->
        name (ns' !!! a) = name (ns !!! a) /\ parent (ns' !!! a) = parent (ns !!! a)
        /\ (found (ns !!! a) = true -> found (ns' !!! a) = true))
  /\ (forall a, length ns <= a < length ns' ->
        parent (ns' !!! a) = Some this /\ found (ns' !!! a) = true
        /\ _keys (ns' !!! this) !! name (ns' !!! a) = Some a).
Proof.
  intros Hreach Hp Hc Hk Ho ns ns'.
  pose proof (reachable_inv env st Hreach) as Hi.
  assert (Hlt : this < length ns).
  { destruct Hi as (_ & _ & Hpr). eapply Hpr; eassumption. }
  assert (Hns' : ns' = (reread_done env this out ns).1).
  { subst ns'. unfold close. rewrite Hp, Hc, Hk, Ho. cbn [continue].
    change (nodes (with_procs (alter close_process i) st)) with ns.
    destruct (reread_done env this out ns) as [ns1 r1]. cbn [fst].
    by destruct (same_tree_settle p r1
                   (with_nodes (fun _ => ns1) (with_procs (alter close_process i) st)))
      as [-> _]. }
  assert (Hgr : grows_under this ns (reread_done env this out ns).1).
  { unfold reread_done.
    pose proof (reread_fold_grows env (fun _ => True) this (split out [10%N])
                  (ns, Ret (∅, 0)) Hlt I (proj1 Hi)) as Hg1.
    destruct (reread_fold_good env (fun _ => True) this (split out [10%N])
                (ns, Ret (∅, 0)) Hlt I (proj1 Hi)) as [Hg2 He2].
    destruct (fold_left _ _ _) as [ns1 [[its ln]|e]]; cbn [fst] in *; [|exact Hg1].
    assert (Hlt1 : this < length ns1) by (pose proof (extends_length _ _ He2); lia).
    destruct (mark_found_good (fun _ => True) (fun _ => True) (length ns1) ns1 this
                Hlt1 (fun q _ => or_intror I) Hg2) as (_ & He3 & _).
    eapply grows_under_trans; [exact Hg1 | apply mark_found_grows | exact He3 | exact Hlt]. }
  destruct (reread_done_good env (fun _ => True) this out ns Hlt (proj1 Hi)) as (_ & He & _).
  rewrite <- Hns' in Hgr, He. destruct Hgr as (Hl & Hkeys & Hnew).
  split; [exact Hl|]. split; [exact Hkeys|]. split; [|exact Hnew].
  intros a Ha. by apply extends_total.
Qed.

(** ** Examples: the further properties at concrete stores *)

Lemma resolved_state_reachable : reachable example_env resolved_state.
Proof. apply reaches_step; [apply reaches_initial | exact I]. Defined.

Lemma reading_state_reachable : reachable example_env reading_state.
Proof. apply reaches_step; [exact resolved_state_reachable | vm_compute; lia]. Defined.

Lemma write_state_reachable : reachable example_env write_state.
Proof.
  apply reaches_step; [apply reaches_step; [exact reading_state_reachable | exact I]|].
  vm_compute. lia.
Defined.

Lemma wholesale_state_reachable : reachable example_env wholesale_state.
Proof.
  apply reaches_step; [apply reaches_step; [apply reaches_initial | exact I] | exact I].
Defined.

(** X1 at the key [HKLM\Software\Test], resolved in the initial store:
    the path of the node is the key with the long name of the hive. *)
Lemma canonical_path_witness :
  getRawKey initial (js "HKLM\Software\Test") None = Ret (resolved_state, 3)
  /\ path resolved_state 3 = js "HKEY_LOCAL_MACHINE\Software\Test".
Proof.
  assert (H : getRawKey initial (js "HKLM\Software\Test") None = Ret (resolved_state, 3))
    by (vm_compute; reflexivity).
  split; [exact H|].
  apply (getRawKey_path_is_canonical example_env initial [] 0 (js "HKLM")
           (js "HKEY_LOCAL_MACHINE") (js "\Software\Test") (js "HKLM\Software\Test")
           None resolved_state 3).
  - apply reaches_initial.
  - apply not_elem_of_nil.
  - reflexivity.
  - reflexivity.
  - right. eexists. reflexivity.
  - left. reflexivity.
  - exact H.
Defined.

(** X2 at the same key: resolved again, the node is node 3 and the store
    is left as it is. *)
Lemma idempotent_witness :
  getRawKey initial (js "HKLM\Software\Test") None = Ret (resolved_state, 3)
  /\ getRawKey resolved_state (js "HKLM\Software\Test") None = Ret (resolved_state, 3).
Proof.
  assert (H : getRawKey initial (js "HKLM\Software\Test") None = Ret (resolved_state, 3))
    by (vm_compute; reflexivity).
  split; [exact H|].
  exact (getRawKey_idempotent example_env initial _ None _ 3 (reaches_initial _ _) H).
Defined.

(** X3 at the key resolved in the view [32]. *)
Lemma view_witness :
  exists st', getRawKey initial (js "HKLM\Software\Test") (Some (js "32")) = Ret (st', 3)
              /\ getView st' 3 None = js "32".
Proof.
  exists (step example_env initial (EgetRawKey (js "HKLM\Software\Test") (Some (js "32")))).
  assert (H : getRawKey initial (js "HKLM\Software\Test") (Some (js "32"))
              = Ret (step example_env initial
                       (EgetRawKey (js "HKLM\Software\Test") (Some (js "32"))), 3))
    by (vm_compute; reflexivity).
  split; [exact H|].
  exact (proj1 (getView_follows_view example_env initial _ _ _ 3 (reaches_initial _ _) H)).
Defined.

(** X4 at the hive [HKLM] on the host [srv]. *)
Lemma short_is_long_witness :
  getRawKey initial (js "\\srv\HKLM\Software") None
  = getRawKey initial (js "\\srv\HKEY_LOCAL_MACHINE\Software") None.
Proof.
  apply (getRawKey_short_is_long initial (js "srv") 0 (js "HKLM") (js "HKEY_LOCAL_MACHINE")
           (js "\Software") None).
  - intros Hin. vm_compute in Hin. repeat (apply elem_of_cons in Hin as [Hin|Hin]; [discriminate|]).
    by apply elem_of_nil in Hin.
  - reflexivity.
  - reflexivity.
  - right. eexists. reflexivity.
Defined.

(** X5 at the store of the sample query. *)
Lemma well_formed_witness :
  reachable example_env sample_state
  /\ (forall a n p, nodes sample_state !! a = Some n -> parent n = Some p -> p < a)
  /\ (forall a, a < length (nodes sample_state) ->
        exists r, is_root (nodes sample_state) r
                  /\ (a = r \/ ancestor (nodes sample_state) r a)).
Proof.
  pose proof (store_is_well_formed example_env sample_state
                (reachable_quiet_reachable _ _ sample_state_quiet)) as (H1 & _ & H3 & _).
  split; [exact (reachable_quiet_reachable _ _ sample_state_quiet)|].
  split; [exact H1 | exact H3].
Defined.

(** X6 at the wholesale import in the view [32], closing with success:
    the table of the view is emptied, and node 3, resolved in the view
    [32], now reports the view [64]. *)
Lemma wholesale_witness :
  let st' := close example_env wholesale_state 0 None (Some 0%Z) [] [] in
  reachable example_env wholesale_state
  /\ getView wholesale_state 3 None = js "32"
  /\ hosts32 st' = ∅
  /\ nodes st' = nodes wholesale_state
  /\ getView st' 3 None = js "64".
Proof.
  cbv zeta.
  assert (Hp : procs wholesale_state !! 0
               = Some (default (mkProcess [] [] (KBool 0) true) (procs wholesale_state !! 0)))
    by (vm_compute; reflexivity).
  pose proof (wholesale_import_invalidates example_env wholesale_state 0 _ (Some (js "32")) 0
                None (Some 0%Z) [] [] [] wholesale_state_reachable Hp eq_refl eq_refl eq_refl)
    as (H1 & H2 & _ & H4).
  split; [exact wholesale_state_reachable|].
  split; [vm_compute; reflexivity|].
  split; [exact (proj1 H1)|]. split; [exact H2|]. exact (H4 eq_refl 3).
Defined.

(** X7 at the [setValue] of [k] on node 3 after its read has succeeded,
    closing with success: the promise is fulfilled with [true] and the
    value set, which held [Flag], now holds [k] too. *)
Lemma write_witness :
  let st' := close example_env write_state 1 None (Some 0%Z) [] [] in
  reachable example_env write_state
  /\ results st' !! 0 = Some (Fulfilled (VBool true))
  /\ nodes st' = nodes write_state
  /\ items st' !! 0
     = Some (Fulfilled (<[js "k" := DWORD (Num 1)]> {[js "Flag" := DWORD (Num 1)]}), []).
Proof.
  cbv zeta.
  assert (Hp : procs write_state !! 1
               = Some (default (mkProcess [] [] (KBool 0) true) (procs write_state !! 1)))
    by (vm_compute; reflexivity).
  assert (Hi : items write_state = [(Fulfilled {[js "Flag" := DWORD (Num 1)]}, [])])
    by (vm_compute; reflexivity).
  destruct (proj1 (write_updates_cache example_env write_state 1 _ 3 0 None (Some 0%Z) [] [] []
                     write_state_reachable Hp eq_refl eq_refl)
              (js "k") (DWORD (Num 1)) eq_refl) as (Hn & Hc).
  change (_items (nodes write_state !!! 3)) with (Some 0) in Hc. cbv iota in Hc.
  rewrite Hi in Hc. cbn [lookup list_lookup] in Hc. destruct Hc as [Hr Hit].
  split; [exact write_state_reachable|]. split; [exact Hr|]. split; [exact Hn|].
  rewrite Hit. reflexivity.
Defined.

(** X8 at the [setValue] of [k] that has succeeded while the read of
    node 3 was running, when the query ends with the sample output: the
    value set holds [k], and the promise of [setValue] is fulfilled. *)
Lemma write_during_read_witness :
  let st' := close example_env pending_write_state 0 None (Some 0%Z) sample_output [] in
  items pending_write_state !! 0 = Some (Pending, [OnSetValue (js "k") (DWORD (Num 1)) 0])
  /\ results st' !! 0 = Some (Fulfilled (VBool true))
  /\ exists x, items st' !! 0 = Some (Fulfilled x, [])
               /\ x !! js "k" = Some (DWORD (Num 1)).
Proof.
  cbv zeta.
  assert (Hp : procs pending_write_state !! 0
               = Some (default (mkProcess [] [] (KBool 0) true)
                         (procs pending_write_state !! 0)))
    by (vm_compute; reflexivity).
  assert (Hi : items pending_write_state !! 0
               = Some (Pending, [] ++ [OnSetValue (js "k") (DWORD (Num 1)) 0]))
    by (vm_compute; reflexivity).
  assert (Hd : (reread_done example_env 3 sample_output (nodes pending_write_state)).2
               = Ret {[js "Flag" := DWORD (Num 1)]})
    by (vm_compute; reflexivity).
  split; [exact Hi|].
  apply (write_during_read example_env pending_write_state 0 _ 3 0 []
           (js "k") (DWORD (Num 1)) 0 None (Some 0%Z) sample_output [] sample_output
           {[js "Flag" := DWORD (Num 1)]} Hp eq_refl eq_refl Hi).
  - vm_compute. lia.
  - reflexivity.
  - exact Hd.
Defined.

(** X9 at node 3 of the sample store, whose value set holds [Flag]: the
    call of [clear] leaves it empty, and it stays empty when the command
    fails. *)
Lemma clear_witness :
  items sample_state !! 0 = Some (Fulfilled {[js "Flag" := DWORD (Num 1)]}, [])
  /\ items (clear example_env sample_state 3).1 !! 0 = Some (Fulfilled ∅, [])
  /\ items (close example_env (clear example_env sample_state 3).1 1 None (Some 1%Z) [] [])
       !! 0 = Some (Fulfilled ∅, [])
  /\ results (close example_env (clear example_env sample_state 3).1 1 None (Some 1%Z) [] [])
       !! 0 = Some (Fulfilled (VBool false)).
Proof.
  assert (Hi : items sample_state !! 0
               = Some (Fulfilled {[js "Flag" := DWORD (Num 1)]}, []))
    by (vm_compute; reflexivity).
  destruct (clear_empties_cache example_env sample_state 3 0 _ [] eq_refl Hi)
    as (H1 & _ & proc & Hp & _ & _ & _ & Hc).
  split; [exact Hi|]. split; [exact H1|].
  destruct (Hc None (Some 1%Z) [] []) as [H2 H3].
  split; [exact H2|]. refine (eq_trans H3 _).
  assert (Hpe : proc = default (mkProcess [] [] (KBool 0) true)
                         (procs (clear example_env sample_state 3).1 !! 1)).
  { rewrite Hp. reflexivity. }
  rewrite Hpe. vm_compute. reflexivity.
Defined.

(** X10 at the read of node 3, when the query fails with the exit code 1:
    the rejected promise is memoized and [read] hands it out. *)
Lemma failed_read_witness :
  let st' := close example_env reading_state 0 None (Some 1%Z) [] [] in
  (exists e, items st' !! 0 = Some (Rejected e, []))
  /\ read example_env st' 3 = (st', 0)
  /\ procs st' = alter close_process 0 (procs reading_state).
Proof.
  cbv zeta.
  assert (Hp : procs reading_state !! 0
               = Some (default (mkProcess [] [] (KBool 0) true) (procs reading_state !! 0)))
    by (vm_compute; reflexivity).
  assert (Hi : items reading_state !! 0 = Some (Pending, [])) by (vm_compute; reflexivity).
  assert (Hc : exists e, Process_close (default (mkProcess [] [] (KBool 0) true)
                                          (procs reading_state !! 0))
                           None (Some 1%Z) [] [] = Throw e)
    by (eexists; vm_compute; reflexivity).
  destruct Hc as [e Hc].
  destruct (failed_read_is_memoized example_env reading_state 0 _ 3 0 [] None (Some 1%Z) [] []
              e Hp eq_refl eq_refl eq_refl Hi Hc) as [H1 H2].
  split; [by exists e|]. split; [exact H2|]. vm_compute. reflexivity.
Defined.

(** X11 at the sample store: node 3, confirmed, answers [true], and a
    child of it that the query did not list, node 5, answers [false];
    neither runs a command. *)
Lemma exists_witness :
  results (exists_ example_env sample_state 3).1 !! 0 = Some (Fulfilled (VBool true))
  /\ procs (exists_ example_env sample_state 3).1 = procs sample_state
  /\ results (exists_ example_env unlisted_state 5).1 !! 0 = Some (Fulfilled (VBool false))
  /\ procs (exists_ example_env unlisted_state 5).1 = procs unlisted_state.
Proof.
  assert (H3 : 3 < length (nodes sample_state)) by (vm_compute; lia).
  assert (Hf3 : found (nodes sample_state !!! 3) = true) by (vm_compute; reflexivity).
  assert (H5 : 5 < length (nodes unlisted_state)) by (vm_compute; lia).
  assert (Hf5 : found (nodes unlisted_state !!! 5) = false) by (vm_compute; reflexivity).
  assert (Hp5 : match parent (nodes unlisted_state !!! 5) with
                | Some q => found (nodes unlisted_state !!! q)
                | None => false
                end = true) by (vm_compute; reflexivity).
  assert (Hr3 : length (results sample_state) = 0) by (vm_compute; reflexivity).
  assert (Hr5 : length (results unlisted_state) = 0) by (vm_compute; reflexivity).
  destruct (exists_outcomes example_env sample_state 3 H3) as (Hr & Ht & _).
  destruct (Ht Hf3) as [Hp Hres]. rewrite Hr, Hr3 in Hres.
  destruct (exists_outcomes example_env unlisted_state 5 H5) as (Hr' & _ & Hf & _).
  destruct (Hf Hf5 Hp5) as [Hp' Hres']. rewrite Hr', Hr5 in Hres'.
  split; [exact Hres|]. split; [exact Hp|]. split; [exact Hres' | exact Hp'].
Defined.

(** X14 at the string [abc]. *)
Lemma bytes_to_string_witness :
  raw (SZ (js "abc")) = Ret (utf16le (js "abc") ++ [Byte.x00; Byte.x00])
  /\ bytes_to_string (utf16le (js "abc") ++ [Byte.x00; Byte.x00]) = js "abc".
Proof.
  assert (H : raw (SZ (js "abc")) = Ret (utf16le (js "abc") ++ [Byte.x00; Byte.x00]))
    by reflexivity.
  split; [exact H|].
  apply (bytes_to_string_of_raw (js "abc") _); [|discriminate | exact H].
  repeat (constructor; [repeat split; reflexivity|]). constructor.
Defined.

(** X18 at the two bytes [01 ff], in the strict mode. *)
Lemma hex_payload_witness :
  (s ← data_to_regstring (BINARY [Byte.x01; Byte.xff]) true; regstring_to_data s)
  = Ret (Some (BINARY [Byte.x01; Byte.xff]))
  /\ (s ← data_to_regstring (RESOURCE_REQUIREMENTS_LIST [Byte.x01; Byte.xff]) true;
      regstring_to_data s)
     = Ret (Some (NONE [Byte.x01; Byte.xff])).
Proof.
  destruct (hex_payload_round_trip [Byte.x01; Byte.xff] true) as (H1 & _ & H3);
    [discriminate|].
  split; [exact H1 | exact H3].
Defined.

(** X19 at the string [a b], in the strict mode. *)
Lemma string_round_trip_witness :
  (s ← data_to_regstring (SZ (js "a b")) true; regstring_to_data s)
  = Ret (Some (SZ (js "a b"))).
Proof.
  apply (string_round_trip (js "a b") true); [discriminate|].
  repeat (constructor; [reflexivity|]). constructor.
Defined.

(** X25 at the values [0x12345678] and [26]: the first comes back, the
    second is not recognised. *)
Lemma dword_witness :
  (s ← data_to_regstring (DWORD (Num 305419896)) true; regstring_to_data s)
  = Ret (Some (DWORD (Num 305419896)))
  /\ (s ← data_to_regstring (DWORD (Num 26)) true; regstring_to_data s) = Ret None.
Proof.
  assert (H1 : (0 <= 305419896 < 2 ^ 32)%Z) by lia.
  assert (H2 : (0 <= 26 < 2 ^ 32)%Z) by lia.
  split.
  - exact (proj1 (dword_round_trip 305419896 true H1)).
  - exact (proj1 (dword_round_trip 26 true H2)).
Defined.


Lemma destroying_state_reachable : reachable example_env destroying_state.
Proof.
  apply reaches_step; [exact (reachable_quiet_reachable _ _ sample_state_quiet)|].
  vm_compute. lia.
Defined.

(** X21 at the successful [destroy] of node 3 of the sample store: its
    entry is gone from its parent, node 2, and yet the node is still
    confirmed and [exists] answers [true]. *)
Lemma never_revoked_witness :
  let st' := close example_env destroying_state 1 None (Some 0%Z) [] [] in
  _keys (nodes destroying_state !!! 2) !! js "Test" = Some 3
  /\ _keys (nodes st' !!! 2) !! js "Test" = None
  /\ found (nodes st' !!! 3) = true
  /\ results (exists_ example_env st' 3).1 !! (exists_ example_env st' 3).2
     = Some (Fulfilled (VBool true)).
Proof.
  cbv zeta.
  assert (H3 : 3 < length (nodes destroying_state)) by (vm_compute; lia).
  assert (Hf : found (nodes destroying_state !!! 3) = true) by (vm_compute; reflexivity).
  destruct (existence_is_never_revoked example_env destroying_state
              (Eclose 1 None (Some 0%Z) [] []) 3 destroying_state_reachable I H3)
    as (_ & _ & _ & Hrev).
  destruct (Hrev Hf) as (Hf' & _ & Hres).
  split; [vm_compute; reflexivity|]. split; [vm_compute; reflexivity|].
  split; [exact Hf' | exact Hres].
Defined.

(** X22 at the key [HKLM\A], node 2, whose [destroy] succeeds: resolved
    again, the key is the new node 3, with the path of node 2. *)
Lemma resolves_afresh_witness :
  let st' := close example_env destroy_state 0 None (Some 0%Z) [] [] in
  getRawKey destroy_state (js "HKLM\A") None = Ret (destroy_state, 2)
  /\ exists st'',
       getRawKey st' (js "HKLM\A") None = Ret (st'', 3)
       /\ found (nodes st'' !!! 3) = false
       /\ path st'' 3 = path destroy_state 2.
Proof.
  cbv zeta.
  assert (Hg : getRawKey destroy_state (js "HKLM\A") None = Ret (destroy_state, 2))
    by (vm_compute; reflexivity).
  assert (Hp : procs destroy_state !! 0
               = Some (default (mkProcess [] [] (KBool 0) true) (procs destroy_state !! 0)))
    by (vm_compute; reflexivity).
  assert (Hl : length (nodes (close example_env destroy_state 0 None (Some 0%Z) [] [])) = 3)
    by (vm_compute; reflexivity).
  destruct (destroyed_key_resolves_afresh example_env destroy_state (js "HKLM\A") None 2 0 _ 0
              None (Some 0%Z) [] [] [] destroy_state_reachable Hg Hp eq_refl eq_refl eq_refl)
    as (st'' & Hg' & _ & _ & Hnew & Hpath & _).
  rewrite Hl in Hg', Hnew, Hpath.
  split; [exact Hg|]. exists st''. split; [exact Hg'|]. split; [exact Hnew | exact Hpath].
Defined.



(** X24 at the read of node 3, when the query ends with the sample
    output: one node is new, node 4, a confirmed child of node 3 entered
    under its name [Sub]. *)
Lemma reread_adds_witness :
  let st' := close example_env reading_state 0 None (Some 0%Z) sample_output [] in
  length (nodes reading_state) = 4 /\ length (nodes st') = 5
  /\ parent (nodes st' !!! 4) = Some 3 /\ found (nodes st' !!! 4) = true
  /\ _keys (nodes st' !!! 3) !! name (nodes st' !!! 4) = Some 4.
Proof.
  cbv zeta.
  assert (Hp : procs reading_state !! 0
               = Some (default (mkProcess [] [] (KBool 0) true) (procs reading_state !! 0)))
    by (vm_compute; reflexivity).
  assert (Hl : length (nodes reading_state) = 4) by (vm_compute; reflexivity).
  assert (Hl' : length (nodes (close example_env reading_state 0 None (Some 0%Z)
                                 sample_output [])) = 5) by (vm_compute; reflexivity).
  destruct (reread_only_adds example_env reading_state 0 _ 3 0 None (Some 0%Z)
              sample_output [] sample_output reading_state_reachable Hp eq_refl eq_refl
              eq_refl) as (_ & _ & _ & Hnew).
  split; [exact Hl|]. split; [exact Hl'|]. apply Hnew. rewrite Hl, Hl'. lia.
Defined.
